(** * Automata engines: trie matcher, pushdown automaton, notation validators
      and converters

    A shallow embedding of [SoalDua/state_machine.py],
    [SoalDua/combo_definitions.py], [SoalSatu/pushdown_automata.py],
    [SoalSatu/expression_validator.py] and
    [SoalSatu/expression_converter.py], followed by the properties proved
    about them.

    Conventions of the embedding.
    - A Python [str] is a [string]; its characters are the code points below
      256 ([ascii]).
    - A Python [dict] keyed by strings is a [gmap string _]; a Python [set]
      of strings is a [gset string].
    - A Python [list] is a [list] in the same order: [append] adds at the
      end, [pop()] removes the last element.
    - A method that mutates [self] takes the object and returns the new
      object, next to the value the method returns.
    - A Python exception ([KeyError], [AttributeError] on [None]) is the
      value [None] of an [option] result. *)

From Stdlib Require Import QArith Ascii String.
From stdpp Require Import gmap strings list pretty.

Set Warnings "-register-all,-clear-no-such-hyp".
Open Scope string_scope.
Open Scope nat_scope.
Open Scope list_scope.

(** ** SoalDua/state_machine.py *)

Module state_machine.

(** [class StateNode].  The children are owned by their parent and the
    object graph is a tree, so a node is the value of its subtree. *)
Inductive StateNode := mkStateNode {
  state_id : nat;
  transitions : gmap string StateNode;
  combo_name : option string;
  is_accept : bool }.

Definition add_transition (self : StateNode) (input_symbol : string)
    (next_state : StateNode) : StateNode :=
  mkStateNode (state_id self)
              (<[input_symbol := next_state]> (transitions self))
              (combo_name self) (is_accept self).

Definition get_next_state (self : StateNode) (input_symbol : string)
    : option StateNode :=
  transitions self !! input_symbol.

Definition has_transition (self : StateNode) (input_symbol : string) : bool :=
  bool_decide (is_Some (transitions self !! input_symbol)).

(** A reference to a node of the trie is the path of input symbols that
    leads to it from the root: every node has exactly one.  The root is
    the empty path. *)
Definition ref := list string.

Fixpoint node_at (n : StateNode) (p : ref) : option StateNode :=
  match p with
  | [] => Some n
  | s :: p' =>
      match get_next_state n s with
      | Some child => node_at child p'
      | None => None
      end
  end.

(** [class ComboStateMachine].  [current_state] aliases a node of the tree
    below [root]; it is kept as a reference so that it sees the nodes as
    [build_from_combos] leaves them. *)
Record ComboStateMachine := mkComboStateMachine {
  _state_counter : nat;
  root : StateNode;
  current_state : ref;
  combo_list : list (list string * string);
  input_history : list string }.

(** [StateNode(state_id=...)] with the dataclass defaults. *)
Definition new_StateNode (id : nat) : StateNode := mkStateNode id ∅ None false.

(** [__init__]: the counter starts at 0, [_create_state] makes the root
    and leaves the counter at 1. *)
Definition __init__ : ComboStateMachine :=
  mkComboStateMachine 1 (new_StateNode 0) [] [] [].

(** [_create_state]: the new node and the incremented counter. *)
Definition _create_state (counter : nat) : StateNode * nat :=
  (new_StateNode counter, S counter).

(** The body of [for sequence, combo_name in combos]: the inner [for] walks
    down from [current], creating the missing children, and the node where
    the walk ends is marked.  The walk mutates the nodes in place; here
    each node on the way is returned with its updated child. *)
Fixpoint walk_insert (counter : nat) (current : StateNode)
    (sequence : list string) (name : string) : nat * StateNode :=
  match sequence with
  | [] => (counter, mkStateNode (state_id current) (transitions current)
                                (Some name) true)
  | input_symbol :: rest =>
      let '(counter1, current1) :=
        if negb (has_transition current input_symbol) then
          let '(new_state, c) := _create_state counter in
          (c, add_transition current input_symbol new_state)
        else (counter, current) in
      match get_next_state current1 input_symbol with
      | Some child =>
          let '(counter2, child') := walk_insert counter1 child rest name in
          (counter2, add_transition current1 input_symbol child')
      | None => (counter1, current1)
      end
  end.

(** One round of [for sequence, combo_name in combos], on the counter and
    the root. *)
Definition insert_combo (st : nat * StateNode) (combo : list string * string)
    : nat * StateNode :=
  let '(counter, r) := st in
  let '(sequence, name) := combo in
  walk_insert counter r sequence name.

Definition build_from_combos (self : ComboStateMachine)
    (combos : list (list string * string)) : ComboStateMachine :=
  let '(counter, root') :=
    foldl insert_combo (_state_counter self, root self) combos in
  mkComboStateMachine counter root' (current_state self) combos
                      (input_history self).

Definition reset (self : ComboStateMachine) : ComboStateMachine :=
  mkComboStateMachine (_state_counter self) (root self) [] (combo_list self) [].

(** [get_current_state_id]: the identifier of the node that the cursor
    refers to. *)
Definition get_current_state_id (self : ComboStateMachine) : option nat :=
  state_id <$> node_at (root self) (current_state self).

(** [node.get_next_state(input_symbol)] for the node that [r] refers to:
    the reference to the child, when there is one. *)
Definition next_ref (self : ComboStateMachine) (r : ref)
    (input_symbol : string) : option ref :=
  match node_at (root self) r with
  | Some n =>
      match get_next_state n input_symbol with
      | Some _ => Some (r ++ [input_symbol])
      | None => None
      end
  | None => None
  end.

Definition set_cursor (self : ComboStateMachine) (history : list string)
    (r : ref) : ComboStateMachine :=
  mkComboStateMachine (_state_counter self) (root self) r (combo_list self)
                      history.

(** The check after the move: [if self.current_state.is_accept]. *)
Definition check_accept (self : ComboStateMachine)
    : ComboStateMachine * option string :=
  match node_at (root self) (current_state self) with
  | Some n =>
      if is_accept n then (reset self, combo_name n) else (self, None)
  | None => (self, None)
  end.

Definition process_input (self : ComboStateMachine) (input_symbol : string)
    : ComboStateMachine * option string :=
  match next_ref self (current_state self) input_symbol with
  | None =>
      match next_ref self [] input_symbol with
      | None => (reset self, None)
      | Some next_state =>
          check_accept (set_cursor self [input_symbol] next_state)
      end
  | Some next_state =>
      check_accept
        (set_cursor self (input_history self ++ [input_symbol]) next_state)
  end.

(** The inner loop of [get_progress_percentage]: [i] is the index that
    [enumerate] has reached, [false] is the [break]. *)
Fixpoint is_prefix_loop (i : nat) (history sequence : list string) : bool :=
  match history with
  | [] => true
  | symbol :: rest =>
      if bool_decide (length sequence ≤ i)
         || negb (bool_decide (sequence !! i = Some symbol))
      then false
      else is_prefix_loop (S i) rest sequence
  end.

(** The body of the outer loop: [max_length] after one more combo. *)
Definition max_length_step (history : list string) (max_length : nat)
    (combo : list string * string) : nat :=
  let '(sequence, _) := combo in
  if bool_decide (max_length < length sequence) then
    if is_prefix_loop 0 history sequence then length sequence
    else max_length
  else max_length.

(** The outer loop: the value of [max_length] after the combos. *)
Definition max_length_loop (history : list string)
    (combos : list (list string * string)) : nat :=
  foldl (max_length_step history) 0 combos.

(** [get_progress_percentage].  The float [len / max_length] of two
    integers is kept as the exact rational. *)
Definition get_progress_percentage (self : ComboStateMachine) : Q :=
  match input_history self with
  | [] => 0
  | _ =>
      let max_length := max_length_loop (input_history self) (combo_list self) in
      if bool_decide (max_length = 0) then 0
      else (inject_Z (Z.of_nat (length (input_history self)))
            / inject_Z (Z.of_nat max_length))%Q
  end.

(** A live input stream: the outputs of successive [process_input] calls. *)
Fixpoint feed (self : ComboStateMachine) (symbols : list string)
    : ComboStateMachine * list (option string) :=
  match symbols with
  | [] => (self, [])
  | s :: rest =>
      let '(self1, out) := process_input self s in
      let '(self2, outs) := feed self1 rest in
      (self2, out :: outs)
  end.

(** A matcher built from [combos] right after its construction. *)
Definition fresh (combos : list (list string * string)) : ComboStateMachine :=
  build_from_combos __init__ combos.

End state_machine.

(** ** SoalDua/combo_definitions.py *)

Module combo_definitions.

Definition RIGHT : string := "RIGHT".
Definition LEFT : string := "LEFT".
Definition UP : string := "UP".
Definition DOWN : string := "DOWN".
Definition SPACE : string := "SPACE".

Definition COMBO_DEFINITIONS : list (list string * string) :=
  [ ([RIGHT; RIGHT; RIGHT; SPACE], "Hadoken");
    ([UP; DOWN; UP; RIGHT; SPACE], "Shoryuken");
    ([LEFT; RIGHT; LEFT; RIGHT; SPACE], "Tatsumaki");
    ([UP; UP; DOWN; RIGHT; SPACE], "Dragon Punch");
    ([RIGHT; DOWN; RIGHT; RIGHT; SPACE], "Hurricane Kick");
    ([RIGHT; RIGHT; RIGHT; DOWN; UP; RIGHT; SPACE], "Giga Hadoken");
    ([RIGHT; RIGHT; DOWN; RIGHT; UP; DOWN; RIGHT; SPACE], "Ultra Shoryuken");
    ([UP; UP; DOWN; RIGHT; RIGHT; RIGHT; RIGHT; SPACE], "Mega Tatsumaki");
    ([LEFT; UP; RIGHT; RIGHT; DOWN; UP; RIGHT; SPACE], "Final Dragon Punch");
    ([RIGHT; RIGHT; UP; DOWN; RIGHT; UP; RIGHT; RIGHT; SPACE],
     "Ultimate Hurricane Kick") ].

(** [get_all_combos]: a copy of the list. *)
Definition get_all_combos : list (list string * string) := COMBO_DEFINITIONS.

Definition get_combo_count : nat := length COMBO_DEFINITIONS.

End combo_definitions.

(** ** The Python built-ins that the sources call *)

Module builtins.

(** [str.isdigit] on one character below 256: the decimal digits and the
    superscripts two, three and one. *)
Definition char_isdigit (c : ascii) : bool :=
  let n := nat_of_ascii c in
  bool_decide (48 ≤ n ≤ 57) || bool_decide (n = 178)
  || bool_decide (n = 179) || bool_decide (n = 185).

(** [str.isspace] on one character below 256. *)
Definition char_isspace (c : ascii) : bool :=
  let n := nat_of_ascii c in
  bool_decide (9 ≤ n ≤ 13) || bool_decide (28 ≤ n ≤ 32)
  || bool_decide (n = 133) || bool_decide (n = 160).

Fixpoint all_chars (f : ascii → bool) (s : string) : bool :=
  match s with
  | EmptyString => true
  | String c s' => f c && all_chars f s'
  end.

(** [s.isdigit()]: at least one character, and all of them digits. *)
Definition isdigit (s : string) : bool :=
  match s with
  | EmptyString => false
  | _ => all_chars char_isdigit s
  end.

(** [s.isspace()] *)
Definition isspace (s : string) : bool :=
  match s with
  | EmptyString => false
  | _ => all_chars char_isspace s
  end.

(** [s.startswith(p)] *)
Definition startswith (s p : string) : bool := String.prefix p s.

(** [s[n:]] *)
Fixpoint slice_from (n : nat) (s : string) : string :=
  match n, s with
  | 0, _ => s
  | S n', String _ s' => slice_from n' s'
  | S _, EmptyString => EmptyString
  end.

(** [sep.join(l)] *)
Definition join (sep : string) (l : list string) : string :=
  String.concat sep l.

(** [s.split()]: the maximal runs of characters that are not whitespace.
    [cur] is the run being read. *)
Fixpoint split_go (cur : string) (s : string) : list string :=
  match s with
  | EmptyString => if bool_decide (cur = "") then [] else [cur]
  | String c s' =>
      if char_isspace c then
        if bool_decide (cur = "") then split_go "" s'
        else cur :: split_go "" s'
      else split_go (cur +:+ String c "") s'
  end.

Definition split (s : string) : list string := split_go "" s.

(** [s.lstrip()], [s.rstrip()] and [s.strip()] *)
Fixpoint lstrip (s : string) : string :=
  match s with
  | EmptyString => EmptyString
  | String c s' => if char_isspace c then lstrip s' else s
  end.

Fixpoint rstrip (s : string) : string :=
  match s with
  | EmptyString => EmptyString
  | String c s' =>
      match rstrip s' with
      | EmptyString => if char_isspace c then EmptyString else String c ""
      | r => String c r
      end
  end.

Definition strip (s : string) : string := rstrip (lstrip s).

End builtins.

(** ** SoalSatu/pushdown_automata.py *)

Module pushdown_automata.

Inductive StateType := INITIAL | NORMAL | ACCEPTING | ERROR.

#[global] Instance StateType_eq_dec : EqDecision StateType.
Proof. solve_decision. Defined.

Record PDAState := mkPDAState {
  name : string;
  state_type : StateType;
  description : string }.

(** [PDAState.__eq__]: two states are equal when their names are. *)
Definition PDAState_eq (self other : PDAState) : bool :=
  bool_decide (name self = name other).

Record PDATransition := mkPDATransition {
  from_state : PDAState;
  to_state : PDAState;
  input_symbol : option string;
  stack_top : option string;
  stack_action : string;
  transition_description : string }.

(** [PDATransition.matches].  [current_state] is [None] when the automaton
    has no initial state; a state never equals [None]. *)
Definition matches (self : PDATransition) (current_state : option PDAState)
    (input_sym : option string) (top : option string) : bool :=
  if negb (match current_state with
           | Some s => PDAState_eq (from_state self) s
           | None => false
           end) then false
  else if bool_decide (input_symbol self ≠ None)
          && bool_decide (input_symbol self ≠ input_sym) then false
  else if bool_decide (stack_top self ≠ None)
          && bool_decide (stack_top self ≠ top) then false
  else true.

(** [class PDAStack]: the bottom marker is the first element of [_stack],
    the top is the last. *)
Record PDAStack := mkPDAStack {
  _stack : list string;
  _history : list (string * list string);
  _initial_symbol : string }.

Definition new_PDAStack (initial_symbol : string) : PDAStack :=
  mkPDAStack [initial_symbol] [] initial_symbol.

Definition push (self : PDAStack) (symbol : string) : PDAStack :=
  let st := _stack self ++ [symbol] in
  mkPDAStack st (_history self ++ [("push:" +:+ symbol, st)])
             (_initial_symbol self).

Definition pop (self : PDAStack) : PDAStack * option string :=
  if bool_decide (1 < length (_stack self)) then
    match last (_stack self) with
    | Some symbol =>
        let st := removelast (_stack self) in
        (mkPDAStack st (_history self ++ [("pop:" +:+ symbol, st)])
                    (_initial_symbol self),
         Some symbol)
    | None => (self, None)
    end
  else (self, None).

Definition peek (self : PDAStack) : option string := last (_stack self).

Definition is_empty (self : PDAStack) : bool :=
  bool_decide (length (_stack self) ≤ 1).

Definition size (self : PDAStack) : Z := Z.of_nat (length (_stack self)) - 1.

Definition clear (self : PDAStack) : PDAStack :=
  mkPDAStack [_initial_symbol self] [] (_initial_symbol self).

Definition get_contents (self : PDAStack) : list string := _stack self.

Definition get_history (self : PDAStack) : list (string * list string) :=
  _history self.

Record PDAConfiguration := mkPDAConfiguration {
  state : option PDAState;
  remaining_input : string;
  stack_contents : list string }.

Record PushdownAutomata := mkPushdownAutomata {
  pda_name : string;
  states : gmap string PDAState;
  transitions : list PDATransition;
  initial_state : option PDAState;
  current_state : option PDAState;
  stack : PDAStack;
  input_alphabet : gset string;
  stack_alphabet : gset string;
  _execution_history : list PDAConfiguration;
  _transition_history : list PDATransition }.

(** Assignments to one attribute of the automaton. *)
Definition set_current_state (self : PushdownAutomata)
    (s : option PDAState) : PushdownAutomata :=
  mkPushdownAutomata (pda_name self) (states self) (transitions self)
    (initial_state self) s (stack self) (input_alphabet self)
    (stack_alphabet self) (_execution_history self)
    (_transition_history self).

Definition set_stack (self : PushdownAutomata) (st : PDAStack)
    : PushdownAutomata :=
  mkPushdownAutomata (pda_name self) (states self) (transitions self)
    (initial_state self) (current_state self) st (input_alphabet self)
    (stack_alphabet self) (_execution_history self)
    (_transition_history self).

Definition set_stack_alphabet (self : PushdownAutomata) (a : gset string)
    : PushdownAutomata :=
  mkPushdownAutomata (pda_name self) (states self) (transitions self)
    (initial_state self) (current_state self) (stack self)
    (input_alphabet self) a (_execution_history self)
    (_transition_history self).

Definition set_execution_history (self : PushdownAutomata)
    (h : list PDAConfiguration) : PushdownAutomata :=
  mkPushdownAutomata (pda_name self) (states self) (transitions self)
    (initial_state self) (current_state self) (stack self)
    (input_alphabet self) (stack_alphabet self) h
    (_transition_history self).

Definition set_transition_history (self : PushdownAutomata)
    (h : list PDATransition) : PushdownAutomata :=
  mkPushdownAutomata (pda_name self) (states self) (transitions self)
    (initial_state self) (current_state self) (stack self)
    (input_alphabet self) (stack_alphabet self) (_execution_history self) h.

(** [PushdownAutomata.__init__] *)
Definition __init__ (name : string) : PushdownAutomata :=
  mkPushdownAutomata name ∅ [] None None (new_PDAStack "Z0") ∅ {["Z0"]} [] [].

Definition add_state (self : PushdownAutomata) (name : string)
    (state_type : StateType) (description : string) : PushdownAutomata :=
  let state := mkPDAState name state_type description in
  let initial := bool_decide (state_type = INITIAL) in
  mkPushdownAutomata (pda_name self) (<[name := state]> (states self))
    (transitions self)
    (if initial then Some state else initial_state self)
    (if initial then Some state else current_state self)
    (stack self) (input_alphabet self) (stack_alphabet self)
    (_execution_history self) (_transition_history self).

(** [add_transition]; [None] is the [KeyError] of [self.states[...]].
    [if input_symbol:] holds for a string that is not empty. *)
Definition add_transition (self : PushdownAutomata)
    (from_state to_state : string) (input_symbol stack_top : option string)
    (stack_action description : string) : option PushdownAutomata :=
  from_s ← states self !! from_state;
  to_s ← states self !! to_state;
  let transition :=
    mkPDATransition from_s to_s input_symbol stack_top stack_action
                    description in
  Some (mkPushdownAutomata (pda_name self) (states self)
          (transitions self ++ [transition])
          (initial_state self) (current_state self) (stack self)
          (match input_symbol with
           | Some s => if bool_decide (s = "") then input_alphabet self
                       else {[s]} ∪ input_alphabet self
           | None => input_alphabet self
           end)
          (stack_alphabet self) (_execution_history self)
          (_transition_history self)).

Definition reset (self : PushdownAutomata) : PushdownAutomata :=
  mkPushdownAutomata (pda_name self) (states self) (transitions self)
    (initial_state self) (initial_state self) (clear (stack self))
    (input_alphabet self) (stack_alphabet self) [] [].

Definition _execute_stack_action (self : PushdownAutomata) (action : string)
    : PushdownAutomata * bool :=
  if bool_decide (action = "none") then (self, true)
  else if builtins.startswith action "push:" then
    let symbol := builtins.slice_from 5 action in
    let self := set_stack self (push (stack self) symbol) in
    (set_stack_alphabet self ({[symbol]} ∪ stack_alphabet self), true)
  else if bool_decide (action = "pop") then
    let '(st, result) := pop (stack self) in
    (set_stack self st, bool_decide (result ≠ None))
  else if builtins.startswith action "replace:" then
    let symbol := builtins.slice_from 8 action in
    let '(st, _) := pop (stack self) in
    let self := set_stack self (push st symbol) in
    (set_stack_alphabet self ({[symbol]} ∪ stack_alphabet self), true)
  else (self, false).

(** The first transition of the list that matches, as the [for] loops of
    [_find_transition] return it. *)
Definition first_match (self : PushdownAutomata)
    (input_symbol top : option string) : option PDATransition :=
  list_find (λ t, matches t (current_state self) input_symbol top = true)
            (transitions self) ≫= λ '(_, t), Some t.

Definition _find_transition (self : PushdownAutomata)
    (input_symbol : option string) : option PDATransition :=
  let top := peek (stack self) in
  match first_match self input_symbol top with
  | Some transition => Some transition
  | None =>
      if bool_decide (input_symbol ≠ None) then first_match self None top
      else None
  end.

(** What [step] returns: [(True, None)] or [(False, error_message)]. *)
Inductive step_result := StepOk | StepFail (error : string).

Definition success (r : step_result) : bool :=
  match r with StepOk => true | StepFail _ => false end.

(** [if "q_error" in self.states: self.current_state = self.states["q_error"]] *)
Definition goto_error (self : PushdownAutomata) : PushdownAutomata :=
  match states self !! "q_error" with
  | Some e => set_current_state self (Some e)
  | None => self
  end.

(** [step]; [None] is the [AttributeError] of [self.current_state.name]
    when there is no current state. *)
Definition step (self : PushdownAutomata) (input_symbol : string)
    : option (PushdownAutomata * step_result) :=
  let config :=
    mkPDAConfiguration (current_state self) input_symbol
                       (get_contents (stack self)) in
  let self := set_execution_history self (_execution_history self ++ [config]) in
  match _find_transition self (Some input_symbol) with
  | None =>
      let self := goto_error self in
      s ← current_state self;
      Some (self,
            StepFail ("No valid transition for input '" +:+ input_symbol
                      +:+ "' in state '" +:+ name s +:+ "'"))
  | Some transition =>
      let '(self, ok) := _execute_stack_action self (stack_action transition) in
      if negb ok then
        Some (goto_error self,
              StepFail ("Stack action '" +:+ stack_action transition
                        +:+ "' failed"))
      else
        let self := set_current_state self (Some (to_state transition)) in
        Some (set_transition_history self
                (_transition_history self ++ [transition]),
              StepOk)
  end.

(** The [for symbol in input_string] loop of [process]: the automaton when
    the loop is left, and the error of the step that left it early. *)
Fixpoint process_loop (self : PushdownAutomata) (symbols : list string)
    : option (PushdownAutomata * option string) :=
  match symbols with
  | [] => Some (self, None)
  | symbol :: rest =>
      '(self, r) ← step self symbol;
      match r with
      | StepFail error => Some (self, Some error)
      | StepOk => process_loop self rest
      end
  end.

(** [process].  The loop runs over the items of [input_string]: the
    characters of a [str], the symbols of a list.  [None] is the
    [AttributeError] on a missing current state. *)
Definition process (self : PushdownAutomata) (input_string : list string)
    : option (PushdownAutomata * (bool * string * list PDAConfiguration)) :=
  '(self, early) ← process_loop (reset self) input_string;
  match early with
  | Some error => Some (self, (false, error, _execution_history self))
  | None =>
      s ← current_state self;
      if bool_decide (state_type s = ACCEPTING) then
        Some (self, (true, "Input accepted", _execution_history self))
      else if bool_decide (state_type s = ERROR) then
        Some (self, (false, "Ended in error state", _execution_history self))
      else
        Some (self, (false,
                     "Ended in non-accepting state '" +:+ name s +:+ "'",
                     _execution_history self))
  end.

Definition is_accepting (self : PushdownAutomata) : bool :=
  match current_state self with
  | Some s => bool_decide (state_type s = ACCEPTING)
  | None => false
  end.

Definition get_current_configuration (self : PushdownAutomata)
    : PDAConfiguration :=
  mkPDAConfiguration (current_state self) "" (get_contents (stack self)).

End pushdown_automata.

(** ** SoalSatu/expression_validator.py *)

Module expression_validator.
Import pushdown_automata.

Inductive NotationType := INFIX | POSTFIX | PREFIX.

(** One entry of an execution trace.  The sources render each entry with
    an f-string; an entry here keeps the values that the f-string
    interpolates. *)
Inductive TraceEntry :=
| NoTokens
| InfixStep (token token_type state_before state_after : string)
            (stack_after : list string)
| CountStep (token token_type : string) (right_to_left : bool)
            (operands : nat) (stack_after : list string).

Record ValidationResult := mkValidationResult {
  is_valid : bool;
  notation : NotationType;
  message : string;
  execution_trace : list TraceEntry;
  final_state : string }.

Module ExpressionTokenizer.

Definition OPERATORS : gset string := {["+"; "-"; "*"; "/"]}.
Definition DIGITS : gset string :=
  {["0"; "1"; "2"; "3"; "4"; "5"; "6"; "7"; "8"; "9"]}.
Definition PARENTHESES : gset string := {["("; ")"]}.

(** The loop of [tokenize_infix] over the characters that are left, and
    the flush of [current_number] after it. *)
Fixpoint tokenize_infix_go (expression : string) (tokens : list string)
    (current_number : string) : list string :=
  match expression with
  | EmptyString =>
      if bool_decide (current_number ≠ "") then tokens ++ [current_number]
      else tokens
  | String c rest =>
      let char := String c "" in
      if bool_decide (char ∈ DIGITS) then
        tokenize_infix_go rest tokens (current_number +:+ char)
      else
        let tokens :=
          if bool_decide (current_number ≠ "")
          then tokens ++ [current_number] else tokens in
        if bool_decide (char ∈ OPERATORS) then
          tokenize_infix_go rest (tokens ++ [char]) ""
        else if bool_decide (char ∈ PARENTHESES) then
          tokenize_infix_go rest (tokens ++ [char]) ""
        else if builtins.isspace char then
          tokenize_infix_go rest tokens ""
        else
          tokenize_infix_go rest (tokens ++ ["INVALID:" +:+ char]) ""
  end.

Definition tokenize_infix (expression : string) : list string :=
  tokenize_infix_go expression [] "".

(** The body of the loop of [tokenize_postfix] for one item of
    [expression.split()]: the tokens it appends. *)
Definition postfix_token (token : string) : list string :=
  let token := builtins.strip token in
  if bool_decide (token ≠ "") then
    if bool_decide (token ∈ OPERATORS) then [token]
    else if builtins.isdigit token then [token]
    else ["INVALID:" +:+ token]
  else [].

Definition tokenize_postfix (expression : string) : list string :=
  builtins.split expression ≫= postfix_token.

Definition tokenize_prefix (expression : string) : list string :=
  tokenize_postfix expression.

Definition classify_token (token : string) : string :=
  if builtins.startswith token "INVALID:" then "INVALID"
  else if bool_decide (token ∈ OPERATORS) then "OPERATOR"
  else if bool_decide (token = "(") then "LPAREN"
  else if bool_decide (token = ")") then "RPAREN"
  else if builtins.isdigit token then "OPERAND"
  else "INVALID".

End ExpressionTokenizer.

(** [class InfixValidator]; the object is its [pda]. *)
Module InfixValidator.

(** [__init__] with [_build_pda]: [None] would be a [KeyError] of
    [add_transition]. *)
Definition __init__ : option PushdownAutomata :=
  let pda := pushdown_automata.__init__ "Infix Validator PDA" in
  let pda := add_state pda "q_start" INITIAL
               "Initial state - expecting operand or '('" in
  let pda := add_state pda "q_expect_operand" NORMAL
               "Expecting an operand (number) or '('" in
  let pda := add_state pda "q_expect_operator" NORMAL
               "Expecting an operator or ')' or end" in
  let pda := add_state pda "q_accept" ACCEPTING "Expression accepted" in
  let pda := add_state pda "q_error" ERROR "Invalid expression" in
  pda ← add_transition pda "q_start" "q_expect_operator"
           (Some "OPERAND") None "none"
           "Read operand, expect operator next";
  pda ← add_transition pda "q_start" "q_expect_operand"
           (Some "LPAREN") None "push:("
           "Read '(', push to stack, expect operand";
  pda ← add_transition pda "q_expect_operand" "q_expect_operator"
           (Some "OPERAND") None "none"
           "Read operand, expect operator next";
  pda ← add_transition pda "q_expect_operand" "q_expect_operand"
           (Some "LPAREN") None "push:("
           "Read '(', push to stack, still expect operand";
  pda ← add_transition pda "q_expect_operator" "q_expect_operand"
           (Some "OPERATOR") None "none"
           "Read operator, expect operand next";
  add_transition pda "q_expect_operator" "q_expect_operator"
           (Some "RPAREN") (Some "(") "pop"
           "Read ')', pop matching '(' from stack".

(** The code of [validate] after the loop. *)
Definition final_check (pda : PushdownAutomata)
    (execution_trace : list TraceEntry)
    : option (PushdownAutomata * ValidationResult) :=
  s ← current_state pda;
  let final_state := name s in
  let stack_empty := is_empty (stack pda) in
  if bool_decide (final_state = "q_expect_operator") && stack_empty then
    Some (pda, mkValidationResult true INFIX "Valid infix expression"
                 execution_trace final_state)
  else if negb stack_empty then
    Some (pda, mkValidationResult false INFIX
                 "Unmatched opening parenthesis"
                 execution_trace final_state)
  else
    Some (pda, mkValidationResult false INFIX
                 ("Expression incomplete - ended in state " +:+ final_state)
                 execution_trace final_state).

(** [for token in tokens] with its early returns, then the final check.
    [None] is an [AttributeError] on a missing current state. *)
Fixpoint validate_loop (pda : PushdownAutomata) (tokens : list string)
    (execution_trace : list TraceEntry)
    : option (PushdownAutomata * ValidationResult) :=
  match tokens with
  | [] => final_check pda execution_trace
  | token :: rest =>
      let token_type := ExpressionTokenizer.classify_token token in
      if bool_decide (token_type = "INVALID") then
        Some (pda, mkValidationResult false INFIX
                     ("Invalid token: " +:+ token) execution_trace "q_error")
      else
        let config_before := get_current_configuration pda in
        '(pda, r) ← step pda token_type;
        before ← state config_before;
        after ← current_state pda;
        let trace_entry :=
          InfixStep token token_type (name before) (name after)
                    (get_contents (stack pda)) in
        let execution_trace := execution_trace ++ [trace_entry] in
        match r with
        | StepFail error =>
            Some (pda, mkValidationResult false INFIX error
                         execution_trace (name after))
        | StepOk => validate_loop pda rest execution_trace
        end
  end.

Definition validate (pda : PushdownAutomata) (expression : string)
    : option (PushdownAutomata * ValidationResult) :=
  let pda := reset pda in
  let tokens := ExpressionTokenizer.tokenize_infix expression in
  if bool_decide (tokens = []) then
    Some (pda, mkValidationResult false INFIX "Empty expression"
                 [NoTokens] "q_error")
  else validate_loop pda tokens [].

End InfixValidator.

(** [class PostfixValidator]; the object is its [pda]. *)
Module PostfixValidator.

Definition __init__ : option PushdownAutomata :=
  let pda := pushdown_automata.__init__ "Postfix Validator PDA" in
  let pda := add_state pda "q_start" INITIAL
               "Initial state - expecting first token" in
  let pda := add_state pda "q_processing" NORMAL "Processing tokens" in
  let pda := add_state pda "q_accept" ACCEPTING "Expression accepted" in
  let pda := add_state pda "q_error" ERROR "Invalid expression" in
  pda ← add_transition pda "q_start" "q_processing"
           (Some "OPERAND") None "push:X"
           "Read first operand, push marker";
  add_transition pda "q_processing" "q_processing"
           (Some "OPERAND") None "push:X" "Read operand, push marker".

(** The code of [validate] after the loop. *)
Definition final_check (pda : PushdownAutomata) (operand_count : nat)
    (execution_trace : list TraceEntry)
    : PushdownAutomata * ValidationResult :=
  if bool_decide (operand_count = 1) then
    (pda, mkValidationResult true POSTFIX "Valid postfix expression"
            execution_trace "q_accept")
  else if bool_decide (1 < operand_count) then
    (pda, mkValidationResult false POSTFIX
            ("Too many operands (" +:+ pretty operand_count
             +:+ ") - missing operators")
            execution_trace "q_error")
  else
    (pda, mkValidationResult false POSTFIX
            "No result - expression is incomplete"
            execution_trace "q_error").

(** [for i, token in enumerate(tokens)] with its early returns, then the
    final check.  [state_before], the only use of [i], is assigned and
    never read. *)
Fixpoint validate_loop (pda : PushdownAutomata) (tokens : list string)
    (operand_count : nat) (execution_trace : list TraceEntry)
    : PushdownAutomata * ValidationResult :=
  match tokens with
  | [] => final_check pda operand_count execution_trace
  | token :: rest =>
      let token_type := ExpressionTokenizer.classify_token token in
      if bool_decide (token_type = "INVALID") then
        (pda, mkValidationResult false POSTFIX
                ("Invalid token: " +:+ token) execution_trace "q_error")
      else if bool_decide (token_type = "LPAREN")
              || bool_decide (token_type = "RPAREN") then
        (pda, mkValidationResult false POSTFIX
                "Parentheses not allowed in postfix notation"
                execution_trace "q_error")
      else if bool_decide (token_type = "OPERAND") then
        let operand_count := operand_count + 1 in
        let pda := set_stack pda (push (stack pda) "X") in
        let trace_entry :=
          CountStep token "OPERAND" false operand_count
                    (get_contents (stack pda)) in
        validate_loop pda rest operand_count (execution_trace ++ [trace_entry])
      else if bool_decide (operand_count < 2) then
        (pda, mkValidationResult false POSTFIX
                ("Not enough operands for operator '" +:+ token +:+ "'")
                execution_trace "q_error")
      else
        let operand_count := operand_count - 1 in
        let pda := set_stack pda (pop (stack pda)).1 in
        let trace_entry :=
          CountStep token "OPERATOR" false operand_count
                    (get_contents (stack pda)) in
        validate_loop pda rest operand_count (execution_trace ++ [trace_entry])
  end.

(** [validate] from the emptiness check on, for the tokens at hand. *)
Definition validate_tokens (pda : PushdownAutomata) (tokens : list string)
    : PushdownAutomata * ValidationResult :=
  if bool_decide (tokens = []) then
    (pda, mkValidationResult false POSTFIX "Empty expression"
            [NoTokens] "q_error")
  else validate_loop pda tokens 0 [].

Definition validate (pda : PushdownAutomata) (expression : string)
    : PushdownAutomata * ValidationResult :=
  validate_tokens (reset pda)
                  (ExpressionTokenizer.tokenize_postfix expression).

End PostfixValidator.

(** [class PrefixValidator]; the object is its [pda]. *)
Module PrefixValidator.

Definition __init__ : PushdownAutomata :=
  let pda := pushdown_automata.__init__ "Prefix Validator PDA" in
  let pda := add_state pda "q_start" INITIAL
               "Initial state - process from right" in
  let pda := add_state pda "q_processing" NORMAL
               "Processing tokens right-to-left" in
  let pda := add_state pda "q_accept" ACCEPTING "Expression accepted" in
  add_state pda "q_error" ERROR "Invalid expression".

Definition final_check (pda : PushdownAutomata) (operand_count : nat)
    (execution_trace : list TraceEntry)
    : PushdownAutomata * ValidationResult :=
  if bool_decide (operand_count = 1) then
    (pda, mkValidationResult true PREFIX "Valid prefix expression"
            execution_trace "q_accept")
  else if bool_decide (1 < operand_count) then
    (pda, mkValidationResult false PREFIX
            ("Too many operands (" +:+ pretty operand_count
             +:+ ") - missing operators")
            execution_trace "q_error")
  else
    (pda, mkValidationResult false PREFIX
            "No result - expression is incomplete"
            execution_trace "q_error").

(** The loop over the reversed tokens, then the final check. *)
Fixpoint validate_loop (pda : PushdownAutomata) (tokens : list string)
    (operand_count : nat) (execution_trace : list TraceEntry)
    : PushdownAutomata * ValidationResult :=
  match tokens with
  | [] => final_check pda operand_count execution_trace
  | token :: rest =>
      let token_type := ExpressionTokenizer.classify_token token in
      if bool_decide (token_type = "INVALID") then
        (pda, mkValidationResult false PREFIX
                ("Invalid token: " +:+ token) execution_trace "q_error")
      else if bool_decide (token_type = "LPAREN")
              || bool_decide (token_type = "RPAREN") then
        (pda, mkValidationResult false PREFIX
                "Parentheses not allowed in prefix notation"
                execution_trace "q_error")
      else if bool_decide (token_type = "OPERAND") then
        let operand_count := operand_count + 1 in
        let pda := set_stack pda (push (stack pda) "X") in
        let trace_entry :=
          CountStep token "OPERAND" true operand_count
                    (get_contents (stack pda)) in
        validate_loop pda rest operand_count (execution_trace ++ [trace_entry])
      else if bool_decide (operand_count < 2) then
        (pda, mkValidationResult false PREFIX
                ("Not enough operands for operator '" +:+ token +:+ "'")
                execution_trace "q_error")
      else
        let operand_count := operand_count - 1 in
        let pda := set_stack pda (pop (stack pda)).1 in
        let trace_entry :=
          CountStep token "OPERATOR" true operand_count
                    (get_contents (stack pda)) in
        validate_loop pda rest operand_count (execution_trace ++ [trace_entry])
  end.

Definition validate (pda : PushdownAutomata) (expression : string)
    : PushdownAutomata * ValidationResult :=
  let pda := reset pda in
  let tokens := ExpressionTokenizer.tokenize_prefix expression in
  if bool_decide (tokens = []) then
    (pda, mkValidationResult false PREFIX "Empty expression"
            [NoTokens] "q_error")
  else validate_loop pda (reverse tokens) 0 [].

End PrefixValidator.

(** [class ExpressionValidator]: the three validators.  [NotationType] has
    three members, so [validate] never reaches its last branch, the result
    for an unknown notation. *)
Module ExpressionValidator.

Record ExpressionValidator := mkExpressionValidator {
  infix_validator : PushdownAutomata;
  postfix_validator : PushdownAutomata;
  prefix_validator : PushdownAutomata }.

Definition __init__ : option ExpressionValidator :=
  infix_validator ← InfixValidator.__init__;
  postfix_validator ← PostfixValidator.__init__;
  Some (mkExpressionValidator infix_validator postfix_validator
          PrefixValidator.__init__).

Definition validate (self : ExpressionValidator) (expression : string)
    (notation : NotationType)
    : option (ExpressionValidator * ValidationResult) :=
  match notation with
  | INFIX =>
      '(pda, r) ← InfixValidator.validate (infix_validator self) expression;
      Some (mkExpressionValidator pda (postfix_validator self)
              (prefix_validator self), r)
  | POSTFIX =>
      let '(pda, r) :=
        PostfixValidator.validate (postfix_validator self) expression in
      Some (mkExpressionValidator (infix_validator self) pda
              (prefix_validator self), r)
  | PREFIX =>
      let '(pda, r) :=
        PrefixValidator.validate (prefix_validator self) expression in
      Some (mkExpressionValidator (infix_validator self)
              (postfix_validator self) pda, r)
  end.

(** [validate_all]: the dictionary, as the list of its items in the order
    of insertion. *)
Definition validate_all (self : ExpressionValidator) (expression : string)
    : option (ExpressionValidator
              * list (NotationType * ValidationResult)) :=
  '(self, infix_result) ← validate self expression INFIX;
  '(self, postfix_result) ← validate self expression POSTFIX;
  '(self, prefix_result) ← validate self expression PREFIX;
  Some (self, [(INFIX, infix_result); (POSTFIX, postfix_result);
               (PREFIX, prefix_result)]).

End ExpressionValidator.

(** The convenience functions: each builds its validator anew. *)
Definition validate_infix (expression : string) : option ValidationResult :=
  pda ← InfixValidator.__init__;
  '(_, r) ← InfixValidator.validate pda expression;
  Some r.

Definition validate_postfix (expression : string) : option ValidationResult :=
  pda ← PostfixValidator.__init__;
  Some (PostfixValidator.validate pda expression).2.

Definition validate_prefix (expression : string) : ValidationResult :=
  (PrefixValidator.validate PrefixValidator.__init__ expression).2.

End expression_validator.

(** ** SoalSatu/expression_converter.py *)

Module expression_converter.
Import expression_validator.

(** One entry of [steps]: the values that the f-string of the entry
    interpolates; [TextStep] is an entry that is a plain string. *)
Inductive ConversionStep :=
| TextStep (text : string)
| InputTokens (tokens : list string)
| ShuntStep (token : string) (output operator_stack : list string)
| FinalResult (result : string)
| ReversedTokens (tokens : list string)
| SwappedParentheses (tokens : list string)
| AfterShuntingYard (output : list string)
| InputTokensReversed (tokens : list string)
| PushOperand (token : string) (stack : list string)
| ApplyOperator (token operand1 operand2 result_expr : string)
                (stack : list string).

Record ConversionResult := mkConversionResult {
  success : bool;
  source_notation : NotationType;
  target_notation : NotationType;
  source_expression : string;
  result_expression : string;
  steps : list ConversionStep;
  error_message : string }.

Module ExpressionConverter.

Definition PRECEDENCE : gmap string nat :=
  <["+" := 1]> (<["-" := 1]> (<["*" := 2]> (<["/" := 2]> ∅))).

Definition LEFT_ASSOCIATIVE : gmap string bool :=
  <["+" := true]> (<["-" := true]> (<["*" := true]> (<["/" := true]> ∅))).

Definition _get_precedence (operator : string) : nat :=
  default 0 (PRECEDENCE !! operator).

Definition _is_left_associative (operator : string) : bool :=
  default true (LEFT_ASSOCIATIVE !! operator).

Definition _is_operator (token : string) : bool :=
  bool_decide (is_Some (PRECEDENCE !! token)).

Definition _is_operand (token : string) : bool := builtins.isdigit token.

(** A [while] loop that moves operators from the top of the operator
    stack to the output as long as [keep_popping] holds of the top.  The
    loop sees the stack from its top: [from_top] is the stack reversed.
    It returns the output and what is left of the stack, top first. *)
Fixpoint pop_while (keep_popping : string → bool)
    (output from_top : list string) : list string * list string :=
  match from_top with
  | [] => (output, [])
  | top :: below =>
      if keep_popping top then pop_while keep_popping (output ++ [top]) below
      else (output, from_top)
  end.

(** The condition of the loop for an operator in [infix_to_postfix]. *)
Definition yields_to (token top : string) : bool :=
  bool_decide (top ≠ "(") && _is_operator top
  && (bool_decide (_get_precedence token < _get_precedence top)
      || (bool_decide (_get_precedence top = _get_precedence token)
          && _is_left_associative token)).

(** The condition of the loop for an operator in [infix_to_prefix]. *)
Definition yields_to_strict (token top : string) : bool :=
  bool_decide (top ≠ "(") && _is_operator top
  && bool_decide (_get_precedence token < _get_precedence top).

(** The body of the token loop of the Shunting-yard algorithm: the
    output and the operator stack after [token].  [yield] is the
    condition of the loop for an operator. *)
Definition shunt_token (yield : string → string → bool) (token : string)
    (output operator_stack : list string) : list string * list string :=
  if _is_operand token then (output ++ [token], operator_stack)
  else if _is_operator token then
    let '(output, from_top) :=
      pop_while (yield token) output (reverse operator_stack) in
    (output, reverse from_top ++ [token])
  else if bool_decide (token = "(") then (output, operator_stack ++ [token])
  else if bool_decide (token = ")") then
    let '(output, from_top) :=
      pop_while (λ top, bool_decide (top ≠ "(")) output
                (reverse operator_stack) in
    (output, reverse (tail from_top))
  else (output, operator_stack).

(** The token loop of [infix_to_postfix] with its trace, then the loop
    that pops the remaining operators. *)
Fixpoint shunt_loop (tokens output operator_stack : list string)
    (steps : list ConversionStep)
    : list string * list ConversionStep :=
  match tokens with
  | [] => (output ++ reverse operator_stack, steps)
  | token :: rest =>
      let '(output', operator_stack') :=
        shunt_token yields_to token output operator_stack in
      let steps :=
        if _is_operand token || _is_operator token
           || bool_decide (token = "(") || bool_decide (token = ")")
        then steps ++ [ShuntStep token output' operator_stack']
        else steps in
      shunt_loop rest output' operator_stack' steps
  end.

Definition infix_to_postfix (expression : string)
    : option ConversionResult :=
  validation ← validate_infix expression;
  if negb (is_valid validation) then
    Some (mkConversionResult false INFIX POSTFIX expression ""
            [TextStep ("Validation failed: " +:+ message validation)]
            (message validation))
  else
    let tokens := ExpressionTokenizer.tokenize_infix expression in
    let '(output, steps) := shunt_loop tokens [] [] [InputTokens tokens] in
    let result := builtins.join " " output in
    Some (mkConversionResult true INFIX POSTFIX expression result
            (steps ++ [FinalResult result]) "").

(** The token loop of [infix_to_prefix], which keeps no trace. *)
Fixpoint shunt_loop_prefix (tokens output operator_stack : list string)
    : list string :=
  match tokens with
  | [] => output ++ reverse operator_stack
  | token :: rest =>
      let '(output, operator_stack) :=
        shunt_token yields_to_strict token output operator_stack in
      shunt_loop_prefix rest output operator_stack
  end.

Definition swap_parenthesis (token : string) : string :=
  if bool_decide (token = "(") then ")"
  else if bool_decide (token = ")") then "("
  else token.

Definition infix_to_prefix (expression : string)
    : option ConversionResult :=
  validation ← validate_infix expression;
  if negb (is_valid validation) then
    Some (mkConversionResult false INFIX PREFIX expression ""
            [TextStep ("Validation failed: " +:+ message validation)]
            (message validation))
  else
    let tokens := ExpressionTokenizer.tokenize_infix expression in
    let reversed_tokens := reverse tokens in
    let swapped_tokens := swap_parenthesis <$> reversed_tokens in
    let output := shunt_loop_prefix swapped_tokens [] [] in
    let result_tokens := reverse output in
    let result := builtins.join " " result_tokens in
    Some (mkConversionResult true INFIX PREFIX expression result
            [InputTokens tokens; ReversedTokens reversed_tokens;
             SwappedParentheses swapped_tokens; AfterShuntingYard output;
             FinalResult result] "").

(** The token loop of [postfix_to_infix]: the value stack and the trace
    at the end, or the trace at the early return. *)
Fixpoint build_infix_loop (tokens stack : list string)
    (steps : list ConversionStep)
    : (list string * list ConversionStep) + list ConversionStep :=
  match tokens with
  | [] => inl (stack, steps)
  | token :: rest =>
      if _is_operand token then
        let stack := stack ++ [token] in
        build_infix_loop rest stack (steps ++ [PushOperand token stack])
      else if _is_operator token then
        if bool_decide (length stack < 2) then inr steps
        else
          match last stack, last (removelast stack) with
          | Some operand2, Some operand1 =>
              let result_expr :=
                "(" +:+ operand1 +:+ token +:+ operand2 +:+ ")" in
              let stack := removelast (removelast stack) ++ [result_expr] in
              build_infix_loop rest stack
                (steps ++ [ApplyOperator token operand1 operand2
                                         result_expr stack])
          | _, _ => inr steps
          end
      else build_infix_loop rest stack steps
  end.

Definition postfix_to_infix (expression : string)
    : option ConversionResult :=
  validation ← validate_postfix expression;
  if negb (is_valid validation) then
    Some (mkConversionResult false POSTFIX INFIX expression ""
            [TextStep ("Validation failed: " +:+ message validation)]
            (message validation))
  else
    let tokens := ExpressionTokenizer.tokenize_postfix expression in
    match build_infix_loop tokens [] [InputTokens tokens] with
    | inr steps =>
        Some (mkConversionResult false POSTFIX INFIX expression "" steps
                "Not enough operands for operator")
    | inl (stack, steps) =>
        match stack with
        | [result] =>
            Some (mkConversionResult true POSTFIX INFIX expression result
                    (steps ++ [FinalResult result]) "")
        | _ =>
            Some (mkConversionResult false POSTFIX INFIX expression ""
                    steps
                    "Invalid expression - stack should have exactly one element")
        end
    end.

(** The token loop of [prefix_to_infix], over the reversed tokens: the
    operand popped first is the left one. *)
Fixpoint build_infix_loop_prefix (tokens stack : list string)
    (steps : list ConversionStep)
    : (list string * list ConversionStep) + list ConversionStep :=
  match tokens with
  | [] => inl (stack, steps)
  | token :: rest =>
      if _is_operand token then
        let stack := stack ++ [token] in
        build_infix_loop_prefix rest stack
          (steps ++ [PushOperand token stack])
      else if _is_operator token then
        if bool_decide (length stack < 2) then inr steps
        else
          match last stack, last (removelast stack) with
          | Some operand1, Some operand2 =>
              let result_expr :=
                "(" +:+ operand1 +:+ token +:+ operand2 +:+ ")" in
              let stack := removelast (removelast stack) ++ [result_expr] in
              build_infix_loop_prefix rest stack
                (steps ++ [ApplyOperator token operand1 operand2
                                         result_expr stack])
          | _, _ => inr steps
          end
      else build_infix_loop_prefix rest stack steps
  end.

Definition prefix_to_infix (expression : string) : ConversionResult :=
  let validation := validate_prefix expression in
  if negb (is_valid validation) then
    mkConversionResult false PREFIX INFIX expression ""
      [TextStep ("Validation failed: " +:+ message validation)]
      (message validation)
  else
    let tokens := reverse (ExpressionTokenizer.tokenize_prefix expression) in
    match build_infix_loop_prefix tokens [] [InputTokensReversed tokens] with
    | inr steps =>
        mkConversionResult false PREFIX INFIX expression "" steps
          "Not enough operands for operator"
    | inl (stack, steps) =>
        match stack with
        | [result] =>
            mkConversionResult true PREFIX INFIX expression result
              (steps ++ [FinalResult result]) ""
        | _ =>
            mkConversionResult false PREFIX INFIX expression "" steps
              "Invalid expression - stack should have exactly one element"
        end
    end.

(** [postfix_to_prefix] and [prefix_to_postfix] go through the infix
    form; the trace is the two traces with a separator between them. *)
Definition postfix_to_prefix (expression : string)
    : option ConversionResult :=
  infix_result ← postfix_to_infix expression;
  if negb (success infix_result) then
    Some (mkConversionResult false POSTFIX PREFIX expression ""
            (steps infix_result) (error_message infix_result))
  else
    prefix_result ← infix_to_prefix (result_expression infix_result);
    let combined_steps :=
      steps infix_result ++ [TextStep "--- Converting Infix to Prefix ---"]
      ++ steps prefix_result in
    Some (mkConversionResult (success prefix_result) POSTFIX PREFIX
            expression (result_expression prefix_result) combined_steps
            (error_message prefix_result)).

Definition prefix_to_postfix (expression : string)
    : option ConversionResult :=
  let infix_result := prefix_to_infix expression in
  if negb (success infix_result) then
    Some (mkConversionResult false PREFIX POSTFIX expression ""
            (steps infix_result) (error_message infix_result))
  else
    postfix_result ← infix_to_postfix (result_expression infix_result);
    let combined_steps :=
      steps infix_result ++ [TextStep "--- Converting Infix to Postfix ---"]
      ++ steps postfix_result in
    Some (mkConversionResult (success postfix_result) PREFIX POSTFIX
            expression (result_expression postfix_result) combined_steps
            (error_message postfix_result)).

End ExpressionConverter.

(** The convenience functions: the result expression, or the empty string
    on failure. *)
Definition infix_to_postfix (expression : string) : option string :=
  result ← ExpressionConverter.infix_to_postfix expression;
  Some (if success result then result_expression result else "").

Definition infix_to_prefix (expression : string) : option string :=
  result ← ExpressionConverter.infix_to_prefix expression;
  Some (if success result then result_expression result else "").

Definition postfix_to_infix (expression : string) : option string :=
  result ← ExpressionConverter.postfix_to_infix expression;
  Some (if success result then result_expression result else "").

Definition prefix_to_infix (expression : string) : string :=
  let result := ExpressionConverter.prefix_to_infix expression in
  if success result then result_expression result else "".

Definition postfix_to_prefix (expression : string) : option string :=
  result ← ExpressionConverter.postfix_to_prefix expression;
  Some (if success result then result_expression result else "").

Definition prefix_to_postfix (expression : string) : option string :=
  result ← ExpressionConverter.prefix_to_postfix expression;
  Some (if success result then result_expression result else "").

End expression_converter.

(** * Notions used to state the properties *)

(** ** Of the trie matcher *)

Module matcher_notions.
Import state_machine.

(** The accept flag and the label of the node at the path [p] below [n]. *)
Definition flags_at (n : StateNode) (p : ref) : option (bool * option string) :=
  (λ m, (is_accept m, combo_name m)) <$> node_at n p.

(** What inserting one combo does to the flags at the path [p]: the end of
    the sequence is marked, a proper prefix of it exists afterwards with the
    flags it had (or those of a new node), every other path is untouched. *)
Definition mark_step (p : ref) (f : option (bool * option string))
    (combo : list string * string) : option (bool * option string) :=
  if decide (p = combo.1) then Some (true, Some combo.2)
  else if decide (p `prefix_of` combo.1) then Some (default (false, None) f)
  else f.

(** Two patterns, the first a strict prefix of the second. *)
Definition combos_ab : list (list string * string) :=
  [(["a"], "A"); (["a"; "b"], "B")].

(** The cursor and the consumed history name the same node, and that node
    exists. *)
Definition on_path (self : ComboStateMachine) : Prop :=
  current_state self = input_history self
  ∧ is_Some (node_at (root self) (input_history self)).

(** The matcher built from [combos] after the inputs [symbols]. *)
Definition after_inputs (combos : list (list string * string))
    (symbols : list string) : ComboStateMachine :=
  (feed (fresh combos) symbols).1.

End matcher_notions.

(** ** Of the automaton, the validators and the converter *)

Module automata_notions.
Import pushdown_automata expression_validator.
Import ExpressionTokenizer.

(** The automaton after [symbols] when every step succeeds. *)
Fixpoint run (self : PushdownAutomata) (symbols : list string)
    : option PushdownAutomata :=
  match symbols with
  | [] => Some self
  | symbol :: rest =>
      match step self symbol with
      | Some (self1, StepOk) => run self1 rest
      | _ => None
      end
  end.

(** The operations on the stack of an automaton: the three methods of
    [PDAStack] that change it, and the [replace:X] stack action. *)
Inductive StackOp :=
| OpPush (symbol : string)
| OpPop
| OpReplace (symbol : string)
| OpClear.

(** The stack after one operation; [replace] pops, then pushes, as
    [_execute_stack_action] does. *)
Definition apply_op (s : PDAStack) (op : StackOp) : PDAStack :=
  match op with
  | OpPush x => push s x
  | OpPop => (pop s).1
  | OpReplace x => push (pop s).1 x
  | OpClear => clear s
  end.

(** The bottom marker is in place. *)
Definition sentinel_kept (s : PDAStack) : Prop :=
  ∃ above, _stack s = _initial_symbol s :: above.

(** The one transition of [replace_pda]. *)
Definition replace_transition : PDATransition :=
  mkPDATransition (mkPDAState "q0" INITIAL "") (mkPDAState "q0" INITIAL "")
                  (Some "a") None "replace:X" "".

(** An automaton with the states [q0] and [q_error] and one [replace:X]
    transition, on [a] from [q0] to [q0].  [add_transition] finds both
    states: the automaton is its result. *)
Definition replace_pda : PushdownAutomata :=
  let pda := pushdown_automata.__init__ "replace" in
  let pda := add_state pda "q0" INITIAL "" in
  let pda := add_state pda "q_error" ERROR "" in
  default pda (add_transition pda "q0" "q0" (Some "a") None "replace:X" "").

(** An automaton that passes through its accepting state: [a] leads from
    [q0] to [q_acc] and [b] leads back. *)
Definition pass_through_pda : PushdownAutomata :=
  let pda := pushdown_automata.__init__ "pass through" in
  let pda := add_state pda "q0" INITIAL "" in
  let pda := add_state pda "q_acc" ACCEPTING "" in
  default pda
    (pda ← add_transition pda "q0" "q_acc" (Some "a") None "none" "";
     add_transition pda "q_acc" "q0" (Some "b") None "none" "").

(** The operand counter in the words of the specification: an operand adds
    one; an operator needs a counter of at least 2 and takes one away.  The
    result is the counter at the end of the tokens, or the operator that
    found too few operands. *)
Fixpoint count_operands (tokens : list string) (counter : nat) : nat + string :=
  match tokens with
  | [] => inl counter
  | token :: rest =>
      if bool_decide (classify_token token = "OPERAND") then
        count_operands rest (counter + 1)
      else if bool_decide (counter < 2) then inr token
      else count_operands rest (counter - 1)
  end.

(** The kinds of token that the postfix and prefix validators count. *)
Definition countable_token (token : string) : Prop :=
  classify_token token = "OPERAND" ∨ classify_token token = "OPERATOR".

(** The states and the transitions that [InfixValidator._build_pda]
    declares. *)
Definition q_start : PDAState :=
  mkPDAState "q_start" INITIAL "Initial state - expecting operand or '('".

Definition q_expect_operand : PDAState :=
  mkPDAState "q_expect_operand" NORMAL "Expecting an operand (number) or '('".

Definition q_expect_operator : PDAState :=
  mkPDAState "q_expect_operator" NORMAL "Expecting an operator or ')' or end".

Definition q_error : PDAState :=
  mkPDAState "q_error" ERROR "Invalid expression".

Definition infix_transitions : list PDATransition :=
  [ mkPDATransition q_start q_expect_operator (Some "OPERAND") None "none"
      "Read operand, expect operator next";
    mkPDATransition q_start q_expect_operand (Some "LPAREN") None "push:("
      "Read '(', push to stack, expect operand";
    mkPDATransition q_expect_operand q_expect_operator (Some "OPERAND") None
      "none" "Read operand, expect operator next";
    mkPDATransition q_expect_operand q_expect_operand (Some "LPAREN") None
      "push:(" "Read '(', push to stack, still expect operand";
    mkPDATransition q_expect_operator q_expect_operand (Some "OPERATOR") None
      "none" "Read operator, expect operand next";
    mkPDATransition q_expect_operator q_expect_operator (Some "RPAREN")
      (Some "(") "pop" "Read ')', pop matching '(' from stack" ].

(** The expression that a valid postfix token sequence denotes. *)
Inductive expr :=
| Num (digit : string)
| Bin (operator : string) (left right : expr).

(** The operands are single digits and the operators are operators. *)
Fixpoint well_formed (e : expr) : Prop :=
  match e with
  | Num d => d ∈ DIGITS
  | Bin op l r => op ∈ OPERATORS ∧ well_formed l ∧ well_formed r
  end.

(** The postfix form, as tokens. *)
Fixpoint postfix_tokens (e : expr) : list string :=
  match e with
  | Num d => [d]
  | Bin op l r => postfix_tokens l ++ postfix_tokens r ++ [op]
  end.

(** The fully parenthesized infix form, as tokens. *)
Fixpoint infix_tokens (e : expr) : list string :=
  match e with
  | Num d => [d]
  | Bin op l r => ["("] ++ infix_tokens l ++ [op] ++ infix_tokens r ++ [")"]
  end.

(** [postfix_to_infix] writes an operator application as [(left op right)]. *)
Fixpoint infix_string (e : expr) : string :=
  match e with
  | Num d => d
  | Bin op l r => "(" +:+ infix_string l +:+ op +:+ infix_string r +:+ ")"
  end.

(** The text that is left starts with no digit: a number being read ends
    here. *)
Definition no_digit_head (rest : string) : Prop :=
  match rest with
  | EmptyString => True
  | String c _ => String c "" ∉ DIGITS
  end.

(** The infix automaton in state [q] with the stack contents [st]. *)
Definition infix_at (pda : PushdownAutomata) (q : PDAState)
    (st : list string) : Prop :=
  transitions pda = infix_transitions
  ∧ states pda !! "q_error" = Some q_error
  ∧ current_state pda = Some q
  ∧ _stack (stack pda) = st.

End automata_notions.

Module precedence_grammar.
Import expression_validator expression_converter.
Import ExpressionTokenizer ExpressionConverter.

(** Infix expressions by level of precedence: a sum is a chain of terms
    joined by [+] and [-], a term is a chain of atoms joined by [*] and
    [/], both grouped from the left, and an atom is a number or a sum in
    parentheses. *)
Inductive atom :=
| Operand (number : string)
| Group (e : sum_of_terms)
with term :=
| Atom (a : atom)
| Product (t : term) (operator : string) (a : atom)
with sum_of_terms :=
| Term (t : term)
| Sum (e : sum_of_terms) (operator : string) (t : term).

Definition additive (operator : string) : Prop :=
  operator = "+" ∨ operator = "-".

Definition multiplicative (operator : string) : Prop :=
  operator = "*" ∨ operator = "/".

Fixpoint atom_ok (a : atom) : Prop :=
  match a with
  | Operand number => builtins.isdigit number = true
  | Group e => sum_ok e
  end
with term_ok (t : term) : Prop :=
  match t with
  | Atom a => atom_ok a
  | Product t op a => term_ok t ∧ multiplicative op ∧ atom_ok a
  end
with sum_ok (e : sum_of_terms) : Prop :=
  match e with
  | Term t => term_ok t
  | Sum e op t => sum_ok e ∧ additive op ∧ term_ok t
  end.

(** The infix tokens, with the parentheses of the groups only. *)
Fixpoint atom_tokens (a : atom) : list string :=
  match a with
  | Operand number => [number]
  | Group e => ["("] ++ sum_tokens e ++ [")"]
  end
with term_tokens (t : term) : list string :=
  match t with
  | Atom a => atom_tokens a
  | Product t op a => term_tokens t ++ [op] ++ atom_tokens a
  end
with sum_tokens (e : sum_of_terms) : list string :=
  match e with
  | Term t => term_tokens t
  | Sum e op t => sum_tokens e ++ [op] ++ term_tokens t
  end.

(** The postfix tokens: the operands of an operator, then the operator. *)
Fixpoint atom_postfix (a : atom) : list string :=
  match a with
  | Operand number => [number]
  | Group e => sum_postfix e
  end
with term_postfix (t : term) : list string :=
  match t with
  | Atom a => atom_postfix a
  | Product t op a => term_postfix t ++ atom_postfix a ++ [op]
  end
with sum_postfix (e : sum_of_terms) : list string :=
  match e with
  | Term t => term_postfix t
  | Sum e op t => sum_postfix e ++ term_postfix t ++ [op]
  end.

(** The prefix tokens: the operator, then its operands. *)
Fixpoint atom_prefix (a : atom) : list string :=
  match a with
  | Operand number => [number]
  | Group e => sum_prefix e
  end
with term_prefix (t : term) : list string :=
  match t with
  | Atom a => atom_prefix a
  | Product t op a => [op] ++ term_prefix t ++ atom_prefix a
  end
with sum_prefix (e : sum_of_terms) : list string :=
  match e with
  | Term t => term_prefix t
  | Sum e op t => [op] ++ sum_prefix e ++ term_prefix t
  end.

Scheme atom_ind' := Induction for atom Sort Prop
with term_ind' := Induction for term Sort Prop
with sum_ind' := Induction for sum_of_terms Sort Prop.
Combined Scheme grammar_ind from atom_ind', term_ind', sum_ind'.

(** The operator stack ends in no multiplicative operator. *)
Definition term_level (ops : list string) : Prop :=
  ∀ top, last ops = Some top → ¬ multiplicative top.

(** The operator stack is empty or ends in an opening parenthesis. *)
Definition sum_level (ops : list string) : Prop :=
  ∀ top, last ops = Some top → top = "(".

(** The pending operators of a term and of a sum. *)
Definition term_pending (pending : list string) : Prop :=
  pending = [] ∨ ∃ op, multiplicative op ∧ pending = [op].

Definition sum_pending (pending : list string) : Prop :=
  Forall (λ op, additive op ∨ multiplicative op) pending.

(** The tokens that the loop of [infix_to_prefix] reads: reversed, and
    with the parentheses swapped. *)
Definition mirror (tokens : list string) : list string :=
  swap_parenthesis <$> reverse tokens.

End precedence_grammar.

Module tree_notions.
Import expression_validator expression_converter automata_notions.
Import ExpressionTokenizer ExpressionConverter precedence_grammar.

(** A token of the decimal digits [0] to [9], at least one. *)
Definition decimal (token : string) : bool :=
  bool_decide (token ≠ "")
  && builtins.all_chars (λ c, bool_decide (String c "" ∈ DIGITS)) token.

(** The operands are numbers for [str.isdigit] and the operators are
    operators. *)
Fixpoint tree_ok (e : expr) : Prop :=
  match e with
  | Num d => builtins.isdigit d = true
  | Bin op l r => op ∈ OPERATORS ∧ tree_ok l ∧ tree_ok r
  end.

(** The operands are decimal numbers. *)
Fixpoint decimal_operands (e : expr) : Prop :=
  match e with
  | Num d => decimal d = true
  | Bin op l r => op ∈ OPERATORS ∧ decimal_operands l ∧ decimal_operands r
  end.

(** The prefix form, as tokens. *)
Fixpoint prefix_tokens (e : expr) : list string :=
  match e with
  | Num d => [d]
  | Bin op l r => [op] ++ prefix_tokens l ++ prefix_tokens r
  end.

(** A fully parenthesized expression as an atom of the grammar. *)
Fixpoint to_atom (e : expr) : atom :=
  match e with
  | Num d => Operand d
  | Bin op l r =>
      if bool_decide (op = "*" ∨ op = "/") then
        Group (Term (Product (Atom (to_atom l)) op (to_atom r)))
      else
        Group (Sum (Term (Atom (to_atom l))) op (Atom (to_atom r)))
  end.

(** The expression that an atom, a term or a sum denotes: the groups
    leave no trace. *)
Fixpoint atom_expr (a : atom) : expr :=
  match a with
  | Operand number => Num number
  | Group e => sum_expr e
  end
with term_expr (t : term) : expr :=
  match t with
  | Atom a => atom_expr a
  | Product t op a => Bin op (term_expr t) (atom_expr a)
  end
with sum_expr (e : sum_of_terms) : expr :=
  match e with
  | Term t => term_expr t
  | Sum e op t => Bin op (sum_expr e) (term_expr t)
  end.

(** A token with no whitespace in it, and not empty. *)
Definition word (t : string) : Prop :=
  t ≠ "" ∧ builtins.all_chars (λ c, negb (builtins.char_isspace c)) t = true.

End tree_notions.

Module program_notions.
Import pushdown_automata.

(** Two automata with the same states, transitions, initial state and
    bottom marker: what [add_state] and [add_transition] set up. *)
Definition same_program (a b : PushdownAutomata) : Prop :=
  states a = states b
  ∧ transitions a = transitions b
  ∧ initial_state a = initial_state b
  ∧ _initial_symbol (stack a) = _initial_symbol (stack b).

(** Two automata with the same program in the same configuration, with
    the same execution history. *)
Definition lockstep (a b : PushdownAutomata) : Prop :=
  same_program a b
  ∧ current_state a = current_state b
  ∧ stack a = stack b
  ∧ _execution_history a = _execution_history b.

End program_notions.

Module validator_notions.
Import pushdown_automata expression_validator program_notions.
Import ExpressionTokenizer ExpressionValidator.

(** A character that [tokenize_infix] knows: a decimal digit, an
    operator, a parenthesis or whitespace. *)
Definition recognized (c : ascii) : Prop :=
  String c "" ∈ DIGITS ∨ String c "" ∈ OPERATORS
  ∨ String c "" ∈ PARENTHESES ∨ builtins.isspace (String c "") = true.

(** The unified validator after a series of calls of [validate]. *)
Fixpoint after_calls (self : ExpressionValidator)
    (calls : list (string * NotationType)) : option ExpressionValidator :=
  match calls with
  | [] => Some self
  | (expression, notation) :: rest =>
      '(self, _) ← validate self expression notation;
      after_calls self rest
  end.

(** The three validators of a unified validator are, as programs, the
    ones that [__init__] builds. *)
Definition as_built (i p x : PushdownAutomata)
    (v : ExpressionValidator) : Prop :=
  same_program (infix_validator v) i
  ∧ _initial_symbol (stack (postfix_validator v))
    = _initial_symbol (stack p)
  ∧ _initial_symbol (stack (prefix_validator v))
    = _initial_symbol (stack x).

End validator_notions.

Module shape_notions.

(** The token kinds that an infix expression may have, one after the
    other: an operand or an opening parenthesis where an operand is
    expected; an operator, or a closing parenthesis that closes an open
    one, after an operand; at the end an operand has been read and no
    parenthesis is open.  [depth] counts the open parentheses. *)
Fixpoint infix_shape (expect_operand : bool) (depth : nat)
    (kinds : list string) : bool :=
  match kinds with
  | [] => negb expect_operand && bool_decide (depth = 0)
  | kind :: rest =>
      if expect_operand then
        if bool_decide (kind = "OPERAND") then infix_shape false depth rest
        else if bool_decide (kind = "LPAREN") then
          infix_shape true (S depth) rest
        else false
      else
        if bool_decide (kind = "OPERATOR") then infix_shape true depth rest
        else if bool_decide (kind = "RPAREN") then
          match depth with
          | 0 => false
          | S depth' => infix_shape false depth' rest
          end
        else false
  end.

(** The number of tokens equal to [token]. *)
Definition occurrences (token : string) (tokens : list string) : nat :=
  length (filter (λ t, t = token) tokens).

End shape_notions.

Module parser_notions.
Import precedence_grammar.

(** What has been read of a sum that is not finished: the sum to the
    left with its operator, and the term to the left with its operator. *)
Definition frame : Type :=
  option (sum_of_terms * string) * option (term * string).

Definition close_term (left : option (term * string)) (a : atom) : term :=
  match left with
  | Some (t, operator) => Product t operator a
  | None => Atom a
  end.

Definition close_sum (left : option (sum_of_terms * string)) (t : term)
    : sum_of_terms :=
  match left with
  | Some (e, operator) => Sum e operator t
  | None => Term t
  end.

Definition frame_ok (f : frame) : Prop :=
  match f.1 with
  | Some (e, operator) => sum_ok e ∧ additive operator
  | None => True
  end
  ∧ match f.2 with
    | Some (t, operator) => term_ok t ∧ multiplicative operator
    | None => True
    end.

Definition frame_tokens (f : frame) : list string :=
  match f.1 with
  | Some (e, operator) => sum_tokens e ++ [operator]
  | None => []
  end
  ++ match f.2 with
     | Some (t, operator) => term_tokens t ++ [operator]
     | None => []
     end.

(** The tokens of the sums that are open around the current one, the
    innermost first in the list: each is followed by its parenthesis. *)
Fixpoint context_tokens (frames : list frame) : list string :=
  match frames with
  | [] => []
  | f :: outer => context_tokens outer ++ frame_tokens f ++ ["("]
  end.

End parser_notions.

Module trie_notions.
Import state_machine.

(** The identifier of the node at the path [p] below [n]. *)
Definition id_at (n : StateNode) (p : ref) : option nat :=
  state_id <$> node_at n p.

(** The identifiers below [n] are the numbers below [counter], each at
    one path. *)
Definition ids_unique (counter : nat) (n : StateNode) : Prop :=
  (∀ p i, id_at n p = Some i → i < counter)
  ∧ (∀ p q i, id_at n p = Some i → id_at n q = Some i → p = q)
  ∧ (∀ i, i < counter → ∃ p, id_at n p = Some i).

End trie_notions.

(** * Properties of the trie matcher *)

Import state_machine matcher_notions.

Lemma flags_at_cons n a p :
  flags_at n (a :: p) = get_next_state n a ≫= λ c, flags_at c p.
Proof. unfold flags_at. simpl. by destruct (get_next_state n a). Qed.

Lemma prefix_cons_iff (a b : string) (p s : list string) :
  (a :: p) `prefix_of` (b :: s) ↔ a = b ∧ p `prefix_of` s.
Proof.
  split.
  - intros H. split; [by eapply prefix_cons_inv_1 | by eapply prefix_cons_inv_2].
  - intros [-> H]. by apply prefix_cons.
Qed.

(** The flags of the trie after one insertion, path by path. *)
Lemma walk_insert_flags s : ∀ c n name p,
  flags_at (walk_insert c n s name).2 p = mark_step p (flags_at n p) (s, name).
Proof.
  induction s as [|sym rest IH]; intros c n name p; unfold mark_step; simpl.
  - destruct p as [|a p]; [done|].
    rewrite decide_False by done.
    rewrite decide_False by (intros H; by apply prefix_nil_not in H).
    done.
  - unfold has_transition, get_next_state, _create_state. simpl.
    destruct (transitions n !! sym) as [child|] eqn:Hc; simpl.
    + rewrite Hc.
      specialize (IH c child name).
      destruct (walk_insert c child rest name) as [c2 child'] eqn:Hw. simpl in *.
      destruct p as [|a p].
      * rewrite decide_False by done. rewrite decide_True by apply prefix_nil. done.
      * rewrite !flags_at_cons. unfold get_next_state. simpl.
        destruct (decide (a = sym)) as [->|Hne].
        -- rewrite lookup_insert_eq, Hc. simpl. rewrite IH. unfold mark_step. simpl.
           repeat case_decide; try done; exfalso;
             rewrite ?prefix_cons_iff in *; naive_solver.
        -- rewrite lookup_insert_ne by done.
           rewrite decide_False by congruence.
           rewrite decide_False by (rewrite prefix_cons_iff; naive_solver). done.
    + rewrite lookup_insert_eq.
      specialize (IH (S c) (new_StateNode c) name).
      destruct (walk_insert (S c) (new_StateNode c) rest name) as [c2 child'] eqn:Hw.
      simpl in *.
      destruct p as [|a p].
      * rewrite decide_False by done. rewrite decide_True by apply prefix_nil. done.
      * rewrite !flags_at_cons. unfold get_next_state. simpl.
        destruct (decide (a = sym)) as [->|Hne].
        -- rewrite lookup_insert_eq, Hc. simpl. rewrite IH. unfold mark_step. simpl.
           assert (flags_at (new_StateNode c) p
                   = if decide (p = []) then Some (false, None) else None) as ->.
           { destruct p; [done|]. by rewrite flags_at_cons. }
           pose proof (prefix_nil rest).
           repeat case_decide; try done; subst; try done; exfalso;
             rewrite ?prefix_cons_iff in *; naive_solver.
        -- rewrite !lookup_insert_ne by done.
           rewrite decide_False by congruence.
           rewrite decide_False by (rewrite prefix_cons_iff; naive_solver). done.
Qed.

(** The flags of the root after the loop of [build_from_combos]. *)
Lemma build_root_flags combos : ∀ c r p,
  flags_at (foldl insert_combo (c, r) combos).2 p
  = foldl (mark_step p) (flags_at r p) combos.
Proof.
  induction combos as [|[s name] combos IH]; intros c r p; simpl; [done|].
  destruct (walk_insert c r s name) as [c' r'] eqn:Hw.
  rewrite IH. f_equal.
  change r' with (c', r').2. rewrite <- Hw. apply walk_insert_flags.
Qed.

(** A combo with another sequence leaves the flags of an existing node. *)
Lemma marks_stable p combos x :
  p ∉ combos.*1 → foldl (mark_step p) (Some x) combos = Some x.
Proof.
  induction combos as [|[s name] combos IH]; simpl; [done|].
  intros Hnot. apply not_elem_of_cons in Hnot as [Hne Hnot].
  unfold mark_step at 2; simpl.
  rewrite decide_False by done. case_decide; by apply IH.
Qed.

(** Without duplicates, the node of a registered sequence carries its label. *)
Lemma marks_accept p name combos : ∀ f0,
  NoDup combos.*1 → (p, name) ∈ combos →
  foldl (mark_step p) f0 combos = Some (true, Some name).
Proof.
  induction combos as [|[s l] combos IH]; intros f0 Hnd Hin; simpl in *.
  { by apply elem_of_nil in Hin. }
  apply NoDup_cons in Hnd as [Hfresh Hnd].
  apply elem_of_cons in Hin as [Heq|Hin].
  - injection Heq as <- <-. unfold mark_step at 2; simpl.
    rewrite decide_True by done. by apply marks_stable.
  - by apply IH.
Qed.

(** A proper prefix of a registered sequence that is not registered itself
    is a node that does not accept. *)
Lemma marks_prefix p s combos : ∀ f0,
  f0 = None ∨ f0 = Some (false, None) →
  p ∉ combos.*1 → s ∈ combos.*1 → p `prefix_of` s →
  foldl (mark_step p) f0 combos = Some (false, None).
Proof.
  induction combos as [|[s' l] combos IH]; intros f0 Hf0 Hnot Hin Hpre; simpl in *.
  { by apply elem_of_nil in Hin. }
  apply not_elem_of_cons in Hnot as [Hne Hnot].
  unfold mark_step at 2; simpl. rewrite decide_False by done.
  apply elem_of_cons in Hin as [<-|Hin].
  - rewrite decide_True by done.
    rewrite marks_stable by done. by destruct Hf0 as [-> | ->].
  - case_decide; [|by apply IH].
    rewrite marks_stable by done. by destruct Hf0 as [-> | ->].
Qed.

(** A node of the trie below the root is a prefix of a registered sequence. *)
Lemma marks_reached p combos :
  is_Some (foldl (mark_step p) None combos) →
  ∃ s, s ∈ combos.*1 ∧ p `prefix_of` s.
Proof.
  induction combos as [|[s l] combos IH]; simpl.
  { by intros [? ?]. }
  unfold mark_step at 2; simpl. intros Hsome.
  destruct (decide (p = s)) as [->|Hne].
  { exists s. split; [apply elem_of_cons; by left | done]. }
  destruct (decide (p `prefix_of` s)) as [Hpre|Hnpre].
  { exists s. split; [apply elem_of_cons; by left | done]. }
  destruct (IH Hsome) as (s' & Hin & Hpre').
  exists s'. split; [apply elem_of_cons; by right | done].
Qed.

(** The trie held by a matcher right after [build_from_combos]. *)
Lemma fresh_fields combos :
  current_state (fresh combos) = [] ∧ input_history (fresh combos) = []
  ∧ combo_list (fresh combos) = combos.
Proof.
  unfold fresh, build_from_combos.
  by destruct (foldl _ _ combos).
Qed.

(** The flags of a freshly built trie below its root. *)
Lemma fresh_root_flags combos p :
  p ≠ [] →
  flags_at (root (fresh combos)) p = foldl (mark_step p) None combos.
Proof.
  intros Hp. unfold fresh, build_from_combos.
  pose proof (build_root_flags combos (_state_counter __init__) (root __init__) p) as H.
  destruct (foldl _ _ combos) as [c r]. simpl in *. rewrite H.
  by destruct p.
Qed.

(** Following a path and then one more symbol. *)
Lemma node_at_snoc n p x :
  node_at n (p ++ [x]) = node_at n p ≫= λ m, get_next_state m x.
Proof.
  revert n. induction p as [|a p IH]; intros n; simpl.
  - by destruct (get_next_state n x).
  - destruct (get_next_state n a); [apply IH | done].
Qed.

(** A reference has a next reference exactly when the longer path exists. *)
Lemma next_ref_spec self r x :
  next_ref self r x = node_at (root self) (r ++ [x]) ≫= λ _, Some (r ++ [x]).
Proof.
  unfold next_ref. rewrite node_at_snoc.
  destruct (node_at (root self) r) as [n|]; simpl; [|done].
  by destruct (get_next_state n x).
Qed.

(** What [process_input] does, read off the flags of the node that the
    cursor would move to. *)
Lemma process_input_move self x b l :
  current_state self = input_history self →
  flags_at (root self) (input_history self ++ [x]) = Some (b, l) →
  process_input self x =
    if b then (reset self, l)
    else (set_cursor self (input_history self ++ [x]) (input_history self ++ [x]), None).
Proof.
  intros Hcur Hfl. unfold process_input. rewrite next_ref_spec, Hcur.
  unfold flags_at in Hfl.
  destruct (node_at (root self) (input_history self ++ [x])) as [n|] eqn:Hn; [|done].
  simpl in *. injection Hfl as <- <-.
  unfold check_accept. simpl. rewrite Hn. by destruct (is_accept n).
Qed.

(** Feeding what is left of a registered sequence, from the node that the
    symbols already seen lead to. *)
Lemma feed_registered combos s name :
  NoDup combos.*1 → (s, name) ∈ combos →
  (∀ q, q ∈ combos.*1 → q ≠ [] → q `prefix_of` s → q = s) →
  ∀ todo seen self,
    seen ++ todo = s → todo ≠ [] →
    root self = root (fresh combos) →
    current_state self = seen → input_history self = seen →
    (feed self todo).2 = replicate (length todo - 1) None ++ [Some name].
Proof.
  intros Hnd Hin Hfree.
  assert (s ∈ combos.*1) as Hs.
  { apply list_elem_of_fmap. by exists (s, name). }
  induction todo as [|x todo IH]; intros seen self Hsplit Hne Hroot Hcur Hhist; [done|].
  simpl.
  destruct todo as [|y todo].
  - assert (flags_at (root self) (input_history self ++ [x])
            = Some (true, Some name)) as Hfl.
    { rewrite Hroot, Hhist, Hsplit.
      rewrite fresh_root_flags by (rewrite <- Hsplit; by destruct seen).
      by apply marks_accept. }
    rewrite (process_input_move _ _ _ _ (eq_trans Hcur (eq_sym Hhist)) Hfl). done.
  - assert (seen ++ [x] ∉ combos.*1) as Hnot.
    { intros Hq. apply Hfree in Hq.
      - rewrite <- Hsplit in Hq. apply (f_equal length) in Hq.
        rewrite !length_app in Hq. simpl in Hq. lia.
      - by destruct seen.
      - exists (y :: todo). rewrite <- Hsplit. by rewrite <- app_assoc. }
    assert (flags_at (root self) (input_history self ++ [x]) = Some (false, None)) as Hfl.
    { rewrite Hroot, Hhist.
      rewrite fresh_root_flags by (by destruct seen).
      apply (marks_prefix _ s); auto.
      exists (y :: todo). rewrite <- Hsplit. by rewrite <- app_assoc. }
    rewrite (process_input_move _ _ _ _ (eq_trans Hcur (eq_sym Hhist)) Hfl).
    specialize (IH (seen ++ [x])
      (set_cursor self (input_history self ++ [x]) (input_history self ++ [x]))).
    destruct (feed _ (y :: todo)) as [self2 outs] eqn:Hfeed.
    simpl in *. rewrite IH; try done.
    + by rewrite Nat.sub_0_r.
    + rewrite <- Hsplit. by rewrite <- app_assoc.
    + by rewrite Hhist.
    + by rewrite Hhist.
Qed.




Lemma check_accept_on_path self :
  on_path self → on_path (check_accept self).1.
Proof.
  intros [Hcur Hnode]. unfold check_accept.
  destruct (node_at (root self) (current_state self)) as [n|]; [|done].
  destruct (is_accept n); [|done]. split; simpl; eauto.
Qed.

Lemma check_accept_frame self :
  root (check_accept self).1 = root self
  ∧ combo_list (check_accept self).1 = combo_list self.
Proof.
  unfold check_accept.
  destruct (node_at (root self) (current_state self)) as [n|]; [|done].
  by destruct (is_accept n).
Qed.

(** [process_input] keeps the cursor and the history together. *)
Lemma process_input_on_path self x :
  on_path self → on_path (process_input self x).1.
Proof.
  intros [Hcur Hnode]. unfold process_input. rewrite !next_ref_spec.
  change ([] ++ [x]) with [x].
  destruct (node_at (root self) (current_state self ++ [x])) as [n|] eqn:Hn;
    cbn [mbind option_bind].
  - apply check_accept_on_path. split; cbn [set_cursor current_state input_history root];
      [by rewrite Hcur|].
    rewrite <- Hcur, Hn. eauto.
  - destruct (node_at (root self) [x]) as [m|] eqn:Hm; cbn [mbind option_bind].
    + apply check_accept_on_path.
      split; cbn [set_cursor current_state input_history root]; [done|].
      rewrite Hm. eauto.
    + split; simpl; eauto.
Qed.

(** [process_input] changes neither the trie nor the list of combos. *)
Lemma process_input_frame self x :
  root (process_input self x).1 = root self
  ∧ combo_list (process_input self x).1 = combo_list self.
Proof.
  unfold process_input.
  destruct (next_ref self (current_state self) x).
  - by destruct (check_accept_frame (set_cursor self (input_history self ++ [x]) r)).
  - destruct (next_ref self [] x); [|done].
    by destruct (check_accept_frame (set_cursor self [x] r)).
Qed.

Lemma feed_on_path symbols : ∀ self,
  on_path self →
  on_path (feed self symbols).1
  ∧ root (feed self symbols).1 = root self
  ∧ combo_list (feed self symbols).1 = combo_list self.
Proof.
  induction symbols as [|x symbols IH]; intros self Hinv; simpl; [done|].
  pose proof (process_input_on_path self x Hinv) as Hinv1.
  destruct (process_input_frame self x) as [Hr Hc].
  destruct (process_input self x) as [self1 out]. simpl in *.
  destruct (IH self1 Hinv1) as (Hinv2 & Hr2 & Hc2).
  destruct (feed self1 symbols) as [self2 outs]. simpl in *.
  by rewrite Hr2, Hc2.
Qed.

(** The inner loop decides whether the history is a prefix of the sequence
    from index [i] on. *)
Lemma is_prefix_loop_spec history : ∀ i sequence,
  is_prefix_loop i history sequence = true ↔ history `prefix_of` drop i sequence.
Proof.
  induction history as [|a history IH]; intros i sequence; simpl.
  { split; [intros _; apply prefix_nil | done]. }
  destruct (sequence !! i) as [b|] eqn:Hi.
  - apply lookup_lt_Some in Hi as Hlt.
    rewrite bool_decide_eq_false_2 by lia. simpl.
    rewrite (drop_S _ _ _ Hi), prefix_cons_iff.
    destruct (decide (b = a)) as [->|Hne].
    + rewrite bool_decide_eq_true_2 by done. simpl. rewrite IH. naive_solver.
    + rewrite bool_decide_eq_false_2 by congruence. simpl.
      split; [done|]. by intros [? _].
  - apply lookup_ge_None in Hi.
    rewrite bool_decide_eq_true_2 by done. simpl.
    rewrite drop_ge by done. split; [done|].
    intros H. by apply prefix_nil_not in H.
Qed.

Lemma max_length_step_le history m0 combo :
  m0 ≤ max_length_step history m0 combo.
Proof.
  destruct combo as [s l]. unfold max_length_step.
  case_bool_decide; [|done]. destruct (is_prefix_loop _ _ _); lia.
Qed.

(** [max_length] never decreases and is at least the length of every
    sequence that the history is a prefix of. *)
Lemma max_length_loop_bounds history combos : ∀ m0,
  m0 ≤ foldl (max_length_step history) m0 combos
  ∧ ∀ s, s ∈ combos.*1 → history `prefix_of` s →
         length s ≤ foldl (max_length_step history) m0 combos.
Proof.
  induction combos as [|[s l] combos IH]; intros m0; cbn [foldl].
  { split; [done|]. intros s Hs. by apply elem_of_nil in Hs. }
  destruct (IH (max_length_step history m0 (s, l))) as [Hle Hall].
  pose proof (max_length_step_le history m0 (s, l)) as Hm.
  split; [lia|].
  intros s' Hs' Hpre. rewrite fmap_cons in Hs'.
  apply elem_of_cons in Hs' as [->|Hs']; [|by apply Hall].
  cbn [fst] in *. etrans; [|apply Hle]. unfold max_length_step.
  case_bool_decide; [|lia].
  apply (is_prefix_loop_spec history 0 s) in Hpre. by rewrite Hpre.
Qed.


(** A history that is not empty is a prefix of a registered sequence. *)
Lemma after_inputs_history combos symbols :
  input_history (after_inputs combos symbols) ≠ [] →
  ∃ s, s ∈ combos.*1
       ∧ input_history (after_inputs combos symbols) `prefix_of` s.
Proof.
  intros Hne. unfold after_inputs in *.
  destruct (fresh_fields combos) as (Hcur & Hhist & Hlist).
  destruct (feed_on_path symbols (fresh combos)) as ([_ Hnode] & Hroot & _).
  { split; [congruence|]. rewrite Hhist. simpl. eauto. }
  rewrite Hroot in Hnode.
  apply marks_reached. rewrite <- fresh_root_flags by done.
  unfold flags_at. by apply fmap_is_Some.
Qed.



(** * Properties of the pushdown automaton *)

Import pushdown_automata expression_validator automata_notions.
Import ExpressionTokenizer.

(** [pop] on the marker alone returns nothing and changes nothing. *)
Lemma pop_sentinel_only s z :
  _stack s = [z] → pop s = (s, None).
Proof. intros H. unfold pop. by rewrite H. Qed.

(** The contents of the stack after [pop]. *)
Lemma pop_stack s :
  _stack (pop s).1 = if bool_decide (1 < length (_stack s))
                     then removelast (_stack s) else _stack s.
Proof.
  unfold pop. case_bool_decide as Hlen; [|done].
  destruct (last (_stack s)) as [x|] eqn:Hlast; [done|].
  apply last_None in Hlast. rewrite Hlast in Hlen. simpl in Hlen. lia.
Qed.

Lemma pop_initial_symbol s : _initial_symbol (pop s).1 = _initial_symbol s.
Proof.
  unfold pop. case_bool_decide; [|done]. by destruct (last (_stack s)).
Qed.

Lemma pop_sentinel_kept s : sentinel_kept s → sentinel_kept (pop s).1.
Proof.
  intros [above Hs]. unfold sentinel_kept.
  rewrite pop_stack, pop_initial_symbol, Hs.
  case_bool_decide as Hlen; [|eauto].
  destruct above as [|a above]; [simpl in Hlen; lia|].
  exists (removelast (a :: above)). done.
Qed.

Lemma push_sentinel_kept s x : sentinel_kept s → sentinel_kept (push s x).
Proof. intros [above Hs]. exists (above ++ [x]). simpl. by rewrite Hs. Qed.

Lemma apply_op_sentinel_kept s op : sentinel_kept s → sentinel_kept (apply_op s op).
Proof.
  intros H. destruct op; simpl.
  - by apply push_sentinel_kept.
  - by apply pop_sentinel_kept.
  - by apply push_sentinel_kept, pop_sentinel_kept.
  - by exists [].
Qed.

Lemma foldl_apply_op_sentinel_kept ops : ∀ s,
  sentinel_kept s → sentinel_kept (foldl apply_op s ops).
Proof.
  induction ops as [|op ops IH]; intros s H; simpl; [done|].
  by apply IH, apply_op_sentinel_kept.
Qed.

(** With the marker in place, [is_empty] says that nothing is above it. *)
Lemma is_empty_sentinel_only s :
  sentinel_kept s → (is_empty s = true ↔ _stack s = [_initial_symbol s]).
Proof.
  intros [above Hs]. unfold is_empty. rewrite Hs.
  rewrite bool_decide_eq_true. simpl. destruct above; simpl; split; (done || lia).
Qed.

(** [_execute_stack_action] that fails leaves the stack as it was. *)
(** A [pop] that returns nothing leaves the stack as it was. *)
Lemma pop_None s : (pop s).2 = None → (pop s).1 = s.
Proof.
  unfold pop. case_bool_decide; [|done]. by destruct (last (_stack s)).
Qed.

Lemma _execute_stack_action_fail self action self' :
  _execute_stack_action self action = (self', false) →
  stack self' = stack self.
Proof.
  unfold _execute_stack_action.
  case_bool_decide; [done|].
  destruct (builtins.startswith action "push:"); [done|].
  case_bool_decide.
  - pose proof (pop_None (stack self)) as Hpop.
    destruct (pop (stack self)) as [st result]. intros [= <- Hres].
    simpl in *. apply bool_decide_eq_false in Hres. apply Hpop.
    destruct result; [by destruct Hres | done].
  - destruct (builtins.startswith action "replace:").
    + by destruct (pop (stack self)).
    + by intros [= <-].
Qed.

Lemma goto_error_stack self : stack (goto_error self) = stack self.
Proof. unfold goto_error. by destruct (states self !! "q_error"). Qed.

(** A [step] that fails leaves the stack as it was. *)
Lemma step_fail_stack self input_symbol self' error :
  step self input_symbol = Some (self', StepFail error) →
  stack self' = stack self.
Proof.
  unfold step.
  destruct (_find_transition _ _) as [t|].
  - destruct (_execute_stack_action _ _) as [self1 ok] eqn:Hact.
    destruct ok; simpl; [by intros [= <-]|].
    intros [= <- _]. rewrite goto_error_stack.
    by apply _execute_stack_action_fail in Hact.
  - intros H. apply bind_Some in H as (s & _ & [= <- _]).
    by rewrite goto_error_stack.
Qed.

Lemma apply_op_initial_symbol s op :
  _initial_symbol (apply_op s op) = _initial_symbol s.
Proof. destruct op; simpl; try done; apply pop_initial_symbol. Qed.

Lemma foldl_apply_op_initial_symbol ops : ∀ s,
  _initial_symbol (foldl apply_op s ops) = _initial_symbol s.
Proof.
  induction ops as [|op ops IH]; intros s; simpl; [done|].
  by rewrite IH, apply_op_initial_symbol.
Qed.

(** C8.  After any sequence of push, pop, replace and clear operations on
    a fresh stack the bottom marker is still at the bottom; [is_empty] holds
    exactly when the marker is all there is; [pop] on the marker alone
    returns nothing and changes nothing; and a [step] that fails leaves the
    stack as it was, so [is_empty] stays true. *)
Theorem C8_sentinel_never_removed (z : string) (ops : list StackOp) :
  (∃ above, _stack (foldl apply_op (new_PDAStack z) ops) = z :: above)
  ∧ (is_empty (foldl apply_op (new_PDAStack z) ops) = true
     ↔ _stack (foldl apply_op (new_PDAStack z) ops) = [z])
  ∧ (_stack (foldl apply_op (new_PDAStack z) ops) = [z] →
     pop (foldl apply_op (new_PDAStack z) ops)
     = (foldl apply_op (new_PDAStack z) ops, None))
  ∧ (∀ self input_symbol self' error,
       stack self = foldl apply_op (new_PDAStack z) ops →
       is_empty (stack self) = true →
       step self input_symbol = Some (self', StepFail error) →
       stack self' = stack self ∧ is_empty (stack self') = true).
Proof.
  assert (sentinel_kept (foldl apply_op (new_PDAStack z) ops)) as Hkept.
  { apply foldl_apply_op_sentinel_kept. by exists []. }
  pose proof (foldl_apply_op_initial_symbol ops (new_PDAStack z)) as Hz.
  simpl in Hz.
  split; [|split; [|split]].
  - destruct Hkept as [above H]. exists above. by rewrite H, Hz.
  - by rewrite (is_empty_sentinel_only _ Hkept), Hz.
  - apply pop_sentinel_only.
  - intros self input_symbol self' error _ Hempty Hstep.
    apply step_fail_stack in Hstep. by rewrite Hstep.
Qed.

(** A [replace:X] action on any stack reports success. *)
Lemma _execute_stack_action_replace self x :
  _execute_stack_action self ("replace:" +:+ x)
  = (set_stack_alphabet (set_stack self (push (pop (stack self)).1 x))
                        ({[x]} ∪ stack_alphabet self), true).
Proof.
  unfold _execute_stack_action.
  rewrite bool_decide_eq_false_2 by done.
  change (builtins.startswith ("replace:" +:+ x) "push:") with false.
  rewrite bool_decide_eq_false_2 by done.
  change (builtins.startswith ("replace:" +:+ x) "replace:")
    with (String.prefix "" x).
  assert (String.prefix "" x = true) as -> by (by destruct x).
  change (builtins.slice_from 8 ("replace:" +:+ x)) with x.
  by destruct (pop (stack self)).
Qed.

(** C1 (amended).  When [step] selects a transition whose stack action is
    [replace:x] and the stack holds only the bottom marker [z], the step
    succeeds: the [pop] of the action changes nothing, [x] is pushed above
    the marker, the automaton moves to the target state of the transition
    and records the transition. *)
Theorem C1_replace_on_sentinel_only_succeeds
    (self : PushdownAutomata) (input_symbol x z : string) (t : PDATransition) :
  _find_transition self (Some input_symbol) = Some t →
  stack_action t = "replace:" +:+ x →
  _stack (stack self) = [z] →
  ∃ self',
    step self input_symbol = Some (self', StepOk)
    ∧ _stack (stack self') = [z; x]
    ∧ current_state self' = Some (to_state t)
    ∧ _transition_history self' = _transition_history self ++ [t].
Proof.
  intros Hfind Haction Hstack. unfold step.
  change (_find_transition (set_execution_history self _) (Some input_symbol))
    with (_find_transition self (Some input_symbol)).
  rewrite Hfind, Haction, _execute_stack_action_replace. simpl.
  eexists. split; [done|]. simpl.
  rewrite (pop_sentinel_only _ z Hstack). simpl. by rewrite Hstack.
Qed.

(** [replace_pda] is what [add_transition] builds. *)
Lemma replace_pda_built :
  add_transition
    (add_state (add_state (pushdown_automata.__init__ "replace")
                          "q0" INITIAL "") "q_error" ERROR "")
    "q0" "q0" (Some "a") None "replace:X" ""
  = Some replace_pda.
Proof. vm_compute. reflexivity. Qed.

(** C1 (amended) at [replace_pda] and the input [a]. *)
Lemma C1_witness :
  ∃ self',
    step replace_pda "a" = Some (self', StepOk)
    ∧ _stack (stack self') = ["Z0"; "X"]
    ∧ current_state self' = Some (to_state replace_transition)
    ∧ _transition_history self'
      = _transition_history replace_pda ++ [replace_transition].
Proof.
  apply (C1_replace_on_sentinel_only_succeeds
           replace_pda "a" "X" "Z0" replace_transition).
  - vm_compute. reflexivity.
  - reflexivity.
  - vm_compute. reflexivity.
Defined.

(** C1 as stated fails at [replace_pda]: the stack holds only the marker,
    [step] on [a] selects the [replace:X] transition and succeeds. *)
Lemma C1_counterexample :
  _find_transition replace_pda (Some "a") = Some replace_transition
  ∧ stack_action replace_transition = "replace:" +:+ "X"
  ∧ _stack (stack replace_pda) = ["Z0"]
  ∧ is_empty (stack replace_pda) = true
  ∧ snd <$> step replace_pda "a" = Some StepOk
  ∧ ¬ ∃ self' error, step replace_pda "a" = Some (self', StepFail error).
Proof.
  assert (snd <$> step replace_pda "a" = Some StepOk) as Hstep
    by (vm_compute; reflexivity).
  repeat split; try (vm_compute; reflexivity); try exact Hstep.
  intros (self' & error & Hfail). rewrite Hfail in Hstep. discriminate Hstep.
Qed.

(** A stack action changes neither the state nor the configuration of the
    automaton. *)
Lemma _execute_stack_action_frame self action :
  current_state (_execute_stack_action self action).1 = current_state self
  ∧ states (_execute_stack_action self action).1 = states self
  ∧ transitions (_execute_stack_action self action).1 = transitions self.
Proof.
  unfold _execute_stack_action.
  repeat (case_bool_decide || case_match); simpl; try done.
Qed.

Lemma goto_error_current_state self :
  is_Some (current_state self) → is_Some (current_state (goto_error self)).
Proof.
  intros H. unfold goto_error. destruct (states self !! "q_error"); simpl; eauto.
Qed.

(** With a current state, [step] raises nothing and leaves a current
    state. *)
Lemma step_total self input_symbol :
  is_Some (current_state self) →
  ∃ self' r, step self input_symbol = Some (self', r)
             ∧ is_Some (current_state self').
Proof.
  intros Hcur. unfold step.
  destruct (_find_transition _ _) as [t|].
  - destruct (_execute_stack_action_frame
                (set_execution_history self
                   (_execution_history self ++
                      [mkPDAConfiguration (current_state self) input_symbol
                         (get_contents (stack self))]))
                (stack_action t)) as (Hc & _ & _).
    destruct (_execute_stack_action _ _) as [self1 ok]. simpl in Hc.
    destruct ok; simpl.
    + eexists _, _. split; [done|]. simpl. eauto.
    + eexists _, _. split; [done|]. apply goto_error_current_state.
      by rewrite Hc.
  - destruct (goto_error_current_state
                (set_execution_history self
                   (_execution_history self ++
                      [mkPDAConfiguration (current_state self) input_symbol
                         (get_contents (stack self))])) Hcur) as [s Hs].
    rewrite Hs. simpl. eexists _, _. split; [done|]. rewrite Hs. eauto.
Qed.

(** The loop of [process] stops at the first step that fails, or runs
    through all the symbols. *)
Lemma process_loop_spec symbols : ∀ self,
  is_Some (current_state self) →
  (∃ before symbol after self1 self2 error,
      symbols = before ++ symbol :: after
      ∧ run self before = Some self1
      ∧ step self1 symbol = Some (self2, StepFail error)
      ∧ process_loop self symbols = Some (self2, Some error))
  ∨ (∃ self',
      run self symbols = Some self'
      ∧ is_Some (current_state self')
      ∧ process_loop self symbols = Some (self', None)).
Proof.
  induction symbols as [|symbol rest IH]; intros self Hcur.
  { right. exists self. done. }
  destruct (step_total self symbol Hcur) as (self1 & r & Hstep & Hcur1).
  simpl. rewrite Hstep. simpl. destruct r as [|error].
  - destruct (IH self1 Hcur1) as
      [(before & sym & after & s1 & s2 & error & -> & Hrun & Hfail & Hloop)
      | (self' & Hrun & Hcur' & Hloop)].
    + left. exists (symbol :: before), sym, after, s1, s2, error.
      simpl. by rewrite Hstep.
    + right. by exists self'.
  - left. by exists [], symbol, rest, self, self1, error.
Qed.

(** C3.  For an automaton with an initial state, [process] resets and steps
    through the symbols in order.  Either some step fails: then the steps
    before it succeeded, [process] returns failure with the error of that
    step and the automaton is left as that step left it, none of the later
    symbols being processed.  Or every step succeeds: then the verdict and
    the message depend only on the kind of the state reached after the last
    symbol. *)
Theorem C3_process_classifies_by_final_state
    (self : PushdownAutomata) (input_string : list string) :
  is_Some (initial_state self) →
  (∃ before symbol after self1 self2 error,
      input_string = before ++ symbol :: after
      ∧ run (reset self) before = Some self1
      ∧ step self1 symbol = Some (self2, StepFail error)
      ∧ process self input_string
        = Some (self2, (false, error, _execution_history self2)))
  ∨ (∃ self' s,
      run (reset self) input_string = Some self'
      ∧ current_state self' = Some s
      ∧ process self input_string
        = Some (self',
                (bool_decide (state_type s = ACCEPTING),
                 if bool_decide (state_type s = ACCEPTING) then "Input accepted"
                 else if bool_decide (state_type s = ERROR)
                      then "Ended in error state"
                      else "Ended in non-accepting state '" +:+ name s +:+ "'",
                 _execution_history self'))).
Proof.
  intros Hinit. unfold process.
  destruct (process_loop_spec input_string (reset self) Hinit) as
    [(before & sym & after & s1 & s2 & error & -> & Hrun & Hfail & Hloop)
    | (self' & Hrun & [s Hs] & Hloop)].
  - left. exists before, sym, after, s1, s2, error. by rewrite Hloop.
  - right. exists self', s. rewrite Hloop. simpl. rewrite Hs. simpl.
    repeat split; try done. by repeat case_bool_decide.
Qed.

(** Passing through an accepting state is not acceptance: after [a] the
    automaton is in its accepting state, and [a b] is rejected. *)
Lemma pass_through_rejected :
  (run (reset pass_through_pda) ["a"]
     ≫= λ self1, state_type <$> current_state self1) = Some ACCEPTING
  ∧ (λ r, r.2.1) <$> process pass_through_pda ["a"; "b"]
    = Some (false, "Ended in non-accepting state 'q0'").
Proof. split; vm_compute; reflexivity. Qed.

(** C3 at the prefix validator's automaton and the input [OPERAND]. *)
Lemma C3_witness :
  (∃ before symbol after self1 self2 error,
      ["OPERAND"] = before ++ symbol :: after
      ∧ run (reset expression_validator.PrefixValidator.__init__) before = Some self1
      ∧ step self1 symbol = Some (self2, StepFail error)
      ∧ process expression_validator.PrefixValidator.__init__ ["OPERAND"]
        = Some (self2, (false, error, _execution_history self2)))
  ∨ (∃ self' s,
      run (reset expression_validator.PrefixValidator.__init__) ["OPERAND"] = Some self'
      ∧ current_state self' = Some s
      ∧ process expression_validator.PrefixValidator.__init__ ["OPERAND"]
        = Some (self',
                (bool_decide (state_type s = ACCEPTING),
                 if bool_decide (state_type s = ACCEPTING) then "Input accepted"
                 else if bool_decide (state_type s = ERROR)
                      then "Ended in error state"
                      else "Ended in non-accepting state '" +:+ name s +:+ "'",
                 _execution_history self'))).
Proof.
  apply (C3_process_classifies_by_final_state
           expression_validator.PrefixValidator.__init__ ["OPERAND"]).
  simpl. eexists. reflexivity.
Defined.

(** Without a matching transition, the message of [step] names the state
    [q_error] when the automaton has one, and the state that the automaton
    is in only when it has none. *)
Lemma step_no_transition_message self input_symbol :
  _find_transition self (Some input_symbol) = None →
  match states self !! "q_error", current_state self with
  | Some e, _ =>
      snd <$> step self input_symbol
      = Some (StepFail ("No valid transition for input '" +:+ input_symbol
                        +:+ "' in state '" +:+ name e +:+ "'"))
  | None, Some s =>
      snd <$> step self input_symbol
      = Some (StepFail ("No valid transition for input '" +:+ input_symbol
                        +:+ "' in state '" +:+ name s +:+ "'"))
  | None, None => step self input_symbol = None
  end.
Proof.
  intros Hfind. unfold step.
  change (_find_transition (set_execution_history self _) (Some input_symbol))
    with (_find_transition self (Some input_symbol)).
  rewrite Hfind. unfold goto_error.
  cbn [states set_execution_history].
  destruct (states self !! "q_error") as [e|]; [reflexivity|].
  cbn [current_state set_execution_history].
  by destruct (current_state self).
Qed.

(** C9, at the failing input.  The infix automaton in [q_start] has no
    transition for [OPERATOR]; the message of the failed step names
    [q_error], the state that [step] moves to before it formats the message,
    not [q_start], the state in which no transition matched. *)
Theorem C9_message_names_error_state :
  (expression_validator.InfixValidator.__init__
     ≫= λ self, name <$> current_state self) = Some "q_start"
  ∧ (expression_validator.InfixValidator.__init__
     ≫= λ self, Some (_find_transition self (Some "OPERATOR"))) = Some None
  ∧ (expression_validator.InfixValidator.__init__
     ≫= λ self, snd <$> step self "OPERATOR")
    = Some (StepFail
              "No valid transition for input 'OPERATOR' in state 'q_error'").
Proof. repeat split; vm_compute; reflexivity. Qed.


(** * Properties of the validators *)

(** Two strings that differ at a character of their literal parts. *)
Ltac str_discr :=
  let H := fresh in intros H; cbv [String.append] in H; discriminate H.

(** The code of [InfixValidator.validate] after the loop. *)
Lemma infix_final_check_spec pda trace :
  is_Some (current_state pda) →
  ∃ r, InfixValidator.final_check pda trace = Some (pda, r)
       ∧ (is_valid r = true ↔
            name <$> current_state pda = Some "q_expect_operator"
            ∧ is_empty (stack pda) = true)
       ∧ (is_empty (stack pda) = false →
            message r = "Unmatched opening parenthesis"
            ∧ message r
              ≠ "Expression incomplete - ended in state " +:+ final_state r).
Proof.
  intros [s Hs]. unfold InfixValidator.final_check. rewrite Hs. simpl.
  destruct (is_empty (stack pda)); case_bool_decide as Hname; simpl;
    eexists; (split; [reflexivity|]); simpl.
  - split; [|done]. split; [|done]. by rewrite Hname.
  - split; [|done]. split; [done|]. intros [[= Hn] _]. done.
  - split; [|intros _; split; [done|str_discr]]. split; [done|]. by intros [_ ?].
  - split; [|intros _; split; [done|str_discr]]. split; [done|]. by intros [_ ?].
Qed.

(** The loop of [InfixValidator.validate] on tokens none of which is
    invalid: it reaches the final check when all steps succeed, and rejects
    otherwise. *)
Lemma infix_validate_loop_run tokens : ∀ pda trace,
  is_Some (current_state pda) →
  Forall (λ t, classify_token t ≠ "INVALID") tokens →
  match run pda (classify_token <$> tokens) with
  | Some pda' =>
      is_Some (current_state pda')
      ∧ ∃ trace', InfixValidator.validate_loop pda tokens trace
                  = InfixValidator.final_check pda' trace'
  | None =>
      ∃ pda' r, InfixValidator.validate_loop pda tokens trace = Some (pda', r)
                ∧ is_valid r = false
  end.
Proof.
  induction tokens as [|token rest IH]; intros pda trace Hcur Hvalid; simpl.
  { split; [done|]. by exists trace. }
  apply Forall_cons in Hvalid as [Htok Hrest].
  rewrite bool_decide_eq_false_2 by done.
  destruct (step_total pda (classify_token token) Hcur)
    as (pda1 & r & Hstep & Hcur1).
  rewrite Hstep. simpl.
  destruct Hcur as [before Hbefore]. rewrite Hbefore. simpl.
  destruct Hcur1 as [after Hafter]. rewrite Hafter. simpl.
  destruct r as [|error].
  - apply IH; [by rewrite Hafter | done].
  - eexists _, _. split; reflexivity.
Qed.

(** What [InfixValidator.__init__] builds. *)
Lemma infix_init_spec :
  ∃ pda0, InfixValidator.__init__ = Some pda0
          ∧ initial_state pda0 = Some q_start
          ∧ transitions pda0 = infix_transitions
          ∧ states pda0 !! "q_error" = Some q_error
          ∧ _initial_symbol (stack pda0) = "Z0".
Proof.
  eexists. split; [vm_compute; reflexivity|].
  repeat split; vm_compute; reflexivity.
Qed.

(** C4.  For an input without invalid tokens the infix validator returns a
    result, which is valid exactly when stepping through all the token
    kinds succeeds and ends in [q_expect_operator] with an empty stack; when
    all steps succeed and the stack is not empty, the message is "Unmatched
    opening parenthesis", which is not the message of the generic
    rejection. *)
Theorem C4_infix_valid_iff_expect_operator_and_empty_stack (expression : string) :
  Forall (λ t, classify_token t ≠ "INVALID") (tokenize_infix expression) →
  ∃ pda0 pda' r,
    InfixValidator.__init__ = Some pda0
    ∧ InfixValidator.validate pda0 expression = Some (pda', r)
    ∧ validate_infix expression = Some r
    ∧ (is_valid r = true ↔
         ∃ pda'',
           run (reset pda0) (classify_token <$> tokenize_infix expression)
             = Some pda''
           ∧ name <$> current_state pda'' = Some "q_expect_operator"
           ∧ is_empty (stack pda'') = true)
    ∧ (∀ pda'',
         run (reset pda0) (classify_token <$> tokenize_infix expression)
           = Some pda'' →
         is_empty (stack pda'') = false →
         message r = "Unmatched opening parenthesis"
         ∧ message r
           ≠ "Expression incomplete - ended in state " +:+ final_state r).
Proof.
  intros Hvalid.
  destruct infix_init_spec as (pda0 & Hinit & Hq0 & _).
  exists pda0.
  assert (is_Some (current_state (reset pda0))) as Hcur.
  { simpl. rewrite Hq0. eauto. }
  unfold validate_infix, InfixValidator.validate. rewrite Hinit. simpl.
  clear Hinit.
  case_bool_decide as Hempty.
  { eexists _, _. split; [done|].
    split; [done|]. split; [done|].
    rewrite Hempty. simpl. split.
    - split; [done|]. intros (pda'' & [= <-] & Hname & _).
      simpl in Hname. rewrite Hq0 in Hname. done.
    - intros pda'' [= <-]. simpl. done. }
  pose proof (infix_validate_loop_run (tokenize_infix expression)
                (reset pda0) [] Hcur Hvalid) as Hloop.
  destruct (run (reset pda0) (classify_token <$> tokenize_infix expression))
    as [pda''|].
  - destruct Hloop as (Hcur'' & trace' & Hloop).
    destruct (infix_final_check_spec pda'' trace' Hcur'')
      as (r & Hfinal & Hiff & Hunmatched).
    exists pda'', r. split; [done|]. rewrite Hloop, Hfinal. simpl.
    split; [done|]. split; [done|]. split.
    + rewrite Hiff. split.
      * intros [? ?]. by exists pda''.
      * by intros (? & [= <-] & ? & ?).
    + by intros ? [= <-].
  - destruct Hloop as (pda' & r & Hloop & Hr).
    exists pda', r. split; [done|]. rewrite Hloop. simpl.
    split; [done|]. split; [done|]. split.
    + rewrite Hr. split; [done|]. by intros (? & ? & _).
    + done.
Qed.
(** C4 at the input [(3+4]. *)
Lemma C4_witness :
  ∃ pda0 pda' r,
    InfixValidator.__init__ = Some pda0
    ∧ InfixValidator.validate pda0 "(3+4" = Some (pda', r)
    ∧ validate_infix "(3+4" = Some r
    ∧ (is_valid r = true ↔
         ∃ pda'',
           run (reset pda0) (classify_token <$> tokenize_infix "(3+4")
             = Some pda''
           ∧ name <$> current_state pda'' = Some "q_expect_operator"
           ∧ is_empty (stack pda'') = true)
    ∧ (∀ pda'',
         run (reset pda0) (classify_token <$> tokenize_infix "(3+4")
           = Some pda'' →
         is_empty (stack pda'') = false →
         message r = "Unmatched opening parenthesis"
         ∧ message r
           ≠ "Expression incomplete - ended in state " +:+ final_state r).
Proof.
  apply (C4_infix_valid_iff_expect_operator_and_empty_stack "(3+4").
  repeat constructor; vm_compute; discriminate.
Defined.

(** The scenario of the specification. *)
Lemma unmatched_parenthesis_example :
  (λ r, (is_valid r, message r)) <$> validate_infix "(3+4"
  = Some (false, "Unmatched opening parenthesis").
Proof. vm_compute. reflexivity. Qed.

Lemma classify_operator t : t ∈ OPERATORS → classify_token t = "OPERATOR".
Proof.
  unfold OPERATORS. rewrite !elem_of_union, !elem_of_singleton.
  intros [[[-> | ->] | ->] | ->]; reflexivity.
Qed.

Lemma char_isdigit_code c :
  builtins.char_isdigit c = true →
  c ≠ "I"%char ∧ c ≠ "+"%char ∧ c ≠ "-"%char ∧ c ≠ "*"%char ∧ c ≠ "/"%char
  ∧ c ≠ "("%char ∧ c ≠ ")"%char.
Proof. intros H. repeat split; intros ->; by vm_compute in H. Qed.

(** A token of digits is an operand. *)
Lemma classify_digit t : builtins.isdigit t = true → classify_token t = "OPERAND".
Proof.
  destruct t as [|c t]; [done|]. intros Hd.
  assert (builtins.char_isdigit c = true) as Hc.
  { simpl in Hd. by apply andb_true_iff in Hd as [? _]. }
  apply char_isdigit_code in Hc as (HI & Hplus & Hminus & Hstar & Hslash & Hl & Hr).
  unfold classify_token. rewrite Hd.
  assert (builtins.startswith (String c t) "INVALID:" = false) as ->.
  { unfold builtins.startswith. cbn [String.prefix].
    by destruct (ascii_dec "I" c). }
  rewrite bool_decide_eq_false_2.
  2:{ unfold OPERATORS. rewrite !elem_of_union, !elem_of_singleton.
      intros [[[[=] | [=]] | [=]] | [=]]; congruence. }
  rewrite bool_decide_eq_false_2 by (intros [=]; congruence).
  rewrite bool_decide_eq_false_2 by (intros [=]; congruence).
  done.
Qed.

Lemma classify_invalid t : classify_token ("INVALID:" +:+ t) = "INVALID".
Proof.
  unfold classify_token.
  change (builtins.startswith ("INVALID:" +:+ t) "INVALID:")
    with (String.prefix "" t).
  by destruct t.
Qed.

(** The tokens of [tokenize_postfix] are operands, operators and tokens
    tagged as invalid: none is classified as a parenthesis. *)
Lemma tokenize_postfix_classes expression :
  Forall (λ t, classify_token t = "INVALID" ∨ countable_token t)
         (tokenize_postfix expression).
Proof.
  unfold tokenize_postfix. apply Forall_bind, Forall_forall.
  intros token _. unfold postfix_token, compose. cbv beta zeta.
  case_bool_decide; [|constructor].
  case_bool_decide as Hop.
  { apply Forall_singleton. right. right. by apply classify_operator. }
  destruct (builtins.isdigit _) eqn:Hd.
  - apply Forall_singleton. right. left. by apply classify_digit.
  - apply Forall_singleton. left. apply classify_invalid.
Qed.

(** The loop of [PostfixValidator.validate] follows [count_operands]. *)
Lemma postfix_validate_loop_spec tokens : ∀ pda counter trace,
  Forall countable_token tokens →
  match count_operands tokens counter with
  | inr operator =>
      is_valid (PostfixValidator.validate_loop pda tokens counter trace).2 = false
      ∧ message (PostfixValidator.validate_loop pda tokens counter trace).2
        = "Not enough operands for operator '" +:+ operator +:+ "'"
  | inl c =>
      (0 < counter ∨ tokens ≠ [] → 0 < c)
      ∧ (is_valid (PostfixValidator.validate_loop pda tokens counter trace).2 = true
         ↔ c = 1)
      ∧ (1 < c →
         message (PostfixValidator.validate_loop pda tokens counter trace).2
         = "Too many operands (" +:+ pretty c +:+ ") - missing operators")
      ∧ (c = 0 →
         message (PostfixValidator.validate_loop pda tokens counter trace).2
         = "No result - expression is incomplete")
  end.
Proof.
  induction tokens as [|token rest IH]; intros pda counter trace Hall.
  - simpl. unfold PostfixValidator.final_check.
    repeat case_bool_decide; simpl; repeat split; try done; try lia.
    intros [?|?]; [lia|done].
  - apply Forall_cons in Hall as [Htok Hrest].
    cbn [count_operands PostfixValidator.validate_loop].
    destruct Htok as [Hc | Hc]; rewrite Hc.
    + rewrite (bool_decide_eq_false_2 ("OPERAND" = "INVALID")) by done.
      rewrite (bool_decide_eq_false_2 ("OPERAND" = "LPAREN")) by done.
      rewrite (bool_decide_eq_false_2 ("OPERAND" = "RPAREN")) by done.
      rewrite (bool_decide_eq_true_2 ("OPERAND" = "OPERAND")) by done.
      cbn [orb].
      specialize (IH (set_stack pda (push (stack pda) "X")) (counter + 1)
        (trace ++ [CountStep token "OPERAND" false (counter + 1)
           (get_contents (stack (set_stack pda (push (stack pda) "X"))))])
        Hrest).
      destruct (count_operands rest (counter + 1)) as [c|op]; [|done].
      destruct IH as (Hpos & Hrest'). split; [|done]. intros _. apply Hpos. lia.
    + rewrite (bool_decide_eq_false_2 ("OPERATOR" = "INVALID")) by done.
      rewrite (bool_decide_eq_false_2 ("OPERATOR" = "LPAREN")) by done.
      rewrite (bool_decide_eq_false_2 ("OPERATOR" = "RPAREN")) by done.
      rewrite (bool_decide_eq_false_2 ("OPERATOR" = "OPERAND")) by done.
      cbn [orb].
      case_bool_decide as Hlow; [done|].
      specialize (IH (set_stack pda (pop (stack pda)).1) (counter - 1)
        (trace ++ [CountStep token "OPERATOR" false (counter - 1)
           (get_contents (stack (set_stack pda (pop (stack pda)).1)))])
        Hrest).
      destruct (count_operands rest (counter - 1)) as [c|op]; [|done].
      destruct IH as (Hpos & Hrest'). split; [|done]. intros _. apply Hpos. lia.
Qed.

(** [validate_postfix] builds its validator without error. *)
Lemma validate_postfix_fresh expression :
  ∃ pda0, PostfixValidator.__init__ = Some pda0
          ∧ validate_postfix expression
            = Some (PostfixValidator.validate pda0 expression).2.
Proof.
  unfold validate_postfix.
  destruct PostfixValidator.__init__ as [pda0|] eqn:Hinit.
  - by exists pda0.
  - by vm_compute in Hinit.
Qed.

(** [PostfixValidator.validate], whatever state the validator is in, on an
    input with at least one token. *)
Lemma postfix_validate_counts
    (pda : PushdownAutomata) (expression : string) :
  Forall countable_token (tokenize_postfix expression) →
  tokenize_postfix expression ≠ [] →
  match count_operands (tokenize_postfix expression) 0 with
  | inr operator =>
      is_valid (PostfixValidator.validate pda expression).2 = false
      ∧ message (PostfixValidator.validate pda expression).2
        = "Not enough operands for operator '" +:+ operator +:+ "'"
  | inl c =>
      0 < c
      ∧ (is_valid (PostfixValidator.validate pda expression).2 = true ↔ c = 1)
      ∧ (1 < c →
         message (PostfixValidator.validate pda expression).2
         = "Too many operands (" +:+ pretty c +:+ ") - missing operators")
  end.
Proof.
  intros Hall Hne.
  unfold PostfixValidator.validate, PostfixValidator.validate_tokens.
  rewrite bool_decide_eq_false_2 by done.
  pose proof (postfix_validate_loop_spec (tokenize_postfix expression)
                (reset pda) 0 [] Hall) as Hloop.
  destruct (count_operands (tokenize_postfix expression) 0) as [c|operator];
    [|done].
  destruct Hloop as (Hpos & Hiff & Hmany & _).
  split; [apply Hpos; by right|]. done.
Qed.

(** C5 (amended).  For a postfix input whose tokens are operands and
    operators: without tokens the result is invalid with the message "Empty
    expression"; with tokens, the validator follows the counter of the
    specification: an operator that finds the counter below 2 gives the
    not-enough-operands message for that operator; otherwise the counter at
    the end is positive, the result is valid exactly when it is 1, and a
    counter above 1 gives the too-many-operands message. *)
Theorem C5_postfix_counter_discipline (expression : string) :
  Forall countable_token (tokenize_postfix expression) →
  ∃ r,
    validate_postfix expression = Some r
    ∧ (tokenize_postfix expression = [] →
       is_valid r = false ∧ message r = "Empty expression")
    ∧ (tokenize_postfix expression ≠ [] →
       match count_operands (tokenize_postfix expression) 0 with
       | inr operator =>
           is_valid r = false
           ∧ message r
             = "Not enough operands for operator '" +:+ operator +:+ "'"
       | inl c =>
           0 < c
           ∧ (is_valid r = true ↔ c = 1)
           ∧ (1 < c →
              message r
              = "Too many operands (" +:+ pretty c +:+ ") - missing operators")
       end).
Proof.
  intros Hall.
  destruct (validate_postfix_fresh expression) as (pda0 & _ & ->).
  eexists. split; [reflexivity|]. split.
  - intros Hempty.
    unfold PostfixValidator.validate, PostfixValidator.validate_tokens.
    by rewrite Hempty.
  - intros Hne. by apply postfix_validate_counts.
Qed.

(** C5 (amended) at the input [3 4]. *)
Lemma C5_witness :
  ∃ r,
    validate_postfix "3 4" = Some r
    ∧ (tokenize_postfix "3 4" = [] →
       is_valid r = false ∧ message r = "Empty expression")
    ∧ (tokenize_postfix "3 4" ≠ [] →
       match count_operands (tokenize_postfix "3 4") 0 with
       | inr operator =>
           is_valid r = false
           ∧ message r
             = "Not enough operands for operator '" +:+ operator +:+ "'"
       | inl c =>
           0 < c
           ∧ (is_valid r = true ↔ c = 1)
           ∧ (1 < c →
              message r
              = "Too many operands (" +:+ pretty c +:+ ") - missing operators")
       end).
Proof.
  apply (C5_postfix_counter_discipline "3 4").
  change (tokenize_postfix "3 4") with ["3"; "4"].
  repeat (apply Forall_cons; split); try apply Forall_nil_2;
    left; vm_compute; reflexivity.
Defined.

(** C5 as stated fails at the empty input: its tokens are all operands and
    operators, the counter is 0, and the message is "Empty expression", not
    the incomplete-expression message. *)
Lemma C5_counterexample :
  Forall countable_token (tokenize_postfix "")
  ∧ count_operands (tokenize_postfix "") 0 = inl 0
  ∧ message <$> validate_postfix "" = Some "Empty expression"
  ∧ message <$> validate_postfix ""
    ≠ Some "No result - expression is incomplete".
Proof.
  split; [by constructor|]. split; [reflexivity|].
  split; [vm_compute; reflexivity|]. vm_compute. discriminate.
Qed.

(** The scenarios of the specification. *)
Lemma postfix_examples :
  (λ r, (is_valid r, message r)) <$> validate_postfix "3 4 +"
  = Some (true, "Valid postfix expression")
  ∧ (λ r, (is_valid r, message r)) <$> validate_postfix "3 4"
    = Some (false, "Too many operands (2) - missing operators")
  ∧ (λ r, (is_valid r, message r)) <$> validate_postfix "+"
    = Some (false, "Not enough operands for operator '+'").
Proof. repeat split; vm_compute; reflexivity. Qed.

(** The loops of the two validators agree on the same tokens. *)
Lemma prefix_postfix_loops tokens : ∀ pda1 pda2 counter trace1 trace2,
  Forall (λ t, classify_token t = "INVALID" ∨ countable_token t) tokens →
  is_valid (PrefixValidator.validate_loop pda1 tokens counter trace1).2
  = is_valid (PostfixValidator.validate_loop pda2 tokens counter trace2).2
  ∧ final_state (PrefixValidator.validate_loop pda1 tokens counter trace1).2
    = final_state (PostfixValidator.validate_loop pda2 tokens counter trace2).2
  ∧ (is_valid (PrefixValidator.validate_loop pda1 tokens counter trace1).2 = false →
     message (PrefixValidator.validate_loop pda1 tokens counter trace1).2
     = message (PostfixValidator.validate_loop pda2 tokens counter trace2).2)
  ∧ (is_valid (PrefixValidator.validate_loop pda1 tokens counter trace1).2 = true →
     message (PrefixValidator.validate_loop pda1 tokens counter trace1).2
     = "Valid prefix expression"
     ∧ message (PostfixValidator.validate_loop pda2 tokens counter trace2).2
       = "Valid postfix expression").
Proof.
  induction tokens as [|token rest IH]; intros pda1 pda2 counter trace1 trace2 Hall.
  - simpl. unfold PrefixValidator.final_check, PostfixValidator.final_check.
    repeat case_bool_decide; simpl; done.
  - apply Forall_cons in Hall as [Htok Hrest].
    cbn [PrefixValidator.validate_loop PostfixValidator.validate_loop].
    destruct Htok as [Hc | [Hc | Hc]]; rewrite Hc.
    + rewrite (bool_decide_eq_true_2 ("INVALID" = "INVALID")) by done. done.
    + rewrite (bool_decide_eq_false_2 ("OPERAND" = "INVALID")) by done.
      rewrite (bool_decide_eq_false_2 ("OPERAND" = "LPAREN")) by done.
      rewrite (bool_decide_eq_false_2 ("OPERAND" = "RPAREN")) by done.
      rewrite (bool_decide_eq_true_2 ("OPERAND" = "OPERAND")) by done.
      cbn [orb]. by apply IH.
    + rewrite (bool_decide_eq_false_2 ("OPERATOR" = "INVALID")) by done.
      rewrite (bool_decide_eq_false_2 ("OPERATOR" = "LPAREN")) by done.
      rewrite (bool_decide_eq_false_2 ("OPERATOR" = "RPAREN")) by done.
      rewrite (bool_decide_eq_false_2 ("OPERATOR" = "OPERAND")) by done.
      cbn [orb]. case_bool_decide; [done|]. by apply IH.
Qed.

(** C7.  The prefix validator and the postfix validator's code from the
    emptiness check on, run on the reversed tokens of the expression, agree
    on the verdict and on the final state; they give the same message when
    they reject and their own notation's message when they accept.  No
    token is classified as a parenthesis: both reject a parenthesis as an
    invalid token. *)
Theorem C7_prefix_is_postfix_discipline_on_reversed_tokens
    (pda1 pda2 : PushdownAutomata) (expression : string) :
  is_valid (PrefixValidator.validate pda1 expression).2
  = is_valid (PostfixValidator.validate_tokens pda2
                (reverse (tokenize_prefix expression))).2
  ∧ final_state (PrefixValidator.validate pda1 expression).2
    = final_state (PostfixValidator.validate_tokens pda2
                     (reverse (tokenize_prefix expression))).2
  ∧ (is_valid (PrefixValidator.validate pda1 expression).2 = false →
     message (PrefixValidator.validate pda1 expression).2
     = message (PostfixValidator.validate_tokens pda2
                  (reverse (tokenize_prefix expression))).2)
  ∧ (is_valid (PrefixValidator.validate pda1 expression).2 = true →
     message (PrefixValidator.validate pda1 expression).2
     = "Valid prefix expression"
     ∧ message (PostfixValidator.validate_tokens pda2
                  (reverse (tokenize_prefix expression))).2
       = "Valid postfix expression")
  ∧ Forall (λ t, classify_token t ≠ "LPAREN" ∧ classify_token t ≠ "RPAREN")
           (tokenize_prefix expression).
Proof.
  assert (Forall (λ t, classify_token t = "INVALID" ∨ countable_token t)
                 (tokenize_prefix expression)) as Hall
    by apply tokenize_postfix_classes.
  assert (Forall (λ t, classify_token t ≠ "LPAREN" ∧ classify_token t ≠ "RPAREN")
                 (tokenize_prefix expression)) as Hnoparen.
  { eapply Forall_impl; [exact Hall|]. intros t [Hc | [Hc | Hc]]; by rewrite Hc. }
  unfold PrefixValidator.validate, PostfixValidator.validate_tokens.
  destruct (tokenize_prefix expression) as [|t ts] eqn:Htokens.
  { rewrite reverse_nil. simpl. done. }
  rewrite (bool_decide_eq_false_2 (t :: ts = [])) by done.
  rewrite (bool_decide_eq_false_2 (reverse (t :: ts) = [])).
  2:{ intros Hrev. apply (f_equal length) in Hrev.
      rewrite length_reverse in Hrev. done. }
  apply Forall_reverse in Hall.
  destruct (prefix_postfix_loops (reverse (t :: ts)) (reset pda1) pda2 0 [] [] Hall)
    as (H1 & H2 & H3 & H4).
  done.
Qed.


(** * Properties of the converter *)

Lemma append_cons a s1 s2 : String a s1 +:+ s2 = String a (s1 +:+ s2).
Proof. reflexivity. Qed.

Lemma append_nil_l s : "" +:+ s = s.
Proof. reflexivity. Qed.

Lemma append_nil_r s : s +:+ "" = s.
Proof. induction s as [|a s IH]; [done|]. by rewrite append_cons, IH. Qed.

Lemma append_assoc s1 s2 s3 : (s1 +:+ s2) +:+ s3 = s1 +:+ (s2 +:+ s3).
Proof.
  induction s1 as [|a s1 IH]; [done|]. by rewrite !append_cons, IH.
Qed.

Lemma digits_cases d :
  d ∈ DIGITS ↔
  d = "0" ∨ d = "1" ∨ d = "2" ∨ d = "3" ∨ d = "4" ∨ d = "5" ∨ d = "6"
  ∨ d = "7" ∨ d = "8" ∨ d = "9".
Proof.
  unfold DIGITS. rewrite !elem_of_union, !elem_of_singleton. tauto.
Qed.

Lemma operators_cases op :
  op ∈ OPERATORS ↔ op = "+" ∨ op = "-" ∨ op = "*" ∨ op = "/".
Proof.
  unfold OPERATORS. rewrite !elem_of_union, !elem_of_singleton. tauto.
Qed.

(** A pending number is flushed by a character that is not a digit and by
    the end of the text. *)
Lemma tokenize_flush rest tokens cur :
  cur ≠ "" → no_digit_head rest →
  tokenize_infix_go rest tokens cur = tokenize_infix_go rest (tokens ++ [cur]) "".
Proof.
  intros Hcur Hrest. destruct rest as [|c rest]; cbn [tokenize_infix_go].
  - rewrite (bool_decide_eq_true_2 (cur ≠ "")) by done.
    by rewrite (bool_decide_eq_false_2 ("" ≠ "")) by (by intros []).
  - simpl in Hrest. rewrite (bool_decide_eq_false_2 _ Hrest).
    rewrite (bool_decide_eq_true_2 (cur ≠ "")) by done.
    by rewrite (bool_decide_eq_false_2 ("" ≠ "")) by (by intros []).
Qed.

Lemma tokenize_digit d rest tokens :
  d ∈ DIGITS → no_digit_head rest →
  tokenize_infix_go (d +:+ rest) tokens ""
  = tokenize_infix_go rest (tokens ++ [d]) "".
Proof.
  intros Hd Hrest.
  assert (∃ c, d = String c "") as [c ->].
  { apply digits_cases in Hd. naive_solver. }
  rewrite append_cons, append_nil_l. cbn [tokenize_infix_go].
  rewrite (bool_decide_eq_true_2 _ Hd). rewrite append_nil_l.
  by apply tokenize_flush.
Qed.

Lemma tokenize_operator op rest tokens :
  op ∈ OPERATORS →
  tokenize_infix_go (op +:+ rest) tokens ""
  = tokenize_infix_go rest (tokens ++ [op]) "".
Proof.
  intros Hop.
  assert (∃ c, op = String c "") as [c ->].
  { apply operators_cases in Hop. naive_solver. }
  rewrite append_cons, append_nil_l. cbn [tokenize_infix_go].
  rewrite (bool_decide_eq_false_2 (String c "" ∈ DIGITS)).
  2:{ apply operators_cases in Hop. rewrite digits_cases. naive_solver. }
  rewrite (bool_decide_eq_false_2 ("" ≠ "")) by (by intros []).
  by rewrite (bool_decide_eq_true_2 _ Hop).
Qed.

Lemma tokenize_parenthesis (c : ascii) rest tokens :
  c = "("%char ∨ c = ")"%char →
  tokenize_infix_go (String c rest) tokens ""
  = tokenize_infix_go rest (tokens ++ [String c ""]) "".
Proof.
  intros Hc. cbn [tokenize_infix_go].
  rewrite (bool_decide_eq_false_2 (String c "" ∈ DIGITS)).
  2:{ rewrite digits_cases. naive_solver. }
  rewrite (bool_decide_eq_false_2 ("" ≠ "")) by (by intros []).
  rewrite (bool_decide_eq_false_2 (String c "" ∈ OPERATORS)).
  2:{ rewrite operators_cases. naive_solver. }
  rewrite (bool_decide_eq_true_2 (String c "" ∈ PARENTHESES)); [done|].
  unfold PARENTHESES. rewrite elem_of_union, !elem_of_singleton. naive_solver.
Qed.

Lemma operator_no_digit_head op rest :
  op ∈ OPERATORS → no_digit_head (op +:+ rest).
Proof.
  intros Hop. apply operators_cases in Hop.
  destruct Hop as [-> | [-> | [-> | ->]]]; simpl; rewrite digits_cases; naive_solver.
Qed.

(** [tokenize_infix] reads the text of an expression back as its tokens. *)
Lemma tokenize_infix_string e : well_formed e → ∀ rest tokens,
  no_digit_head rest →
  tokenize_infix_go (infix_string e +:+ rest) tokens ""
  = tokenize_infix_go rest (tokens ++ infix_tokens e) "".
Proof.
  induction e as [d | op l IHl r IHr]; intros Hwf rest tokens Hrest;
    cbn [infix_string infix_tokens].
  - by apply tokenize_digit.
  - destruct Hwf as (Hop & Hl & Hr).
    rewrite !append_assoc, !append_cons, !append_nil_l.
    rewrite tokenize_parenthesis by (by left).
    rewrite IHl by (done || by apply operator_no_digit_head).
    rewrite tokenize_operator by done.
    rewrite IHr.
    + rewrite tokenize_parenthesis by (by right).
      by rewrite <- !app_assoc.
    + done.
    + simpl. rewrite digits_cases. naive_solver.
Qed.

Lemma tokenize_infix_infix_string e :
  well_formed e → tokenize_infix (infix_string e) = infix_tokens e.
Proof.
  intros Hwf. unfold tokenize_infix.
  rewrite <- (append_nil_r (infix_string e)).
  by rewrite tokenize_infix_string.
Qed.

Lemma run_app symbols1 symbols2 : ∀ pda,
  run pda (symbols1 ++ symbols2) = run pda symbols1 ≫= λ pda1, run pda1 symbols2.
Proof.
  induction symbols1 as [|s symbols1 IH]; intros pda; simpl; [done|].
  destruct (step pda s) as [[pda1 [|error]]|]; simpl; [apply IH | done | done].
Qed.

Lemma find_infix_operand q top :
  q = q_start ∨ q = q_expect_operand →
  ∃ i t, list_find (λ t, matches t (Some q) (Some "OPERAND") top = true)
                   infix_transitions = Some (i, t)
         ∧ stack_action t = "none" ∧ to_state t = q_expect_operator.
Proof.
  intros [-> | ->]; eexists _, _; (split; [vm_compute; reflexivity|]); done.
Qed.

(** The steps of the infix automaton, by kind of token. *)
Lemma step_infix_operand pda q st :
  infix_at pda q st → q = q_start ∨ q = q_expect_operand →
  ∃ pda', step pda "OPERAND" = Some (pda', StepOk)
          ∧ infix_at pda' q_expect_operator st.
Proof.
  intros (Htrans & Herr & Hcur & Hst) Hq. unfold step.
  unfold _find_transition, first_match.
  cbn [transitions current_state stack set_execution_history].
  rewrite Htrans, Hcur.
  destruct (find_infix_operand q (peek (stack pda)) Hq) as (i & t & -> & Hact & Hto).
  cbn [mbind option_bind]. rewrite Hact, Hto. eexists. split; [reflexivity|].
  by repeat split.
Qed.

Lemma find_infix_lparen q top :
  q = q_start ∨ q = q_expect_operand →
  ∃ i t, list_find (λ t, matches t (Some q) (Some "LPAREN") top = true)
                   infix_transitions = Some (i, t)
         ∧ stack_action t = "push:(" ∧ to_state t = q_expect_operand.
Proof.
  intros [-> | ->]; eexists _, _; (split; [vm_compute; reflexivity|]); done.
Qed.

Lemma step_infix_lparen pda q st :
  infix_at pda q st → q = q_start ∨ q = q_expect_operand →
  ∃ pda', step pda "LPAREN" = Some (pda', StepOk)
          ∧ infix_at pda' q_expect_operand (st ++ ["("]).
Proof.
  intros (Htrans & Herr & Hcur & Hst) Hq. unfold step.
  unfold _find_transition, first_match.
  cbn [transitions current_state stack set_execution_history].
  rewrite Htrans, Hcur.
  destruct (find_infix_lparen q (peek (stack pda)) Hq) as (i & t & -> & Hact & Hto).
  cbn [mbind option_bind]. rewrite Hact, Hto. eexists. split; [reflexivity|].
  repeat split; try done. simpl. by rewrite Hst.
Qed.

Lemma find_infix_operator top :
  ∃ i t, list_find (λ t, matches t (Some q_expect_operator) (Some "OPERATOR")
                           top = true)
                   infix_transitions = Some (i, t)
         ∧ stack_action t = "none" ∧ to_state t = q_expect_operand.
Proof. eexists _, _; (split; [vm_compute; reflexivity|]); done. Qed.

Lemma step_infix_operator pda st :
  infix_at pda q_expect_operator st →
  ∃ pda', step pda "OPERATOR" = Some (pda', StepOk)
          ∧ infix_at pda' q_expect_operand st.
Proof.
  intros (Htrans & Herr & Hcur & Hst). unfold step.
  unfold _find_transition, first_match.
  cbn [transitions current_state stack set_execution_history].
  rewrite Htrans, Hcur.
  destruct (find_infix_operator (peek (stack pda))) as (i & t & -> & Hact & Hto).
  cbn [mbind option_bind]. rewrite Hact, Hto. eexists. split; [reflexivity|].
  by repeat split.
Qed.

Lemma find_infix_rparen :
  ∃ i t, list_find (λ t, matches t (Some q_expect_operator) (Some "RPAREN")
                           (Some "(") = true)
                   infix_transitions = Some (i, t)
         ∧ stack_action t = "pop" ∧ to_state t = q_expect_operator.
Proof. eexists _, _; (split; [vm_compute; reflexivity|]); done. Qed.

Lemma step_infix_rparen pda st :
  infix_at pda q_expect_operator (st ++ ["("]) → st ≠ [] →
  ∃ pda', step pda "RPAREN" = Some (pda', StepOk)
          ∧ infix_at pda' q_expect_operator st.
Proof.
  intros (Htrans & Herr & Hcur & Hst) Hne. unfold step.
  unfold _find_transition, first_match.
  cbn [transitions current_state stack set_execution_history].
  rewrite Htrans, Hcur. unfold peek. rewrite Hst, last_snoc.
  destruct find_infix_rparen as (i & t & -> & Hact & Hto).
  cbn [mbind option_bind]. rewrite Hact, Hto.
  unfold _execute_stack_action.
  rewrite (bool_decide_eq_false_2 ("pop" = "none")) by done.
  change (builtins.startswith "pop" "push:") with false. cbv iota.
  rewrite (bool_decide_eq_true_2 ("pop" = "pop")) by done.
  cbn [stack set_execution_history].
  unfold pop. rewrite Hst, last_snoc, removelast_last.
  rewrite bool_decide_eq_true_2.
  2:{ rewrite length_app. simpl. destruct st; [done|simpl; lia]. }
  simpl. eexists. split; [reflexivity|]. by repeat split.
Qed.

Lemma classify_digits d : d ∈ DIGITS → classify_token d = "OPERAND".
Proof.
  rewrite digits_cases. intros H.
  repeat (destruct H as [-> | H]; [reflexivity|]). by subst.
Qed.

Lemma run_cons_ok pda symbol rest pda1 :
  step pda symbol = Some (pda1, StepOk) →
  run pda (symbol :: rest) = run pda1 rest.
Proof. intros H. simpl. by rewrite H. Qed.

(** The infix automaton runs through the tokens of an expression and is
    left expecting an operator, with the stack it started from. *)
Lemma run_infix_tokens e : well_formed e → ∀ pda q st,
  infix_at pda q st → q = q_start ∨ q = q_expect_operand → st ≠ [] →
  ∃ pda', run pda (classify_token <$> infix_tokens e) = Some pda'
          ∧ infix_at pda' q_expect_operator st.
Proof.
  induction e as [d | op l IHl r IHr]; intros Hwf pda q st Hat Hq Hst;
    cbn [infix_tokens].
  - rewrite fmap_cons, (classify_digits d Hwf).
    destruct (step_infix_operand pda q st Hat Hq) as (pda' & Hstep & Hat').
    rewrite (run_cons_ok _ _ _ _ Hstep). by exists pda'.
  - destruct Hwf as (Hop & Hl & Hr). cbn [app].
    destruct (step_infix_lparen pda q st Hat Hq) as (pda1 & Hstep1 & Hat1).
    destruct (IHl Hl pda1 q_expect_operand (st ++ ["("]) Hat1)
      as (pda2 & Hrun2 & Hat2); [by right | by destruct st |].
    destruct (step_infix_operator pda2 _ Hat2) as (pda3 & Hstep3 & Hat3).
    destruct (IHr Hr pda3 q_expect_operand (st ++ ["("]) Hat3)
      as (pda4 & Hrun4 & Hat4); [by right | by destruct st |].
    destruct (step_infix_rparen pda4 st Hat4 Hst) as (pda5 & Hstep5 & Hat5).
    exists pda5. split; [|done].
    rewrite fmap_cons. change (classify_token "(") with "LPAREN".
    rewrite (run_cons_ok _ _ _ _ Hstep1).
    rewrite fmap_app, run_app, Hrun2. cbn [mbind option_bind].
    rewrite fmap_cons, (classify_operator op Hop).
    rewrite (run_cons_ok _ _ _ _ Hstep3).
    rewrite fmap_app, run_app, Hrun4. cbn [mbind option_bind].
    rewrite fmap_cons. change (classify_token ")") with "RPAREN".
    by rewrite (run_cons_ok _ _ _ _ Hstep5).
Qed.

Lemma infix_tokens_classes e :
  well_formed e →
  Forall (λ t, classify_token t ≠ "INVALID") (infix_tokens e).
Proof.
  induction e as [d | op l IHl r IHr]; intros Hwf; cbn [infix_tokens].
  - apply Forall_singleton. by rewrite (classify_digits d Hwf).
  - destruct Hwf as (Hop & Hl & Hr).
    apply Forall_app. split; [apply Forall_singleton; vm_compute; discriminate|].
    apply Forall_app. split; [by apply IHl|].
    apply Forall_app. split.
    { apply Forall_singleton. by rewrite (classify_operator op Hop). }
    apply Forall_app. split; [by apply IHr|].
    apply Forall_singleton. vm_compute. discriminate.
Qed.

Lemma infix_tokens_not_nil e : infix_tokens e ≠ [].
Proof. by destruct e. Qed.

(** The fully parenthesized infix form of an expression is a valid infix
    expression. *)
Lemma validate_infix_infix_string e :
  well_formed e →
  ∃ r, validate_infix (infix_string e) = Some r ∧ is_valid r = true.
Proof.
  intros Hwf.
  destruct infix_init_spec as (pda0 & Hinit & Hq0 & Htrans & Herr & Hz).
  unfold validate_infix, InfixValidator.validate. rewrite Hinit. clear Hinit.
  cbn [mbind option_bind].
  rewrite (tokenize_infix_infix_string e Hwf).
  rewrite bool_decide_eq_false_2 by apply infix_tokens_not_nil.
  assert (infix_at (reset pda0) q_start ["Z0"]) as Hat.
  { repeat split; try done. simpl. by rewrite Hz. }
  assert (is_Some (current_state (reset pda0))) as Hcur.
  { simpl. rewrite Hq0. eauto. }
  pose proof (infix_validate_loop_run (infix_tokens e) (reset pda0) [] Hcur
                (infix_tokens_classes e Hwf)) as Hloop.
  destruct (run_infix_tokens e Hwf (reset pda0) q_start ["Z0"] Hat)
    as (pda' & Hrun & (_ & _ & Hcur' & Hst')); [by left | done |].
  rewrite Hrun in Hloop. destruct Hloop as (Hsome & trace' & ->).
  destruct (infix_final_check_spec pda' trace' Hsome) as (r & -> & Hiff & _).
  exists r. split; [done|]. apply Hiff. rewrite Hcur'. split; [done|].
  unfold is_empty. by rewrite Hst'.
Qed.

Import expression_converter.
Import ExpressionConverter.

Lemma is_operand_digit d : d ∈ DIGITS → _is_operand d = true.
Proof.
  rewrite digits_cases. intros H.
  repeat (destruct H as [-> | H]; [reflexivity|]). by subst.
Qed.

Lemma is_operator_operator op :
  op ∈ OPERATORS → _is_operand op = false ∧ _is_operator op = true.
Proof.
  rewrite operators_cases. intros H.
  repeat (destruct H as [-> | H]; [by vm_compute|]). subst. by vm_compute.
Qed.

(** The body of the Shunting-yard loop on the tokens of a fully
    parenthesized expression. *)
Lemma shunt_token_digit yield d output ops :
  d ∈ DIGITS → shunt_token yield d output ops = (output ++ [d], ops).
Proof. intros Hd. unfold shunt_token. by rewrite (is_operand_digit d Hd). Qed.

Lemma shunt_token_lparen yield output ops :
  shunt_token yield "(" output ops = (output, ops ++ ["("]).
Proof. reflexivity. Qed.

Lemma shunt_token_operator op output ops :
  op ∈ OPERATORS →
  shunt_token yields_to op output (ops ++ ["("]) = (output, ops ++ ["("; op]).
Proof.
  intros Hop. destruct (is_operator_operator op Hop) as [H1 H2].
  unfold shunt_token. rewrite H1, H2, reverse_snoc. cbn [pop_while].
  unfold yields_to at 1.
  rewrite (bool_decide_eq_false_2 ("(" ≠ "(")) by (by intros []).
  cbn [andb]. rewrite reverse_cons, reverse_involutive.
  by rewrite <- app_assoc.
Qed.

Lemma shunt_token_rparen yield op output ops :
  op ∈ OPERATORS →
  shunt_token yield ")" output (ops ++ ["("; op]) = (output ++ [op], ops).
Proof.
  intros Hop.
  assert (op ≠ "(") as Hne.
  { apply operators_cases in Hop. naive_solver. }
  unfold shunt_token.
  change (_is_operand ")") with false. change (_is_operator ")") with false.
  cbv iota.
  rewrite (bool_decide_eq_false_2 (")" = "(")) by done.
  rewrite (bool_decide_eq_true_2 (")" = ")")) by done.
  change (ops ++ ["("; op]) with (ops ++ ["("] ++ [op]).
  rewrite app_assoc, !reverse_snoc. cbn [pop_while].
  rewrite (bool_decide_eq_true_2 (op ≠ "(")) by done.
  rewrite (bool_decide_eq_false_2 ("(" ≠ "(")) by (by intros []).
  cbn [tail]. by rewrite reverse_involutive.
Qed.

(** The Shunting-yard loop turns the infix tokens of an expression into its
    postfix tokens, and leaves the operator stack as it found it. *)
Lemma shunt_loop_infix_tokens e : well_formed e → ∀ rest output ops steps,
  ∃ steps',
    shunt_loop (infix_tokens e ++ rest) output ops steps
    = shunt_loop rest (output ++ postfix_tokens e) ops steps'.
Proof.
  induction e as [d | op l IHl r IHr]; intros Hwf rest output ops steps;
    cbn [infix_tokens postfix_tokens].
  - cbn [app shunt_loop]. rewrite (shunt_token_digit _ d output ops Hwf).
    eexists. reflexivity.
  - destruct Hwf as (Hop & Hl & Hr).
    rewrite <- !app_assoc. cbn [app shunt_loop].
    rewrite shunt_token_lparen.
    edestruct (IHl Hl) as [steps1 ->].
    cbn [shunt_loop]. rewrite (shunt_token_operator op _ ops Hop).
    edestruct (IHr Hr) as [steps2 ->].
    cbn [shunt_loop]. rewrite (shunt_token_rparen _ op _ ops Hop).
    eexists. by rewrite <- !app_assoc.
Qed.

Lemma classify_operator_inv t : classify_token t = "OPERATOR" → t ∈ OPERATORS.
Proof.
  unfold classify_token.
  destruct (builtins.startswith t "INVALID:"); [done|].
  case_bool_decide; [done|].
  repeat (case_bool_decide; [done|]).
  by destruct (builtins.isdigit t).
Qed.

(** A postfix input that is accepted has only operands and operators, and
    its counter ends at 1. *)
Lemma postfix_valid_inv tokens : ∀ pda counter trace,
  Forall (λ t, classify_token t = "INVALID" ∨ countable_token t) tokens →
  is_valid (PostfixValidator.validate_loop pda tokens counter trace).2 = true →
  Forall countable_token tokens ∧ count_operands tokens counter = inl 1.
Proof.
  induction tokens as [|token rest IH]; intros pda counter trace Hall.
  - simpl. unfold PostfixValidator.final_check.
    repeat case_bool_decide; simpl; try done. intros _. split; [done|]. by subst.
  - apply Forall_cons in Hall as [Htok Hrest].
    cbn [count_operands PostfixValidator.validate_loop].
    destruct Htok as [Hc | [Hc | Hc]]; rewrite Hc.
    + rewrite (bool_decide_eq_true_2 ("INVALID" = "INVALID")) by done. done.
    + rewrite (bool_decide_eq_false_2 ("OPERAND" = "INVALID")) by done.
      rewrite (bool_decide_eq_false_2 ("OPERAND" = "LPAREN")) by done.
      rewrite (bool_decide_eq_false_2 ("OPERAND" = "RPAREN")) by done.
      rewrite (bool_decide_eq_true_2 ("OPERAND" = "OPERAND")) by done.
      cbn [orb]. intros Hvalid. apply IH in Hvalid as [Hcount Hone]; [|done].
      split; [|done]. apply Forall_cons. split; [by left | done].
    + rewrite (bool_decide_eq_false_2 ("OPERATOR" = "INVALID")) by done.
      rewrite (bool_decide_eq_false_2 ("OPERATOR" = "LPAREN")) by done.
      rewrite (bool_decide_eq_false_2 ("OPERATOR" = "RPAREN")) by done.
      rewrite (bool_decide_eq_false_2 ("OPERATOR" = "OPERAND")) by done.
      cbn [orb]. case_bool_decide; [done|].
      intros Hvalid. apply IH in Hvalid as [Hcount Hone]; [|done].
      split; [|done]. apply Forall_cons. split; [by right | done].
Qed.

(** A stack of at least two has two elements on top. *)
Lemma two_on_top {A} (st : list A) :
  2 ≤ length st → ∃ st0 l r, st = st0 ++ [l; r].
Proof.
  intros Hlen.
  destruct (decide (st = [])) as [-> | Hne]; [simpl in Hlen; lia|].
  destruct (exists_last Hne) as (st1 & r & ->).
  rewrite length_app in Hlen. simpl in Hlen.
  destruct (decide (st1 = [])) as [-> | Hne1]; [simpl in Hlen; lia|].
  destruct (exists_last Hne1) as (st0 & l & ->).
  exists st0, l, r. by rewrite <- app_assoc.
Qed.

(** The loop of [postfix_to_infix] builds the expressions that the tokens
    denote: the value stack holds their infix text. *)
Lemma build_infix_loop_parse tokens : ∀ (st : list expr) steps c,
  Forall (λ t, t ∈ DIGITS ∨ t ∈ OPERATORS) tokens →
  Forall well_formed st →
  count_operands tokens (length st) = inl c →
  ∃ st' steps',
    length st' = c ∧ Forall well_formed st'
    ∧ concat (postfix_tokens <$> st) ++ tokens = concat (postfix_tokens <$> st')
    ∧ build_infix_loop tokens (infix_string <$> st) steps
      = inl (infix_string <$> st', steps').
Proof.
  induction tokens as [|token rest IH]; intros st steps c Htokens Hst Hcount.
  - simpl in *. injection Hcount as <-. exists st, steps.
    by rewrite app_nil_r.
  - apply Forall_cons in Htokens as [Htok Hrest].
    cbn [count_operands build_infix_loop] in *.
    destruct Htok as [Hd | Hop].
    + rewrite (classify_digits token Hd) in Hcount.
      rewrite (bool_decide_eq_true_2 ("OPERAND" = "OPERAND")) in Hcount by done.
      rewrite (is_operand_digit token Hd).
      destruct (IH (st ++ [Num token])
                   (steps ++ [PushOperand token ((infix_string <$> st) ++ [token])])
                   c Hrest) as (st' & steps' & Hlen & Hwf & Hcat & Hloop).
      * apply Forall_app. split; [done|]. by apply Forall_singleton.
      * by rewrite length_app.
      * exists st', steps'. split; [done|]. split; [done|]. split.
        -- rewrite <- Hcat, fmap_app, concat_app. simpl.
           by rewrite <- app_assoc.
        -- rewrite <- Hloop. by rewrite fmap_app.
    + destruct (is_operator_operator token Hop) as [H1 H2].
      rewrite (classify_operator token Hop) in Hcount.
      rewrite (bool_decide_eq_false_2 ("OPERATOR" = "OPERAND")) in Hcount by done.
      rewrite H1, H2.
      case_bool_decide as Hlow; [done|].
      destruct (two_on_top st) as (st0 & l & r & ->); [lia|].
      apply Forall_app in Hst as [Hst0 Hlr].
      apply Forall_cons in Hlr as [Hl Hr]. apply Forall_cons in Hr as [Hr _].
      rewrite (bool_decide_eq_false_2 (length _ < 2))
        by (rewrite length_fmap; lia).
      change [l; r] with ([l] ++ [r]).
      rewrite app_assoc, !fmap_app. cbn [fmap list_fmap].
      rewrite last_snoc, removelast_last, last_snoc, removelast_last.
      destruct (IH (st0 ++ [Bin token l r])
                   (steps ++ [ApplyOperator token (infix_string l) (infix_string r)
                      ("(" +:+ infix_string l +:+ token +:+ infix_string r +:+ ")")
                      ((infix_string <$> st0)
                       ++ ["(" +:+ infix_string l +:+ token +:+ infix_string r +:+ ")"])])
                   c Hrest) as (st' & steps' & Hlen & Hwf & Hcat & Hloop).
      * apply Forall_app. split; [done|]. apply Forall_singleton.
        exact (conj Hop (conj Hl Hr)).
      * rewrite <- Hcount. f_equal. rewrite !length_app. simpl. lia.
      * exists st', steps'. split; [done|]. split; [done|]. split.
        -- rewrite <- Hcat, !fmap_app, !concat_app. simpl.
           by rewrite <- !app_assoc.
        -- rewrite <- Hloop. by rewrite fmap_app.
Qed.

(** A valid postfix expression whose operands are single digits is the
    postfix form of a well-formed expression, and [postfix_to_infix] writes
    that expression fully parenthesized. *)
Lemma postfix_to_infix_parse s :
  is_valid <$> validate_postfix s = Some true →
  Forall (λ t, classify_token t = "OPERAND" → t ∈ DIGITS) (tokenize_postfix s) →
  ∃ e, well_formed e
       ∧ tokenize_postfix s = postfix_tokens e
       ∧ expression_converter.postfix_to_infix s = Some (infix_string e).
Proof.
  intros Hvalid Hdigits.
  destruct (validate_postfix_fresh s) as (pda0 & _ & Hfresh).
  unfold expression_converter.postfix_to_infix, ExpressionConverter.postfix_to_infix.
  rewrite Hfresh in *. cbn [fmap option_fmap option_map mbind option_bind] in *.
  injection Hvalid as Hvalid. rewrite Hvalid. cbn [negb].
  unfold PostfixValidator.validate, PostfixValidator.validate_tokens in Hvalid.
  pose proof (tokenize_postfix_classes s) as Hclasses.
  destruct (tokenize_postfix s) as [|t ts] eqn:Htokens; [done|].
  rewrite (bool_decide_eq_false_2 (t :: ts = [])) in Hvalid by done.
  apply postfix_valid_inv in Hvalid as [Hcountable Hcount]; [|done].
  assert (Forall (λ t, t ∈ DIGITS ∨ t ∈ OPERATORS) (t :: ts)) as Hkinds.
  { apply Forall_forall. intros x Hx.
    rewrite Forall_forall in Hcountable, Hdigits.
    destruct (Hcountable x Hx) as [Hc | Hc].
    - left. by apply Hdigits.
    - right. by apply classify_operator_inv. }
  destruct (build_infix_loop_parse (t :: ts) [] [InputTokens (t :: ts)] 1
              Hkinds (Forall_nil_2 _) Hcount)
    as (st' & steps' & Hlen & Hwf & Hcat & Hloop).
  destruct st' as [|e [|e' st']]; try done.
  apply Forall_cons in Hwf as [Hwf _].
  exists e. split; [done|]. split.
  - simpl in Hcat. by rewrite app_nil_r in Hcat.
  - change (infix_string <$> []) with (@nil string) in Hloop.
    rewrite Hloop. reflexivity.
Qed.

(** The infix form written by [postfix_to_infix] goes back to the postfix
    tokens, joined by single spaces. *)
Lemma infix_to_postfix_infix_string e :
  well_formed e →
  expression_converter.infix_to_postfix (infix_string e)
  = Some (builtins.join " " (postfix_tokens e)).
Proof.
  intros Hwf.
  destruct (validate_infix_infix_string e Hwf) as (r & Hr & Hvalid).
  unfold expression_converter.infix_to_postfix, ExpressionConverter.infix_to_postfix.
  rewrite Hr. cbn [mbind option_bind]. rewrite Hvalid. cbn [negb].
  rewrite (tokenize_infix_infix_string e Hwf).
  destruct (shunt_loop_infix_tokens e Hwf [] [] [] [InputTokens (infix_tokens e)])
    as [steps' Hloop].
  rewrite app_nil_r in Hloop. rewrite Hloop. cbn [shunt_loop app].
  rewrite reverse_nil, app_nil_r. reflexivity.
Qed.

(** C6 (amended).  For a valid postfix expression [s] whose operands are
    single digits, [postfix_to_infix] succeeds and [infix_to_postfix] of its
    result is the tokens of [s] joined by single spaces; this is [s] itself
    exactly when [s] is written that way. *)
Theorem C6_round_trip_rejoins_tokens (s : string) :
  is_valid <$> validate_postfix s = Some true →
  Forall (λ t, classify_token t = "OPERAND" → t ∈ DIGITS) (tokenize_postfix s) →
  ∃ infix,
    expression_converter.postfix_to_infix s = Some infix
    ∧ expression_converter.infix_to_postfix infix
      = Some (builtins.join " " (tokenize_postfix s))
    ∧ (expression_converter.infix_to_postfix infix = Some s
       ↔ s = builtins.join " " (tokenize_postfix s)).
Proof.
  intros Hvalid Hdigits.
  destruct (postfix_to_infix_parse s Hvalid Hdigits)
    as (e & Hwf & Htokens & Hinfix).
  exists (infix_string e). split; [done|].
  rewrite Htokens, (infix_to_postfix_infix_string e Hwf).
  split; [done|]. split; [by intros [= ->] | by intros <-].
Qed.

(** C6 (amended) at the input [3 4 + 2 *]. *)
Lemma C6_witness :
  ∃ infix,
    expression_converter.postfix_to_infix "3 4 + 2 *" = Some infix
    ∧ expression_converter.infix_to_postfix infix
      = Some (builtins.join " " (tokenize_postfix "3 4 + 2 *"))
    ∧ (expression_converter.infix_to_postfix infix = Some "3 4 + 2 *"
       ↔ "3 4 + 2 *" = builtins.join " " (tokenize_postfix "3 4 + 2 *")).
Proof.
  apply (C6_round_trip_rejoins_tokens "3 4 + 2 *").
  - vm_compute. reflexivity.
  - change (tokenize_postfix "3 4 + 2 *") with ["3"; "4"; "+"; "2"; "*"].
    repeat (apply Forall_cons; split); try apply Forall_nil_2;
      intros H; first [ by vm_compute in H | apply digits_cases; tauto ].
Defined.

(** C6 as stated fails at a valid input with two spaces between tokens:
    the round trip of [3  4 +] is [3 4 +]. *)
Lemma C6_counterexample :
  is_valid <$> validate_postfix "3  4 +" = Some true
  ∧ Forall (λ t, classify_token t = "OPERAND" → t ∈ DIGITS)
           (tokenize_postfix "3  4 +")
  ∧ expression_converter.postfix_to_infix "3  4 +"
      ≫= expression_converter.infix_to_postfix = Some "3 4 +"
  ∧ expression_converter.postfix_to_infix "3  4 +"
      ≫= expression_converter.infix_to_postfix ≠ Some "3  4 +".
Proof.
  split; [vm_compute; reflexivity|]. split.
  - change (tokenize_postfix "3  4 +") with ["3"; "4"; "+"].
    repeat (apply Forall_cons; split); try apply Forall_nil_2;
      intros H; first [ by vm_compute in H | apply digits_cases; tauto ].
  - split; [vm_compute; reflexivity|]. vm_compute. discriminate.
Qed.

(** The scenarios of the specification. *)
Lemma conversion_examples :
  expression_converter.infix_to_postfix "(3+4)*2" = Some "3 4 + 2 *"
  ∧ expression_converter.infix_to_prefix "(3+4)*2" = Some "* + 3 4 2"
  ∧ expression_converter.postfix_to_infix "3 4 + 2 *" = Some "((3+4)*2)"
  ∧ expression_converter.prefix_to_infix "* + 3 4 2" = "((3+4)*2)".
Proof. repeat split; vm_compute; reflexivity. Qed.


Import precedence_grammar tree_notions program_notions validator_notions shape_notions parser_notions trie_notions.

(** * The Shunting-yard conversion and precedence *)

Lemma pop_while_app f l1 : ∀ output l2,
  Forall (λ x, f x = true) l1 →
  match l2 with [] => True | top :: _ => f top = false end →
  pop_while f output (l1 ++ l2) = (output ++ l1, l2).
Proof.
  induction l1 as [|x l1 IH]; intros output l2 Hall Hstop.
  - rewrite app_nil_r. destruct l2 as [|top l2]; [done|].
    cbn [app pop_while]. by rewrite Hstop.
  - apply Forall_cons in Hall as [Hx Hall].
    cbn [app pop_while]. rewrite Hx, IH by done.
    by rewrite <- app_assoc.
Qed.

Lemma additive_operator op :
  additive op → _is_operand op = false ∧ _is_operator op = true.
Proof. intros [-> | ->]; by vm_compute. Qed.

Lemma multiplicative_operator op :
  multiplicative op → _is_operand op = false ∧ _is_operator op = true.
Proof. intros [-> | ->]; by vm_compute. Qed.

(** What an operator on top of the stack does when an operator arrives. *)
Lemma yields_to_additive op top :
  additive op → additive top ∨ multiplicative top → yields_to op top = true.
Proof.
  intros [-> | ->] [[-> | ->] | [-> | ->]]; vm_compute; reflexivity.
Qed.

Lemma yields_to_multiplicative op top :
  multiplicative op → multiplicative top → yields_to op top = true.
Proof. intros [-> | ->] [-> | ->]; vm_compute; reflexivity. Qed.

Lemma is_operator_cases top :
  _is_operator top = true → additive top ∨ multiplicative top.
Proof.
  unfold _is_operator, PRECEDENCE. intros H. apply bool_decide_eq_true in H.
  destruct H as [n H].
  repeat (apply lookup_insert_Some in H as [[<- _] | [_ H]];
          [unfold additive, multiplicative; tauto|]).
  done.
Qed.

Lemma yields_to_multiplicative_stop op top :
  multiplicative op → ¬ multiplicative top → yields_to op top = false.
Proof.
  intros Hop Htop. unfold yields_to.
  destruct (_is_operator top) eqn:Hoper; [|by rewrite andb_false_r].
  apply is_operator_cases in Hoper as [Hadd | Hmul]; [|done].
  destruct Hop as [-> | ->], Hadd as [-> | ->]; vm_compute; reflexivity.
Qed.

Lemma yields_to_lparen yield_op : yields_to yield_op "(" = false.
Proof. reflexivity. Qed.

Lemma shunt_token_number yield number output ops :
  builtins.isdigit number = true →
  shunt_token yield number output ops = (output ++ [number], ops).
Proof. intros Hd. unfold shunt_token, _is_operand. by rewrite Hd. Qed.

(** An operator pops the operators [pending] above [ops] and takes their
    place. *)
Lemma shunt_token_pops yield op output ops pending :
  _is_operand op = false → _is_operator op = true →
  Forall (λ top, yield op top = true) pending →
  (∀ top, last ops = Some top → yield op top = false) →
  shunt_token yield op output (ops ++ pending)
  = (output ++ reverse pending, ops ++ [op]).
Proof.
  intros H1 H2 Hall Hstop. unfold shunt_token. rewrite H1, H2.
  rewrite reverse_app.
  rewrite (pop_while_app (yield op) (reverse pending) output (reverse ops)).
  - by rewrite reverse_involutive.
  - by apply Forall_reverse.
  - destruct (reverse ops) as [|top below] eqn:Hrev; [done|].
    apply Hstop. apply (f_equal reverse) in Hrev.
    rewrite reverse_involutive, reverse_cons in Hrev.
    by rewrite Hrev, last_snoc.
Qed.

(** A closing parenthesis pops the operators above the last opening one,
    and removes it. *)
Lemma shunt_token_closes yield output ops pending :
  Forall (λ top, top ≠ "(") pending →
  shunt_token yield ")" output (ops ++ ["("] ++ pending)
  = (output ++ reverse pending, ops).
Proof.
  intros Hall. unfold shunt_token.
  change (_is_operand ")") with false. change (_is_operator ")") with false.
  cbv iota.
  rewrite (bool_decide_eq_false_2 (")" = "(")) by done.
  rewrite (bool_decide_eq_true_2 (")" = ")")) by done.
  rewrite !reverse_app.
  rewrite <- app_assoc.
  rewrite (pop_while_app _ (reverse pending) output (reverse ["("] ++ reverse ops)).
  - change (reverse ["("]) with ["("]. cbn [app tail].
    by rewrite reverse_involutive.
  - apply Forall_reverse. eapply Forall_impl; [exact Hall|].
    intros top Htop. by apply bool_decide_eq_true_2.
  - cbn. by rewrite bool_decide_eq_false_2 by (by intros []).
Qed.

Lemma shunt_loop_cons token rest output ops steps :
  ∃ steps',
    shunt_loop (token :: rest) output ops steps
    = shunt_loop rest (shunt_token yields_to token output ops).1
                 (shunt_token yields_to token output ops).2 steps'.
Proof.
  cbn [shunt_loop]. destruct (shunt_token yields_to token output ops).
  eexists. reflexivity.
Qed.

(** The loop reads an atom and leaves the operator stack as it was; it
    reads a term or a sum and leaves the last operators pending on the
    stack: the output with them is the postfix form. *)
Lemma shunt_loop_grammar :
  (∀ a, atom_ok a → ∀ rest output ops steps,
     ∃ steps',
       shunt_loop (atom_tokens a ++ rest) output ops steps
       = shunt_loop rest (output ++ atom_postfix a) ops steps')
  ∧ (∀ t, term_ok t → ∀ rest output ops steps,
       term_level ops →
       ∃ pending output' steps',
         term_pending pending
         ∧ shunt_loop (term_tokens t ++ rest) output ops steps
           = shunt_loop rest output' (ops ++ pending) steps'
         ∧ output' ++ reverse pending = output ++ term_postfix t)
  ∧ (∀ e, sum_ok e → ∀ rest output ops steps,
       sum_level ops →
       ∃ pending output' steps',
         sum_pending pending
         ∧ shunt_loop (sum_tokens e ++ rest) output ops steps
           = shunt_loop rest output' (ops ++ pending) steps'
         ∧ output' ++ reverse pending = output ++ sum_postfix e).
Proof.
  apply grammar_ind.
  - intros number Hok rest output ops steps.
    cbn [atom_tokens atom_postfix app].
    destruct (shunt_loop_cons number rest output ops steps) as [steps' ->].
    rewrite (shunt_token_number _ number output ops Hok). by eexists.
  - intros e IH Hok rest output ops steps.
    cbn [atom_tokens atom_postfix]. cbn [atom_ok] in Hok.
    rewrite <- !app_assoc. cbn [app].
    destruct (shunt_loop_cons "(" (sum_tokens e ++ ")" :: rest) output ops steps)
      as [steps1 ->].
    change (shunt_token yields_to "(" output ops) with (output, ops ++ ["("]).
    cbn [fst snd].
    destruct (IH Hok (")" :: rest) output (ops ++ ["("]) steps1)
      as (pending & output' & steps2 & Hpending & -> & Hout).
    { intros top. rewrite last_snoc. by intros [= <-]. }
    destruct (shunt_loop_cons ")" rest output' ((ops ++ ["("]) ++ pending) steps2)
      as [steps3 ->].
    rewrite <- (app_assoc ops).
    rewrite shunt_token_closes.
    + cbn [fst snd]. rewrite Hout. by eexists.
    + eapply Forall_impl; [exact Hpending|].
      intros op [[-> | ->] | [-> | ->]]; done.
  - intros a IH Hok rest output ops steps _.
    cbn [term_tokens term_postfix]. cbn [term_ok] in Hok.
    destruct (IH Hok rest output ops steps) as [steps' ->].
    exists [], (output ++ atom_postfix a), steps'.
    split; [by left|]. by rewrite !app_nil_r.
  - intros t IHt op a IHa (Ht & Hop & Ha) rest output ops steps Hlevel.
    cbn [term_tokens term_postfix].
    rewrite <- !app_assoc. cbn [app].
    destruct (IHt Ht (op :: atom_tokens a ++ rest) output ops steps Hlevel)
      as (pending & output1 & steps1 & Hpending & -> & Hout1).
    destruct (shunt_loop_cons op (atom_tokens a ++ rest) output1
                (ops ++ pending) steps1) as [steps2 ->].
    destruct (multiplicative_operator op Hop) as [H1 H2].
    rewrite (shunt_token_pops yields_to op output1 ops pending H1 H2).
    + cbn [fst snd]. rewrite Hout1.
      destruct (IHa Ha rest (output ++ term_postfix t) (ops ++ [op]) steps2)
        as [steps3 ->].
      exists [op], ((output ++ term_postfix t) ++ atom_postfix a), steps3.
      split; [right; by exists op|]. split; [done|].
      by rewrite <- !app_assoc.
    + destruct Hpending as [-> | (m & Hm & ->)]; [done|].
      apply Forall_singleton. by apply yields_to_multiplicative.
    + intros top Htop. apply yields_to_multiplicative_stop; [done|].
      by apply Hlevel.
  - intros t IH Hok rest output ops steps Hlevel.
    cbn [sum_tokens sum_postfix]. cbn [sum_ok] in Hok.
    destruct (IH Hok rest output ops steps) as
      (pending & output' & steps' & Hpending & -> & Hout).
    { intros top Htop Hmul. apply Hlevel in Htop as ->.
      by destruct Hmul. }
    exists pending, output', steps'. split; [|done].
    destruct Hpending as [-> | (m & Hm & ->)]; [apply Forall_nil_2|].
    apply Forall_singleton. by right.
  - intros e IHe op t IHt (He & Hop & Ht) rest output ops steps Hlevel.
    cbn [sum_tokens sum_postfix].
    rewrite <- !app_assoc. cbn [app].
    destruct (IHe He (op :: term_tokens t ++ rest) output ops steps Hlevel)
      as (pending & output1 & steps1 & Hpending & -> & Hout1).
    destruct (shunt_loop_cons op (term_tokens t ++ rest) output1
                (ops ++ pending) steps1) as [steps2 ->].
    destruct (additive_operator op Hop) as [H1 H2].
    rewrite (shunt_token_pops yields_to op output1 ops pending H1 H2).
    + cbn [fst snd]. rewrite Hout1.
      destruct (IHt Ht rest (output ++ sum_postfix e) (ops ++ [op]) steps2)
        as (pending' & output2 & steps3 & Hpending' & -> & Hout2).
      { intros top. rewrite last_snoc. intros [= <-] Hmul.
        destruct Hop as [-> | ->], Hmul as [? | ?]; done. }
      exists (op :: pending'), output2, steps3.
      split.
      { apply Forall_cons. split; [by left|].
        destruct Hpending' as [-> | (m & Hm & ->)]; [apply Forall_nil_2|].
        apply Forall_singleton. by right. }
      split; [by rewrite <- app_assoc|].
      rewrite reverse_cons, app_assoc, Hout2. by rewrite <- !app_assoc.
    + eapply Forall_impl; [exact Hpending|].
      intros top Htop. by apply yields_to_additive.
    + intros top Htop. apply Hlevel in Htop as ->. reflexivity.
Qed.

Lemma shunt_loop_sum e steps :
  sum_ok e → (shunt_loop (sum_tokens e) [] [] steps).1 = sum_postfix e.
Proof.
  intros Hok. destruct shunt_loop_grammar as (_ & _ & Hsum).
  destruct (Hsum e Hok [] [] [] steps)
    as (pending & output' & steps' & Hpending & Hloop & Hout); [done|].
  rewrite app_nil_r in Hloop. rewrite Hloop. cbn [shunt_loop fst app].
  done.
Qed.

Lemma classify_additive op : additive op → classify_token op = "OPERATOR".
Proof. by intros [-> | ->]. Qed.

Lemma classify_multiplicative op :
  multiplicative op → classify_token op = "OPERATOR".
Proof. by intros [-> | ->]. Qed.

(** The infix automaton reads an atom, a term or a sum from a state that
    expects an operand, and is left expecting an operator with the stack
    it started from. *)
Lemma run_grammar :
  (∀ a, atom_ok a → ∀ pda q st,
     infix_at pda q st → q = q_start ∨ q = q_expect_operand → st ≠ [] →
     ∃ pda', run pda (classify_token <$> atom_tokens a) = Some pda'
             ∧ infix_at pda' q_expect_operator st)
  ∧ (∀ t, term_ok t → ∀ pda q st,
       infix_at pda q st → q = q_start ∨ q = q_expect_operand → st ≠ [] →
       ∃ pda', run pda (classify_token <$> term_tokens t) = Some pda'
               ∧ infix_at pda' q_expect_operator st)
  ∧ (∀ e, sum_ok e → ∀ pda q st,
       infix_at pda q st → q = q_start ∨ q = q_expect_operand → st ≠ [] →
       ∃ pda', run pda (classify_token <$> sum_tokens e) = Some pda'
               ∧ infix_at pda' q_expect_operator st).
Proof.
  apply grammar_ind.
  - intros number Hok pda q st Hat Hq Hst. cbn [atom_tokens].
    rewrite fmap_cons, (classify_digit number Hok).
    destruct (step_infix_operand pda q st Hat Hq) as (pda' & Hstep & Hat').
    rewrite (run_cons_ok _ _ _ _ Hstep). by exists pda'.
  - intros e IH Hok pda q st Hat Hq Hst. cbn [atom_tokens app].
    destruct (step_infix_lparen pda q st Hat Hq) as (pda1 & Hstep1 & Hat1).
    destruct (IH Hok pda1 q_expect_operand (st ++ ["("]) Hat1)
      as (pda2 & Hrun2 & Hat2); [by right | by destruct st |].
    destruct (step_infix_rparen pda2 st Hat2 Hst) as (pda3 & Hstep3 & Hat3).
    exists pda3. split; [|done].
    rewrite fmap_cons. change (classify_token "(") with "LPAREN".
    rewrite (run_cons_ok _ _ _ _ Hstep1).
    rewrite fmap_app, run_app, Hrun2. cbn [mbind option_bind].
    rewrite fmap_cons. change (classify_token ")") with "RPAREN".
    by rewrite (run_cons_ok _ _ _ _ Hstep3).
  - intros a IH Hok. by apply IH.
  - intros t IHt op a IHa (Ht & Hop & Ha) pda q st Hat Hq Hst.
    cbn [term_tokens].
    destruct (IHt Ht pda q st Hat Hq Hst) as (pda1 & Hrun1 & Hat1).
    destruct (step_infix_operator pda1 _ Hat1) as (pda2 & Hstep2 & Hat2).
    destruct (IHa Ha pda2 q_expect_operand st Hat2) as (pda3 & Hrun3 & Hat3);
      [by right | done |].
    exists pda3. split; [|done].
    rewrite fmap_app, run_app, Hrun1. cbn [mbind option_bind app].
    rewrite fmap_cons, (classify_multiplicative op Hop).
    by rewrite (run_cons_ok _ _ _ _ Hstep2).
  - intros t IH Hok. by apply IH.
  - intros e IHe op t IHt (He & Hop & Ht) pda q st Hat Hq Hst.
    cbn [sum_tokens].
    destruct (IHe He pda q st Hat Hq Hst) as (pda1 & Hrun1 & Hat1).
    destruct (step_infix_operator pda1 _ Hat1) as (pda2 & Hstep2 & Hat2).
    destruct (IHt Ht pda2 q_expect_operand st Hat2) as (pda3 & Hrun3 & Hat3);
      [by right | done |].
    exists pda3. split; [|done].
    rewrite fmap_app, run_app, Hrun1. cbn [mbind option_bind app].
    rewrite fmap_cons, (classify_additive op Hop).
    by rewrite (run_cons_ok _ _ _ _ Hstep2).
Qed.

Lemma grammar_classes :
  (∀ a, atom_ok a →
     Forall (λ t, classify_token t ≠ "INVALID") (atom_tokens a))
  ∧ (∀ t, term_ok t →
       Forall (λ t, classify_token t ≠ "INVALID") (term_tokens t))
  ∧ (∀ e, sum_ok e →
       Forall (λ t, classify_token t ≠ "INVALID") (sum_tokens e)).
Proof.
  apply grammar_ind.
  - intros number Hok. apply Forall_singleton.
    by rewrite (classify_digit number Hok).
  - intros e IH Hok. cbn [atom_tokens].
    apply Forall_app. split; [apply Forall_singleton; vm_compute; discriminate|].
    apply Forall_app. split; [by apply IH|].
    apply Forall_singleton. vm_compute. discriminate.
  - intros a IH Hok. by apply IH.
  - intros t IHt op a IHa (Ht & Hop & Ha). cbn [term_tokens].
    apply Forall_app. split; [by apply IHt|].
    apply Forall_app. split; [|by apply IHa].
    apply Forall_singleton. by rewrite (classify_multiplicative op Hop).
  - intros t IH Hok. by apply IH.
  - intros e IHe op t IHt (He & Hop & Ht). cbn [sum_tokens].
    apply Forall_app. split; [by apply IHe|].
    apply Forall_app. split; [|by apply IHt].
    apply Forall_singleton. by rewrite (classify_additive op Hop).
Qed.

Lemma grammar_not_nil :
  (∀ a, atom_tokens a ≠ []) ∧ (∀ t, term_tokens t ≠ [])
  ∧ (∀ e, sum_tokens e ≠ []).
Proof.
  apply grammar_ind.
  - done.
  - done.
  - done.
  - intros t IHt op a IHa. cbn [term_tokens]. by destruct (term_tokens t).
  - done.
  - intros e IHe op t IHt. cbn [sum_tokens]. by destruct (sum_tokens e).
Qed.

(** An expression whose tokens are those of a sum is a valid infix
    expression. *)
Lemma validate_infix_sum s e :
  sum_ok e → tokenize_infix s = sum_tokens e →
  ∃ r, validate_infix s = Some r ∧ is_valid r = true.
Proof.
  intros Hok Htokens.
  destruct infix_init_spec as (pda0 & Hinit & Hq0 & Htrans & Herr & Hz).
  unfold validate_infix, InfixValidator.validate. rewrite Hinit. clear Hinit.
  cbn [mbind option_bind]. rewrite Htokens.
  destruct grammar_not_nil as (_ & _ & Hne).
  rewrite bool_decide_eq_false_2 by apply Hne.
  assert (infix_at (reset pda0) q_start ["Z0"]) as Hat.
  { repeat split; try done. simpl. by rewrite Hz. }
  assert (is_Some (current_state (reset pda0))) as Hcur.
  { simpl. rewrite Hq0. eauto. }
  destruct grammar_classes as (_ & _ & Hclasses).
  pose proof (infix_validate_loop_run (sum_tokens e) (reset pda0) [] Hcur
                (Hclasses e Hok)) as Hloop.
  destruct run_grammar as (_ & _ & Hrun_sum).
  destruct (Hrun_sum e Hok (reset pda0) q_start ["Z0"] Hat)
    as (pda' & Hrun & (_ & _ & Hcur' & Hst')); [by left | done |].
  rewrite Hrun in Hloop. destruct Hloop as (Hsome & trace' & ->).
  destruct (infix_final_check_spec pda' trace' Hsome) as (r & -> & Hiff & _).
  exists r. split; [done|]. apply Hiff. rewrite Hcur'. split; [done|].
  unfold is_empty. by rewrite Hst'.
Qed.

(** X.  [infix_to_postfix] follows the precedence and the grouping from
    the left of the operators: an expression whose tokens are those of a
    sum of terms is converted to the postfix form of that sum. *)
Theorem infix_to_postfix_follows_precedence (s : string) (e : sum_of_terms) :
  sum_ok e → tokenize_infix s = sum_tokens e →
  expression_converter.infix_to_postfix s
  = Some (builtins.join " " (sum_postfix e)).
Proof.
  intros Hok Htokens.
  destruct (validate_infix_sum s e Hok Htokens) as (r & Hr & Hvalid).
  unfold expression_converter.infix_to_postfix, ExpressionConverter.infix_to_postfix.
  rewrite Hr. cbn [mbind option_bind]. rewrite Hvalid. cbn [negb].
  rewrite Htokens.
  pose proof (shunt_loop_sum e [InputTokens (sum_tokens e)] Hok) as Hloop.
  destruct (shunt_loop (sum_tokens e) [] [] [InputTokens (sum_tokens e)])
    as [output steps].
  cbn [fst] in Hloop. by rewrite Hloop.
Qed.

Lemma infix_to_postfix_follows_precedence_witness :
  expression_converter.infix_to_postfix "3 + 4 * 2 - 10 / (7 - 2)"
  = Some "3 4 2 * + 10 7 2 - / -".
Proof.
  apply (infix_to_postfix_follows_precedence "3 + 4 * 2 - 10 / (7 - 2)"
    (Sum (Sum (Term (Atom (Operand "3"))) "+"
              (Product (Atom (Operand "4")) "*" (Operand "2")))
         "-"
         (Product (Atom (Operand "10")) "/"
            (Group (Sum (Term (Atom (Operand "7"))) "-"
                        (Atom (Operand "2"))))))).
  - vm_compute. repeat split; first [reflexivity | by left | by right].
  - vm_compute. reflexivity.
Defined.

Lemma mirror_app tokens1 tokens2 :
  mirror (tokens1 ++ tokens2) = mirror tokens2 ++ mirror tokens1.
Proof. unfold mirror. by rewrite reverse_app, fmap_app. Qed.

Lemma mirror_number number :
  builtins.isdigit number = true → mirror [number] = [number].
Proof.
  intros Hd. unfold mirror, swap_parenthesis. cbn.
  repeat case_bool_decide; subst; done.
Qed.

Lemma mirror_operator op :
  additive op ∨ multiplicative op → mirror [op] = [op].
Proof. intros [[-> | ->] | [-> | ->]]; reflexivity. Qed.

Lemma yields_to_strict_multiplicative op top :
  multiplicative op → yields_to_strict op top = false.
Proof.
  intros Hop. unfold yields_to_strict.
  destruct (_is_operator top) eqn:Hoper; [|by rewrite andb_false_r].
  apply is_operator_cases in Hoper.
  destruct Hop as [-> | ->], Hoper as [[-> | ->] | [-> | ->]];
    vm_compute; reflexivity.
Qed.

Lemma yields_to_strict_additive op top :
  additive op → multiplicative top → yields_to_strict op top = true.
Proof. intros [-> | ->] [-> | ->]; vm_compute; reflexivity. Qed.

Lemma yields_to_strict_additive_stop op top :
  additive op → ¬ multiplicative top → yields_to_strict op top = false.
Proof.
  intros Hop Htop. unfold yields_to_strict.
  destruct (_is_operator top) eqn:Hoper; [|by rewrite andb_false_r].
  apply is_operator_cases in Hoper as [Hadd | Hmul]; [|done].
  destruct Hop as [-> | ->], Hadd as [-> | ->]; vm_compute; reflexivity.
Qed.

Lemma shunt_loop_prefix_cons token rest output ops :
  shunt_loop_prefix (token :: rest) output ops
  = shunt_loop_prefix rest (shunt_token yields_to_strict token output ops).1
                      (shunt_token yields_to_strict token output ops).2.
Proof.
  cbn [shunt_loop_prefix].
  by destruct (shunt_token yields_to_strict token output ops).
Qed.

(** The loop of [infix_to_prefix] reads the mirrored tokens of an atom and
    leaves the operator stack as it was; it reads those of a term or of a
    sum and leaves their operators pending on the stack: the output with
    them is the prefix form, reversed. *)
Lemma shunt_loop_prefix_grammar :
  (∀ a, atom_ok a → ∀ rest output ops,
     shunt_loop_prefix (mirror (atom_tokens a) ++ rest) output ops
     = shunt_loop_prefix rest (output ++ reverse (atom_prefix a)) ops)
  ∧ (∀ t, term_ok t → ∀ rest output ops,
       ∃ pending output',
         Forall multiplicative pending
         ∧ shunt_loop_prefix (mirror (term_tokens t) ++ rest) output ops
           = shunt_loop_prefix rest output' (ops ++ pending)
         ∧ output' ++ reverse pending = output ++ reverse (term_prefix t))
  ∧ (∀ e, sum_ok e → ∀ rest output ops,
       term_level ops →
       ∃ pending output',
         sum_pending pending
         ∧ shunt_loop_prefix (mirror (sum_tokens e) ++ rest) output ops
           = shunt_loop_prefix rest output' (ops ++ pending)
         ∧ output' ++ reverse pending = output ++ reverse (sum_prefix e)).
Proof.
  apply grammar_ind.
  - intros number Hok rest output ops.
    cbn [atom_tokens atom_prefix]. rewrite (mirror_number number Hok).
    cbn [app]. rewrite shunt_loop_prefix_cons.
    by rewrite (shunt_token_number _ number output ops Hok).
  - intros e IH Hok rest output ops.
    cbn [atom_tokens atom_prefix]. cbn [atom_ok] in Hok.
    rewrite !mirror_app.
    change (mirror [")"]) with ["("]. change (mirror ["("]) with [")"].
    rewrite <- !app_assoc. cbn [app].
    rewrite shunt_loop_prefix_cons.
    change (shunt_token yields_to_strict "(" output ops)
      with (output, ops ++ ["("]).
    cbn [fst snd].
    destruct (IH Hok (")" :: rest) output (ops ++ ["("]))
      as (pending & output' & Hpending & -> & Hout).
    { intros top. rewrite last_snoc. intros [= <-] [? | ?]; done. }
    rewrite shunt_loop_prefix_cons.
    rewrite <- (app_assoc ops).
    rewrite shunt_token_closes.
    + cbn [fst snd]. by rewrite Hout.
    + eapply Forall_impl; [exact Hpending|].
      intros op [[-> | ->] | [-> | ->]]; done.
  - intros a IH Hok rest output ops.
    cbn [term_tokens term_prefix]. cbn [term_ok] in Hok.
    rewrite (IH Hok rest output ops).
    exists [], (output ++ reverse (atom_prefix a)).
    split; [apply Forall_nil_2|]. by rewrite !app_nil_r.
  - intros t IHt op a IHa (Ht & Hop & Ha) rest output ops.
    cbn [term_tokens term_prefix].
    rewrite !mirror_app, (mirror_operator op) by (by right).
    rewrite <- !app_assoc. cbn [app].
    rewrite (IHa Ha).
    rewrite shunt_loop_prefix_cons.
    destruct (multiplicative_operator op Hop) as [H1 H2].
    assert (shunt_token yields_to_strict op
              (output ++ reverse (atom_prefix a)) ops
            = (output ++ reverse (atom_prefix a), ops ++ [op])) as ->.
    { pose proof (shunt_token_pops yields_to_strict op
                    (output ++ reverse (atom_prefix a)) ops [] H1 H2) as Hpop.
      rewrite reverse_nil, !app_nil_r in Hpop.
      apply Hpop; [apply Forall_nil_2|].
      intros top _. by apply yields_to_strict_multiplicative. }
    cbn [fst snd].
    destruct (IHt Ht rest (output ++ reverse (atom_prefix a)) (ops ++ [op]))
      as (pending & output' & Hpending & -> & Hout).
    exists (op :: pending), output'.
    split; [by apply Forall_cons|]. split; [by rewrite <- app_assoc|].
    rewrite reverse_cons, app_assoc, Hout.
    rewrite reverse_cons, reverse_app. by rewrite <- !app_assoc.
  - intros t IH Hok rest output ops Hlevel.
    cbn [sum_tokens sum_prefix]. cbn [sum_ok] in Hok.
    destruct (IH Hok rest output ops) as (pending & output' & Hpending & -> & Hout).
    exists pending, output'. split; [|done].
    eapply Forall_impl; [exact Hpending|]. intros op Hop. by right.
  - intros e IHe op t IHt (He & Hop & Ht) rest output ops Hlevel.
    cbn [sum_tokens sum_prefix].
    rewrite !mirror_app, (mirror_operator op) by (by left).
    rewrite <- !app_assoc. cbn [app].
    destruct (IHt Ht (op :: mirror (sum_tokens e) ++ rest) output ops)
      as (pending & output1 & Hpending & -> & Hout1).
    rewrite shunt_loop_prefix_cons.
    destruct (additive_operator op Hop) as [H1 H2].
    rewrite (shunt_token_pops yields_to_strict op output1 ops pending H1 H2).
    + cbn [fst snd]. rewrite Hout1.
      destruct (IHe He rest (output ++ reverse (term_prefix t)) (ops ++ [op]))
        as (pending' & output2 & Hpending' & -> & Hout2).
      { intros top. rewrite last_snoc. intros [= <-] Hmul.
        destruct Hop as [-> | ->], Hmul as [? | ?]; done. }
      exists (op :: pending'), output2.
      split; [apply Forall_cons; split; [by left | done]|].
      split; [by rewrite <- app_assoc|].
      rewrite reverse_cons, app_assoc, Hout2.
      rewrite reverse_cons, reverse_app. by rewrite <- !app_assoc.
    + eapply Forall_impl; [exact Hpending|].
      intros top Htop. by apply yields_to_strict_additive.
    + intros top Htop. apply yields_to_strict_additive_stop; [done|].
      by apply Hlevel.
Qed.

(** X.  [infix_to_prefix] follows the precedence and the grouping from the
    left of the operators: an expression whose tokens are those of a sum
    of terms is converted to the prefix form of that sum. *)
Theorem infix_to_prefix_follows_precedence (s : string) (e : sum_of_terms) :
  sum_ok e → tokenize_infix s = sum_tokens e →
  expression_converter.infix_to_prefix s
  = Some (builtins.join " " (sum_prefix e)).
Proof.
  intros Hok Htokens.
  destruct (validate_infix_sum s e Hok Htokens) as (r & Hr & Hvalid).
  unfold expression_converter.infix_to_prefix, ExpressionConverter.infix_to_prefix.
  rewrite Hr. cbn [mbind option_bind]. rewrite Hvalid. cbn [negb].
  rewrite Htokens. cbn [success result_expression].
  destruct shunt_loop_prefix_grammar as (_ & _ & Hsum).
  destruct (Hsum e Hok [] [] []) as (pending & output' & Hpending & Hloop & Hout);
    [done|].
  rewrite app_nil_r in Hloop. fold (mirror (sum_tokens e)). rewrite Hloop.
  cbn [shunt_loop_prefix app]. rewrite Hout. cbn [app].
  by rewrite reverse_involutive.
Qed.

Lemma infix_to_prefix_follows_precedence_witness :
  expression_converter.infix_to_prefix "3 + 4 * 2 - 10 / (7 - 2)"
  = Some "- + 3 * 4 2 / 10 - 7 2".
Proof.
  apply (infix_to_prefix_follows_precedence "3 + 4 * 2 - 10 / (7 - 2)"
    (Sum (Sum (Term (Atom (Operand "3"))) "+"
              (Product (Atom (Operand "4")) "*" (Operand "2")))
         "-"
         (Product (Atom (Operand "10")) "/"
            (Group (Sum (Term (Atom (Operand "7"))) "-"
                        (Atom (Operand "2"))))))).
  - vm_compute. repeat split; first [reflexivity | by left | by right].
  - vm_compute. reflexivity.
Defined.

(** * Expressions as trees *)

Lemma decimal_isdigit d : decimal d = true → builtins.isdigit d = true.
Proof.
  unfold decimal. intros H. apply andb_true_iff in H as [Hne Hall].
  apply bool_decide_eq_true in Hne.
  destruct d as [|c d]; [done|]. unfold builtins.isdigit.
  clear Hne. revert Hall. generalize (String c d). clear c d.
  induction s as [|c s IH]; [done|]. cbn [builtins.all_chars].
  intros H. apply andb_true_iff in H as [Hc Hs].
  rewrite (IH Hs), andb_true_r.
  apply bool_decide_eq_true in Hc. apply digits_cases in Hc.
  repeat (destruct Hc as [[= ->] | Hc]; [reflexivity|]).
  by injection Hc as ->.
Qed.

Lemma decimal_operands_ok e : decimal_operands e → tree_ok e.
Proof.
  induction e as [d | op l IHl r IHr]; cbn [decimal_operands tree_ok].
  - apply decimal_isdigit.
  - intros (Hop & Hl & Hr). auto.
Qed.

Lemma classify_operand_inv t :
  classify_token t = "OPERAND" → builtins.isdigit t = true.
Proof.
  unfold classify_token.
  destruct (builtins.startswith t "INVALID:"); [done|].
  repeat (case_bool_decide; [done|]).
  by destruct (builtins.isdigit t).
Qed.

(** The operands that are classified as such are decimal: so are the
    operands of the tree. *)
Lemma tree_decimal e :
  tree_ok e →
  Forall (λ t, classify_token t = "OPERAND" → decimal t = true)
         (postfix_tokens e) →
  decimal_operands e.
Proof.
  induction e as [d | op l IHl r IHr]; cbn [tree_ok postfix_tokens decimal_operands].
  - intros Hd Hall. apply Forall_cons in Hall as [Hall _]. apply Hall.
    by apply classify_digit.
  - intros (Hop & Hl & Hr) Hall.
    apply Forall_app in Hall as [Hall_l Hall].
    apply Forall_app in Hall as [Hall_r _]. auto.
Qed.

Lemma operators_split op :
  op ∈ OPERATORS → additive op ∨ multiplicative op.
Proof.
  rewrite operators_cases. unfold additive, multiplicative. tauto.
Qed.

(** The atom of a tree has the tokens of the tree. *)
Lemma to_atom_spec e :
  tree_ok e →
  atom_ok (to_atom e)
  ∧ atom_tokens (to_atom e) = infix_tokens e
  ∧ atom_postfix (to_atom e) = postfix_tokens e
  ∧ atom_prefix (to_atom e) = prefix_tokens e.
Proof.
  induction e as [d | op l IHl r IHr]; cbn [tree_ok to_atom].
  - done.
  - intros (Hop & Hl & Hr).
    destruct (IHl Hl) as (Hl1 & Hl2 & Hl3 & Hl4).
    destruct (IHr Hr) as (Hr1 & Hr2 & Hr3 & Hr4).
    case_bool_decide as Hmul.
    + cbn. rewrite Hl2, Hr2, Hl3, Hr3, Hl4, Hr4.
      repeat split; try done. by rewrite <- !app_assoc.
    + cbn. rewrite Hl2, Hr2, Hl3, Hr3, Hl4, Hr4.
      repeat split; try done.
      * apply operators_split in Hop as [? | ?]; done.
      * by rewrite <- !app_assoc.
Qed.

(** The tree of a sum has its postfix and prefix forms. *)
Lemma grammar_expr :
  (∀ a, atom_ok a →
     tree_ok (atom_expr a)
     ∧ postfix_tokens (atom_expr a) = atom_postfix a
     ∧ prefix_tokens (atom_expr a) = atom_prefix a)
  ∧ (∀ t, term_ok t →
       tree_ok (term_expr t)
       ∧ postfix_tokens (term_expr t) = term_postfix t
       ∧ prefix_tokens (term_expr t) = term_prefix t)
  ∧ (∀ e, sum_ok e →
       tree_ok (sum_expr e)
       ∧ postfix_tokens (sum_expr e) = sum_postfix e
       ∧ prefix_tokens (sum_expr e) = sum_prefix e).
Proof.
  apply grammar_ind.
  - done.
  - intros e IH Hok. by apply IH.
  - intros a IH Hok. by apply IH.
  - intros t IHt op a IHa (Ht & Hop & Ha).
    destruct (IHt Ht) as (Ht1 & Ht2 & Ht3).
    destruct (IHa Ha) as (Ha1 & Ha2 & Ha3).
    cbn. rewrite Ht2, Ha2, Ht3, Ha3. split; [|done].
    split; [|done]. apply operators_cases. destruct Hop; tauto.
  - intros t IH Hok. by apply IH.
  - intros e IHe op t IHt (He & Hop & Ht).
    destruct (IHe He) as (He1 & He2 & He3).
    destruct (IHt Ht) as (Ht1 & Ht2 & Ht3).
    cbn. rewrite He2, Ht2, He3, Ht3. split; [|done].
    split; [|done]. apply operators_cases. destruct Hop; tauto.
Qed.

(** ** The tokenizer on numbers of several digits *)

Lemma tokenize_digits d : ∀ rest tokens cur,
  builtins.all_chars (λ c, bool_decide (String c "" ∈ DIGITS)) d = true →
  tokenize_infix_go (d +:+ rest) tokens cur
  = tokenize_infix_go rest tokens (cur +:+ d).
Proof.
  induction d as [|c d IH]; intros rest tokens cur Hall.
  - by rewrite append_nil_l, append_nil_r.
  - cbn [builtins.all_chars] in Hall.
    apply andb_true_iff in Hall as [Hc Hd].
    rewrite append_cons. cbn [tokenize_infix_go]. rewrite Hc.
    rewrite (IH _ _ _ Hd). f_equal.
    by rewrite append_assoc.
Qed.

Lemma tokenize_decimal d rest tokens :
  decimal d = true → no_digit_head rest →
  tokenize_infix_go (d +:+ rest) tokens ""
  = tokenize_infix_go rest (tokens ++ [d]) "".
Proof.
  unfold decimal. intros H Hrest. apply andb_true_iff in H as [Hne Hall].
  apply bool_decide_eq_true in Hne.
  rewrite (tokenize_digits d rest tokens "" Hall), append_nil_l.
  by apply tokenize_flush.
Qed.

Lemma tokenize_infix_tree e : decimal_operands e → ∀ rest tokens,
  no_digit_head rest →
  tokenize_infix_go (infix_string e +:+ rest) tokens ""
  = tokenize_infix_go rest (tokens ++ infix_tokens e) "".
Proof.
  induction e as [d | op l IHl r IHr]; intros Hwf rest tokens Hrest;
    cbn [infix_string infix_tokens].
  - by apply tokenize_decimal.
  - destruct Hwf as (Hop & Hl & Hr).
    rewrite !append_assoc, !append_cons, !append_nil_l.
    rewrite tokenize_parenthesis by (by left).
    rewrite IHl by (done || by apply operator_no_digit_head).
    rewrite tokenize_operator by done.
    rewrite IHr.
    + rewrite tokenize_parenthesis by (by right).
      by rewrite <- !app_assoc.
    + done.
    + simpl. rewrite digits_cases. naive_solver.
Qed.

(** [tokenize_infix] reads the text that [postfix_to_infix] writes back as
    the tokens of the tree. *)
Lemma tokenize_infix_infix_tree e :
  decimal_operands e → tokenize_infix (infix_string e) = infix_tokens e.
Proof.
  intros Hwf. unfold tokenize_infix.
  rewrite <- (append_nil_r (infix_string e)).
  by rewrite tokenize_infix_tree.
Qed.

(** ** The loops that build the infix text *)

Lemma build_infix_loop_tree tokens : ∀ (st : list expr) steps c,
  Forall countable_token tokens →
  Forall tree_ok st →
  count_operands tokens (length st) = inl c →
  ∃ st' steps',
    length st' = c ∧ Forall tree_ok st'
    ∧ concat (postfix_tokens <$> st) ++ tokens = concat (postfix_tokens <$> st')
    ∧ build_infix_loop tokens (infix_string <$> st) steps
      = inl (infix_string <$> st', steps').
Proof.
  induction tokens as [|token rest IH]; intros st steps c Htokens Hst Hcount.
  - simpl in *. injection Hcount as <-. exists st, steps.
    by rewrite app_nil_r.
  - apply Forall_cons in Htokens as [Htok Hrest].
    cbn [count_operands build_infix_loop] in *.
    destruct Htok as [Hd | Hop].
    + rewrite Hd in Hcount.
      rewrite (bool_decide_eq_true_2 ("OPERAND" = "OPERAND")) in Hcount by done.
      apply classify_operand_inv in Hd. unfold _is_operand at 1. rewrite Hd.
      destruct (IH (st ++ [Num token])
                   (steps ++ [PushOperand token ((infix_string <$> st) ++ [token])])
                   c Hrest) as (st' & steps' & Hlen & Hwf & Hcat & Hloop).
      * apply Forall_app. split; [done|]. by apply Forall_singleton.
      * by rewrite length_app.
      * exists st', steps'. split; [done|]. split; [done|]. split.
        -- rewrite <- Hcat, fmap_app, concat_app. simpl.
           by rewrite <- app_assoc.
        -- rewrite <- Hloop. by rewrite fmap_app.
    + rewrite Hop in Hcount. apply classify_operator_inv in Hop.
      destruct (is_operator_operator token Hop) as [H1 H2].
      rewrite (bool_decide_eq_false_2 ("OPERATOR" = "OPERAND")) in Hcount by done.
      rewrite H1, H2.
      case_bool_decide as Hlow; [done|].
      destruct (two_on_top st) as (st0 & l & r & ->); [lia|].
      apply Forall_app in Hst as [Hst0 Hlr].
      apply Forall_cons in Hlr as [Hl Hr]. apply Forall_cons in Hr as [Hr _].
      rewrite (bool_decide_eq_false_2 (length _ < 2))
        by (rewrite length_fmap; lia).
      change [l; r] with ([l] ++ [r]).
      rewrite app_assoc, !fmap_app. cbn [fmap list_fmap].
      rewrite last_snoc, removelast_last, last_snoc, removelast_last.
      destruct (IH (st0 ++ [Bin token l r])
                   (steps ++ [ApplyOperator token (infix_string l) (infix_string r)
                      ("(" +:+ infix_string l +:+ token +:+ infix_string r +:+ ")")
                      ((infix_string <$> st0)
                       ++ ["(" +:+ infix_string l +:+ token +:+ infix_string r +:+ ")"])])
                   c Hrest) as (st' & steps' & Hlen & Hwf & Hcat & Hloop).
      * apply Forall_app. split; [done|]. apply Forall_singleton.
        exact (conj Hop (conj Hl Hr)).
      * rewrite <- Hcount. f_equal. rewrite !length_app. simpl. lia.
      * exists st', steps'. split; [done|]. split; [done|]. split.
        -- rewrite <- Hcat, !fmap_app, !concat_app. simpl.
           by rewrite <- !app_assoc.
        -- rewrite <- Hloop. by rewrite fmap_app.
Qed.

(** The loop of [prefix_to_infix] over the reversed tokens: the operand
    on top is the left one. *)
Lemma build_infix_loop_prefix_tree tokens : ∀ (st : list expr) steps c,
  Forall countable_token tokens →
  Forall tree_ok st →
  count_operands tokens (length st) = inl c →
  ∃ st' steps',
    length st' = c ∧ Forall tree_ok st'
    ∧ concat ((reverse ∘ prefix_tokens) <$> st) ++ tokens
      = concat ((reverse ∘ prefix_tokens) <$> st')
    ∧ build_infix_loop_prefix tokens (infix_string <$> st) steps
      = inl (infix_string <$> st', steps').
Proof.
  induction tokens as [|token rest IH]; intros st steps c Htokens Hst Hcount.
  - simpl in *. injection Hcount as <-. exists st, steps.
    by rewrite app_nil_r.
  - apply Forall_cons in Htokens as [Htok Hrest].
    cbn [count_operands build_infix_loop_prefix] in *.
    destruct Htok as [Hd | Hop].
    + rewrite Hd in Hcount.
      rewrite (bool_decide_eq_true_2 ("OPERAND" = "OPERAND")) in Hcount by done.
      apply classify_operand_inv in Hd. unfold _is_operand at 1. rewrite Hd.
      destruct (IH (st ++ [Num token])
                   (steps ++ [PushOperand token ((infix_string <$> st) ++ [token])])
                   c Hrest) as (st' & steps' & Hlen & Hwf & Hcat & Hloop).
      * apply Forall_app. split; [done|]. by apply Forall_singleton.
      * by rewrite length_app.
      * exists st', steps'. split; [done|]. split; [done|]. split.
        -- rewrite <- Hcat, fmap_app, concat_app. simpl.
           by rewrite <- app_assoc.
        -- rewrite <- Hloop. by rewrite fmap_app.
    + rewrite Hop in Hcount. apply classify_operator_inv in Hop.
      destruct (is_operator_operator token Hop) as [H1 H2].
      rewrite (bool_decide_eq_false_2 ("OPERATOR" = "OPERAND")) in Hcount by done.
      rewrite H1, H2.
      case_bool_decide as Hlow; [done|].
      destruct (two_on_top st) as (st0 & r & l & ->); [lia|].
      apply Forall_app in Hst as [Hst0 Hlr].
      apply Forall_cons in Hlr as [Hr Hl]. apply Forall_cons in Hl as [Hl _].
      rewrite (bool_decide_eq_false_2 (length _ < 2))
        by (rewrite length_fmap; lia).
      change [r; l] with ([r] ++ [l]).
      rewrite app_assoc, !fmap_app. cbn [fmap list_fmap].
      rewrite last_snoc, removelast_last, last_snoc, removelast_last.
      destruct (IH (st0 ++ [Bin token l r])
                   (steps ++ [ApplyOperator token (infix_string l) (infix_string r)
                      ("(" +:+ infix_string l +:+ token +:+ infix_string r +:+ ")")
                      ((infix_string <$> st0)
                       ++ ["(" +:+ infix_string l +:+ token +:+ infix_string r +:+ ")"])])
                   c Hrest) as (st' & steps' & Hlen & Hwf & Hcat & Hloop).
      * apply Forall_app. split; [done|]. apply Forall_singleton.
        exact (conj Hop (conj Hl Hr)).
      * rewrite <- Hcount. f_equal. rewrite !length_app. simpl. lia.
      * exists st', steps'. split; [done|]. split; [done|]. split.
        -- rewrite <- Hcat, !fmap_app, !concat_app. simpl.
           rewrite !app_nil_r. unfold compose. cbn [prefix_tokens app].
           rewrite reverse_cons, reverse_app.
           by rewrite <- !app_assoc.
        -- rewrite <- Hloop. by rewrite fmap_app.
Qed.

(** On the postfix form of a tree, the loop of [postfix_to_infix] pushes
    the infix text of the tree; so does the loop of [prefix_to_infix] on
    the reversed prefix form. *)
Lemma build_infix_loop_postfix_tokens e : tree_ok e → ∀ rest st steps,
  ∃ steps',
    build_infix_loop (postfix_tokens e ++ rest) st steps
    = build_infix_loop rest (st ++ [infix_string e]) steps'.
Proof.
  induction e as [d | op l IHl r IHr]; intros Hok rest st steps;
    cbn [postfix_tokens infix_string tree_ok] in *.
  - cbn [app build_infix_loop]. unfold _is_operand at 1. rewrite Hok.
    by eexists.
  - destruct Hok as (Hop & Hl & Hr).
    rewrite <- !app_assoc.
    destruct (IHl Hl (postfix_tokens r ++ [op] ++ rest) st steps) as [steps1 ->].
    destruct (IHr Hr ([op] ++ rest) (st ++ [infix_string l]) steps1)
      as [steps2 ->].
    destruct (is_operator_operator op Hop) as [H1 H2].
    cbn [app build_infix_loop]. rewrite H1, H2.
    rewrite bool_decide_eq_false_2 by (rewrite !length_app; simpl; lia).
    rewrite last_snoc, removelast_last, last_snoc, removelast_last.
    by eexists.
Qed.

Lemma build_infix_loop_prefix_tokens e : tree_ok e → ∀ rest st steps,
  ∃ steps',
    build_infix_loop_prefix (reverse (prefix_tokens e) ++ rest) st steps
    = build_infix_loop_prefix rest (st ++ [infix_string e]) steps'.
Proof.
  induction e as [d | op l IHl r IHr]; intros Hok rest st steps;
    cbn [prefix_tokens infix_string tree_ok] in *.
  - change (reverse [d]) with [d].
    cbn [app build_infix_loop_prefix]. unfold _is_operand at 1. rewrite Hok.
    by eexists.
  - destruct Hok as (Hop & Hl & Hr).
    rewrite !reverse_app. change (reverse [op]) with [op].
    rewrite <- !app_assoc.
    destruct (IHr Hr (reverse (prefix_tokens l) ++ [op] ++ rest) st steps)
      as [steps1 ->].
    destruct (IHl Hl ([op] ++ rest) (st ++ [infix_string r]) steps1)
      as [steps2 ->].
    destruct (is_operator_operator op Hop) as [H1 H2].
    cbn [app build_infix_loop_prefix]. rewrite H1, H2.
    rewrite bool_decide_eq_false_2 by (rewrite !length_app; simpl; lia).
    rewrite last_snoc, removelast_last, last_snoc, removelast_last.
    by eexists.
Qed.

(** ** The operand counter on the forms of a tree *)

Lemma count_postfix_tokens e : tree_ok e → ∀ rest counter,
  count_operands (postfix_tokens e ++ rest) counter
  = count_operands rest (counter + 1).
Proof.
  induction e as [d | op l IHl r IHr]; intros Hok rest counter;
    cbn [postfix_tokens tree_ok] in *.
  - cbn [app count_operands]. by rewrite (classify_digit d Hok).
  - destruct Hok as (Hop & Hl & Hr).
    rewrite <- !app_assoc, (IHl Hl), (IHr Hr).
    cbn [app count_operands]. rewrite (classify_operator op Hop).
    rewrite (bool_decide_eq_false_2 ("OPERATOR" = "OPERAND")) by done.
    rewrite bool_decide_eq_false_2 by lia.
    f_equal. lia.
Qed.

Lemma count_prefix_tokens e : tree_ok e → ∀ rest counter,
  count_operands (reverse (prefix_tokens e) ++ rest) counter
  = count_operands rest (counter + 1).
Proof.
  induction e as [d | op l IHl r IHr]; intros Hok rest counter;
    cbn [prefix_tokens tree_ok] in *.
  - change (reverse [d]) with [d].
    cbn [app count_operands]. by rewrite (classify_digit d Hok).
  - destruct Hok as (Hop & Hl & Hr).
    rewrite !reverse_app. change (reverse [op]) with [op].
    rewrite <- !app_assoc, (IHr Hr), (IHl Hl).
    cbn [app count_operands]. rewrite (classify_operator op Hop).
    rewrite (bool_decide_eq_false_2 ("OPERATOR" = "OPERAND")) by done.
    rewrite bool_decide_eq_false_2 by lia.
    f_equal. lia.
Qed.

Lemma tree_tokens_countable e :
  tree_ok e →
  Forall countable_token (postfix_tokens e)
  ∧ Forall countable_token (prefix_tokens e).
Proof.
  induction e as [d | op l IHl r IHr]; cbn [tree_ok postfix_tokens prefix_tokens].
  - intros Hd. split; apply Forall_singleton; left; by apply classify_digit.
  - intros (Hop & Hl & Hr).
    destruct (IHl Hl) as [Hl1 Hl2]. destruct (IHr Hr) as [Hr1 Hr2].
    split.
    + apply Forall_app. split; [done|]. apply Forall_app. split; [done|].
      apply Forall_singleton. right. by apply classify_operator.
    + apply Forall_cons. split; [right; by apply classify_operator|].
      apply Forall_app. done.
Qed.

(** ** Splitting what was joined *)

Lemma split_go_word t : ∀ cur rest,
  builtins.all_chars (λ c, negb (builtins.char_isspace c)) t = true →
  builtins.split_go cur (t +:+ rest) = builtins.split_go (cur +:+ t) rest.
Proof.
  induction t as [|c t IH]; intros cur rest Hall.
  - by rewrite append_nil_l, append_nil_r.
  - cbn [builtins.all_chars] in Hall.
    apply andb_true_iff in Hall as [Hc Ht]. apply negb_true_iff in Hc.
    rewrite append_cons. cbn [builtins.split_go]. rewrite Hc.
    rewrite (IH _ _ Ht). by rewrite append_assoc.
Qed.

Lemma split_join tokens :
  Forall word tokens → builtins.split (builtins.join " " tokens) = tokens.
Proof.
  unfold builtins.split, builtins.join.
  induction tokens as [|t tokens IH]; intros Hall; [done|].
  apply Forall_cons in Hall as [[Hne Ht] Hall].
  destruct tokens as [|t' tokens].
  - change (String.concat " " [t]) with t. rewrite <- (append_nil_r t) at 1.
    rewrite (split_go_word t "" "" Ht), append_nil_l.
    cbn [builtins.split_go]. by rewrite bool_decide_eq_false_2.
  - change (String.concat " " (t :: t' :: tokens))
      with (t +:+ " " +:+ String.concat " " (t' :: tokens)).
    rewrite (split_go_word t "" _ Ht), append_nil_l.
    rewrite append_cons, append_nil_l. cbn [builtins.split_go].
    change (builtins.char_isspace " ") with true. cbv iota.
    rewrite bool_decide_eq_false_2 by done.
    by rewrite (IH Hall).
Qed.

Lemma lstrip_word t : word t → builtins.lstrip t = t.
Proof.
  intros [Hne Hall]. destruct t as [|c t]; [done|].
  cbn [builtins.all_chars] in Hall.
  apply andb_true_iff in Hall as [Hc _]. apply negb_true_iff in Hc.
  cbn [builtins.lstrip]. by rewrite Hc.
Qed.

Lemma rstrip_word t :
  builtins.all_chars (λ c, negb (builtins.char_isspace c)) t = true →
  builtins.rstrip t = t.
Proof.
  induction t as [|c t IH]; [done|]. cbn [builtins.all_chars].
  intros Hall. apply andb_true_iff in Hall as [Hc Ht].
  apply negb_true_iff in Hc. cbn [builtins.rstrip].
  rewrite (IH Ht), Hc. by destruct t.
Qed.

Lemma strip_word t : word t → builtins.strip t = t.
Proof.
  intros Hw. unfold builtins.strip. rewrite (lstrip_word t Hw).
  apply rstrip_word, Hw.
Qed.

Lemma char_isdigit_not_space c :
  builtins.char_isdigit c = true → builtins.char_isspace c = false.
Proof.
  unfold builtins.char_isdigit, builtins.char_isspace.
  generalize (nat_of_ascii c). intros n H.
  repeat case_bool_decide; simpl in *; try done; lia.
Qed.

Lemma isdigit_word t : builtins.isdigit t = true → word t.
Proof.
  destruct t as [|c t]; [done|]. unfold builtins.isdigit.
  intros H. split; [done|]. revert H. generalize (String c t). clear c t.
  induction s as [|c s IH]; [done|]. cbn [builtins.all_chars].
  intros H. apply andb_true_iff in H as [Hc Hs].
  by rewrite (char_isdigit_not_space c Hc), (IH Hs).
Qed.

Lemma operator_word op : op ∈ OPERATORS → word op.
Proof.
  rewrite operators_cases. intros [-> | [-> | [-> | ->]]]; by split.
Qed.

Lemma countable_word t : countable_token t → word t.
Proof.
  intros [H | H].
  - by apply isdigit_word, classify_operand_inv.
  - by apply operator_word, classify_operator_inv.
Qed.

(** [tokenize_postfix] reads operands and operators joined by single
    spaces back as they are. *)
Lemma tokenize_postfix_join tokens :
  Forall countable_token tokens →
  tokenize_postfix (builtins.join " " tokens) = tokens.
Proof.
  intros Hall. unfold tokenize_postfix.
  rewrite split_join by (eapply Forall_impl; [exact Hall|]; apply countable_word).
  clear -Hall. induction tokens as [|t tokens IH]; [done|].
  apply Forall_cons in Hall as [Ht Hall].
  rewrite bind_cons, (IH Hall). clear IH.
  unfold postfix_token. rewrite (strip_word t (countable_word t Ht)).
  destruct (countable_word t Ht) as [Hne _].
  rewrite (bool_decide_eq_true_2 _ Hne).
  destruct Ht as [H | H].
  - apply classify_operand_inv in H. rewrite H.
    by case_bool_decide.
  - apply classify_operator_inv in H. by rewrite (bool_decide_eq_true_2 _ H).
Qed.

(** ** The validators on the forms of a tree *)

Lemma postfix_tokens_not_nil e : postfix_tokens e ≠ [].
Proof.
  destruct e as [d | op l r]; cbn [postfix_tokens]; [done|].
  by destruct (postfix_tokens l), (postfix_tokens r).
Qed.

Lemma prefix_tokens_not_nil e : prefix_tokens e ≠ [].
Proof. by destruct e. Qed.

Lemma validate_postfix_tree s e :
  tree_ok e → tokenize_postfix s = postfix_tokens e →
  is_valid <$> validate_postfix s = Some true.
Proof.
  intros Hok Htokens.
  destruct (validate_postfix_fresh s) as (pda0 & _ & ->).
  cbn [fmap option_fmap option_map]. f_equal.
  pose proof (postfix_validate_counts pda0 s) as Hcounts.
  rewrite Htokens in Hcounts.
  pose proof (count_postfix_tokens e Hok [] 0) as Hcount.
  rewrite app_nil_r in Hcount. cbn [count_operands] in Hcount.
  rewrite Hcount in Hcounts.
  destruct Hcounts as (_ & Hiff & _).
  - apply (tree_tokens_countable e Hok).
  - apply postfix_tokens_not_nil.
  - by apply Hiff.
Qed.

Lemma validate_prefix_tree s e :
  tree_ok e → tokenize_prefix s = prefix_tokens e →
  is_valid (validate_prefix s) = true.
Proof.
  intros Hok Htokens.
  unfold validate_prefix, PrefixValidator.validate. rewrite Htokens.
  rewrite bool_decide_eq_false_2 by apply prefix_tokens_not_nil.
  assert (Forall countable_token (reverse (prefix_tokens e))) as Hall.
  { apply Forall_reverse, (tree_tokens_countable e Hok). }
  destruct (prefix_postfix_loops (reverse (prefix_tokens e))
              (reset PrefixValidator.__init__) PrefixValidator.__init__ 0 [] [])
    as (-> & _).
  { eapply Forall_impl; [exact Hall|]. intros t Ht. by right. }
  pose proof (postfix_validate_loop_spec (reverse (prefix_tokens e))
                PrefixValidator.__init__ 0 [] Hall) as Hloop.
  pose proof (count_prefix_tokens e Hok [] 0) as Hcount.
  rewrite app_nil_r in Hcount. cbn [count_operands] in Hcount.
  rewrite Hcount in Hloop. destruct Hloop as (_ & Hiff & _).
  by apply Hiff.
Qed.

(** A prefix input that is accepted has only operands and operators, and
    the counter over its reversed tokens ends at 1. *)
Lemma prefix_valid_inv s :
  is_valid (validate_prefix s) = true →
  tokenize_prefix s ≠ []
  ∧ Forall countable_token (reverse (tokenize_prefix s))
  ∧ count_operands (reverse (tokenize_prefix s)) 0 = inl 1.
Proof.
  unfold validate_prefix, PrefixValidator.validate.
  case_bool_decide as Hne; [done|]. intros Hvalid. split; [done|].
  assert (Forall (λ t, classify_token t = "INVALID" ∨ countable_token t)
                 (reverse (tokenize_prefix s))) as Hall
    by apply Forall_reverse, tokenize_postfix_classes.
  destruct (prefix_postfix_loops (reverse (tokenize_prefix s))
              (reset PrefixValidator.__init__) PrefixValidator.__init__ 0 [] []
              Hall) as (Heq & _).
  rewrite Heq in Hvalid.
  by apply postfix_valid_inv in Hvalid.
Qed.

(** ** The conversions on valid input *)

(** A valid postfix expression is the postfix form of a tree, and
    [postfix_to_infix] writes the tree fully parenthesized. *)
Lemma postfix_to_infix_tree s :
  is_valid <$> validate_postfix s = Some true →
  ∃ e, tree_ok e
       ∧ tokenize_postfix s = postfix_tokens e
       ∧ ∃ steps,
           ExpressionConverter.postfix_to_infix s
           = Some (mkConversionResult true POSTFIX INFIX s (infix_string e)
                     steps "").
Proof.
  intros Hvalid.
  destruct (validate_postfix_fresh s) as (pda0 & _ & Hfresh).
  unfold ExpressionConverter.postfix_to_infix.
  rewrite Hfresh in *. cbn [fmap option_fmap option_map mbind option_bind] in *.
  injection Hvalid as Hvalid. rewrite Hvalid. cbn [negb].
  unfold PostfixValidator.validate, PostfixValidator.validate_tokens in Hvalid.
  pose proof (tokenize_postfix_classes s) as Hclasses.
  destruct (tokenize_postfix s) as [|t ts] eqn:Htokens; [done|].
  rewrite (bool_decide_eq_false_2 (t :: ts = [])) in Hvalid by done.
  apply postfix_valid_inv in Hvalid as [Hcountable Hcount]; [|done].
  destruct (build_infix_loop_tree (t :: ts) [] [InputTokens (t :: ts)] 1
              Hcountable (Forall_nil_2 _) Hcount)
    as (st' & steps' & Hlen & Hwf & Hcat & Hloop).
  destruct st' as [|e [|e' st']]; try done.
  apply Forall_cons in Hwf as [Hwf _].
  exists e. split; [done|]. split.
  - simpl in Hcat. by rewrite app_nil_r in Hcat.
  - change (infix_string <$> []) with (@nil string) in Hloop.
    rewrite Hloop. by eexists.
Qed.

(** A valid prefix expression is the prefix form of a tree, and
    [prefix_to_infix] writes the tree fully parenthesized. *)
Lemma prefix_to_infix_tree s :
  is_valid (validate_prefix s) = true →
  ∃ e, tree_ok e
       ∧ tokenize_prefix s = prefix_tokens e
       ∧ ∃ steps,
           ExpressionConverter.prefix_to_infix s
           = mkConversionResult true PREFIX INFIX s (infix_string e) steps "".
Proof.
  intros Hvalid. unfold ExpressionConverter.prefix_to_infix.
  rewrite Hvalid. cbn [negb].
  apply prefix_valid_inv in Hvalid as (Hne & Hcountable & Hcount).
  destruct (build_infix_loop_prefix_tree (reverse (tokenize_prefix s)) []
              [InputTokensReversed (reverse (tokenize_prefix s))] 1
              Hcountable (Forall_nil_2 _) Hcount)
    as (st' & steps' & Hlen & Hwf & Hcat & Hloop).
  destruct st' as [|e [|e' st']]; try done.
  apply Forall_cons in Hwf as [Hwf _].
  exists e. split; [done|]. split.
  - simpl in Hcat. rewrite app_nil_r in Hcat. unfold compose in Hcat.
    apply (f_equal reverse) in Hcat. by rewrite !reverse_involutive in Hcat.
  - change (infix_string <$> []) with (@nil string) in Hloop.
    rewrite Hloop. by eexists.
Qed.

(** The infix text of a tree with decimal operands goes to the postfix
    and to the prefix form of the tree. *)
Lemma infix_string_sum e :
  decimal_operands e →
  sum_ok (Term (Atom (to_atom e)))
  ∧ tokenize_infix (infix_string e) = sum_tokens (Term (Atom (to_atom e))).
Proof.
  intros Hdec. pose proof (decimal_operands_ok e Hdec) as Hok.
  destruct (to_atom_spec e Hok) as (Hatom & Htokens & _).
  split; [done|]. cbn [sum_tokens term_tokens]. rewrite Htokens.
  by apply tokenize_infix_infix_tree.
Qed.

Lemma infix_to_postfix_sum s e :
  sum_ok e → tokenize_infix s = sum_tokens e →
  ∃ steps,
    ExpressionConverter.infix_to_postfix s
    = Some (mkConversionResult true INFIX POSTFIX s
              (builtins.join " " (sum_postfix e)) steps "").
Proof.
  intros Hok Htokens.
  destruct (validate_infix_sum s e Hok Htokens) as (r & Hr & Hvalid).
  unfold ExpressionConverter.infix_to_postfix.
  rewrite Hr. cbn [mbind option_bind]. rewrite Hvalid. cbn [negb].
  rewrite Htokens.
  pose proof (shunt_loop_sum e [InputTokens (sum_tokens e)] Hok) as Hloop.
  destruct (shunt_loop (sum_tokens e) [] [] [InputTokens (sum_tokens e)])
    as [output steps].
  cbn [fst] in Hloop. rewrite Hloop. by eexists.
Qed.

Lemma infix_to_prefix_sum s e :
  sum_ok e → tokenize_infix s = sum_tokens e →
  ∃ steps,
    ExpressionConverter.infix_to_prefix s
    = Some (mkConversionResult true INFIX PREFIX s
              (builtins.join " " (sum_prefix e)) steps "").
Proof.
  intros Hok Htokens.
  destruct (validate_infix_sum s e Hok Htokens) as (r & Hr & Hvalid).
  unfold ExpressionConverter.infix_to_prefix.
  rewrite Hr. cbn [mbind option_bind]. rewrite Hvalid. cbn [negb].
  rewrite Htokens.
  destruct shunt_loop_prefix_grammar as (_ & _ & Hsum).
  destruct (Hsum e Hok [] [] []) as (pending & output' & Hpending & Hloop & Hout);
    [done|].
  rewrite app_nil_r in Hloop. fold (mirror (sum_tokens e)). rewrite Hloop.
  cbn [shunt_loop_prefix app]. rewrite Hout. cbn [app].
  rewrite reverse_involutive. by eexists.
Qed.

Lemma infix_to_postfix_tree e :
  decimal_operands e →
  ∃ steps,
    ExpressionConverter.infix_to_postfix (infix_string e)
    = Some (mkConversionResult true INFIX POSTFIX (infix_string e)
              (builtins.join " " (postfix_tokens e)) steps "").
Proof.
  intros Hdec. destruct (infix_string_sum e Hdec) as [Hok Htokens].
  destruct (infix_to_postfix_sum _ _ Hok Htokens) as [steps ->].
  destruct (to_atom_spec e (decimal_operands_ok e Hdec)) as (_ & _ & <- & _).
  by eexists.
Qed.

Lemma infix_to_prefix_tree e :
  decimal_operands e →
  ∃ steps,
    ExpressionConverter.infix_to_prefix (infix_string e)
    = Some (mkConversionResult true INFIX PREFIX (infix_string e)
              (builtins.join " " (prefix_tokens e)) steps "").
Proof.
  intros Hdec. destruct (infix_string_sum e Hdec) as [Hok Htokens].
  destruct (infix_to_prefix_sum _ _ Hok Htokens) as [steps ->].
  destruct (to_atom_spec e (decimal_operands_ok e Hdec)) as (_ & _ & _ & <-).
  by eexists.
Qed.

(** The postfix and the prefix form of a tree, joined by single spaces,
    go back to its infix text. *)
Lemma postfix_to_infix_join e :
  tree_ok e →
  ∃ steps,
    ExpressionConverter.postfix_to_infix (builtins.join " " (postfix_tokens e))
    = Some (mkConversionResult true POSTFIX INFIX
              (builtins.join " " (postfix_tokens e)) (infix_string e) steps "").
Proof.
  intros Hok.
  pose proof (tokenize_postfix_join (postfix_tokens e)
                (proj1 (tree_tokens_countable e Hok))) as Htokens.
  pose proof (validate_postfix_tree _ e Hok Htokens) as Hvalid.
  unfold ExpressionConverter.postfix_to_infix.
  destruct (validate_postfix (builtins.join " " (postfix_tokens e)))
    as [validation|]; [|done].
  injection Hvalid as Hvalid.
  cbn [mbind option_bind]. rewrite Hvalid. cbn [negb]. rewrite Htokens.
  destruct (build_infix_loop_postfix_tokens e Hok [] []
              [InputTokens (postfix_tokens e)]) as [steps Hloop].
  rewrite app_nil_r in Hloop. rewrite Hloop.
  cbn [build_infix_loop app]. by eexists.
Qed.

Lemma prefix_to_infix_join e :
  tree_ok e →
  ∃ steps,
    ExpressionConverter.prefix_to_infix (builtins.join " " (prefix_tokens e))
    = mkConversionResult true PREFIX INFIX
        (builtins.join " " (prefix_tokens e)) (infix_string e) steps "".
Proof.
  intros Hok.
  pose proof (tokenize_postfix_join (prefix_tokens e)
                (proj2 (tree_tokens_countable e Hok))) as Htokens.
  pose proof (validate_prefix_tree _ e Hok Htokens) as Hvalid.
  unfold ExpressionConverter.prefix_to_infix.
  rewrite Hvalid. cbn [negb]. unfold tokenize_prefix in *. rewrite Htokens.
  destruct (build_infix_loop_prefix_tokens e Hok [] []
              [InputTokensReversed (reverse (prefix_tokens e))])
    as [steps Hloop].
  rewrite app_nil_r in Hloop. rewrite Hloop.
  cbn [build_infix_loop_prefix app]. by eexists.
Qed.

(** The tree of a valid postfix or prefix expression with decimal
    operands has decimal operands. *)
Lemma prefix_tree_decimal e :
  tree_ok e →
  Forall (λ t, classify_token t = "OPERAND" → decimal t = true)
         (prefix_tokens e) →
  decimal_operands e.
Proof.
  induction e as [d | op l IHl r IHr]; cbn [tree_ok prefix_tokens decimal_operands].
  - intros Hd Hall. apply Forall_cons in Hall as [Hall _]. apply Hall.
    by apply classify_digit.
  - intros (Hop & Hl & Hr) Hall.
    apply Forall_app in Hall as [_ Hall].
    apply Forall_app in Hall as [Hall_l Hall_r]. auto.
Qed.

(** The direct conversions fail only when the validation of their input
    fails: the error returns of the loops of [postfix_to_infix] and of
    [prefix_to_infix] are never taken. *)
Theorem direct_conversions_succeed_iff_valid (s : string) :
  success <$> ExpressionConverter.infix_to_postfix s
  = is_valid <$> validate_infix s
  ∧ success <$> ExpressionConverter.infix_to_prefix s
    = is_valid <$> validate_infix s
  ∧ success <$> ExpressionConverter.postfix_to_infix s
    = is_valid <$> validate_postfix s
  ∧ success (ExpressionConverter.prefix_to_infix s)
    = is_valid (validate_prefix s).
Proof.
  split; [|split; [|split]].
  - unfold ExpressionConverter.infix_to_postfix.
    destruct (validate_infix s) as [validation|]; [|done].
    cbn [mbind option_bind fmap option_fmap option_map].
    destruct (is_valid validation); [|done]. cbn [negb].
    by destruct (shunt_loop _ _ _ _).
  - unfold ExpressionConverter.infix_to_prefix.
    destruct (validate_infix s) as [validation|]; [|done].
    cbn [mbind option_bind fmap option_fmap option_map].
    by destruct (is_valid validation).
  - destruct (validate_postfix s) as [validation|] eqn:Hvalidation.
    + destruct (is_valid validation) eqn:Hvalid.
      * destruct (postfix_to_infix_tree s) as (e & _ & _ & steps & ->).
        { by rewrite Hvalidation; cbn; rewrite Hvalid. }
        cbn. by rewrite Hvalid.
      * unfold ExpressionConverter.postfix_to_infix. rewrite Hvalidation.
        cbn. by rewrite Hvalid.
    + unfold ExpressionConverter.postfix_to_infix. by rewrite Hvalidation.
  - destruct (is_valid (validate_prefix s)) eqn:Hvalid.
    + by destruct (prefix_to_infix_tree s Hvalid) as (e & _ & _ & steps & ->).
    + unfold ExpressionConverter.prefix_to_infix. by rewrite Hvalid.
Qed.

(** For a valid postfix expression with decimal operands,
    [postfix_to_infix] and then [infix_to_postfix] give its tokens joined
    by single spaces, whatever the number of digits of the operands. *)
Theorem postfix_infix_round_trip (s : string) :
  is_valid <$> validate_postfix s = Some true →
  Forall (λ t, classify_token t = "OPERAND" → decimal t = true)
         (tokenize_postfix s) →
  ∃ infix,
    expression_converter.postfix_to_infix s = Some infix
    ∧ expression_converter.infix_to_postfix infix
      = Some (builtins.join " " (tokenize_postfix s)).
Proof.
  intros Hvalid Hdecimal.
  destruct (postfix_to_infix_tree s Hvalid) as (e & Hok & Htokens & steps & Hinfix).
  rewrite Htokens in *.
  pose proof (tree_decimal e Hok Hdecimal) as Hdec.
  exists (infix_string e).
  unfold expression_converter.postfix_to_infix, expression_converter.infix_to_postfix.
  rewrite Hinfix. split; [done|].
  by destruct (infix_to_postfix_tree e Hdec) as [steps' ->].
Qed.

Lemma postfix_infix_round_trip_witness :
  ∃ infix,
    expression_converter.postfix_to_infix "12 34 + 5 *" = Some infix
    ∧ expression_converter.infix_to_postfix infix
      = Some (builtins.join " " (tokenize_postfix "12 34 + 5 *")).
Proof.
  apply (postfix_infix_round_trip "12 34 + 5 *").
  - vm_compute. reflexivity.
  - change (tokenize_postfix "12 34 + 5 *") with ["12"; "34"; "+"; "5"; "*"].
    repeat (apply Forall_cons; split); try apply Forall_nil_2;
      intros H; first [ by vm_compute in H | vm_compute; reflexivity ].
Defined.

(** For a valid prefix expression with decimal operands, [prefix_to_infix]
    and then [infix_to_prefix] give its tokens joined by single spaces. *)
Theorem prefix_infix_round_trip (s : string) :
  is_valid (validate_prefix s) = true →
  Forall (λ t, classify_token t = "OPERAND" → decimal t = true)
         (tokenize_prefix s) →
  expression_converter.infix_to_prefix (expression_converter.prefix_to_infix s)
  = Some (builtins.join " " (tokenize_prefix s)).
Proof.
  intros Hvalid Hdecimal.
  destruct (prefix_to_infix_tree s Hvalid) as (e & Hok & Htokens & steps & Hinfix).
  rewrite Htokens in *.
  pose proof (prefix_tree_decimal e Hok Hdecimal) as Hdec.
  unfold expression_converter.prefix_to_infix, expression_converter.infix_to_prefix.
  rewrite Hinfix. cbn [success result_expression].
  by destruct (infix_to_prefix_tree e Hdec) as [steps' ->].
Qed.

Lemma prefix_infix_round_trip_witness :
  expression_converter.infix_to_prefix
    (expression_converter.prefix_to_infix "* + 12 34 5")
  = Some (builtins.join " " (tokenize_prefix "* + 12 34 5")).
Proof.
  apply (prefix_infix_round_trip "* + 12 34 5").
  - vm_compute. reflexivity.
  - change (tokenize_prefix "* + 12 34 5") with ["*"; "+"; "12"; "34"; "5"].
    repeat (apply Forall_cons; split); try apply Forall_nil_2;
      intros H; first [ by vm_compute in H | vm_compute; reflexivity ].
Defined.

(** The conversions through the infix form, on the forms of a tree. *)
Lemma postfix_to_prefix_tree s e steps :
  decimal_operands e →
  ExpressionConverter.postfix_to_infix s
  = Some (mkConversionResult true POSTFIX INFIX s (infix_string e) steps "") →
  expression_converter.postfix_to_prefix s
  = Some (builtins.join " " (prefix_tokens e)).
Proof.
  intros Hdec Hinfix.
  destruct (infix_to_prefix_tree e Hdec) as [steps' Hprefix].
  unfold expression_converter.postfix_to_prefix, ExpressionConverter.postfix_to_prefix.
  rewrite Hinfix. revert Hprefix.
  generalize ExpressionConverter.infix_to_prefix as convert_infix.
  intros convert_infix Hprefix.
  cbn [mbind option_bind success negb result_expression].
  by rewrite Hprefix.
Qed.

Lemma prefix_to_postfix_tree s e steps :
  decimal_operands e →
  ExpressionConverter.prefix_to_infix s
  = mkConversionResult true PREFIX INFIX s (infix_string e) steps "" →
  expression_converter.prefix_to_postfix s
  = Some (builtins.join " " (postfix_tokens e)).
Proof.
  intros Hdec Hinfix.
  destruct (infix_to_postfix_tree e Hdec) as [steps' Hpostfix].
  unfold expression_converter.prefix_to_postfix, ExpressionConverter.prefix_to_postfix.
  rewrite Hinfix. revert Hpostfix.
  generalize ExpressionConverter.infix_to_postfix as convert_infix.
  intros convert_infix Hpostfix.
  cbn [mbind option_bind success negb result_expression].
  by rewrite Hpostfix.
Qed.

(** For a valid postfix expression with decimal operands,
    [postfix_to_prefix] succeeds and [prefix_to_postfix] takes its result
    back to the tokens of the expression joined by single spaces. *)
Theorem postfix_prefix_round_trip (s : string) :
  is_valid <$> validate_postfix s = Some true →
  Forall (λ t, classify_token t = "OPERAND" → decimal t = true)
         (tokenize_postfix s) →
  ∃ prefix,
    expression_converter.postfix_to_prefix s = Some prefix
    ∧ prefix ≠ ""
    ∧ expression_converter.prefix_to_postfix prefix
      = Some (builtins.join " " (tokenize_postfix s)).
Proof.
  intros Hvalid Hdecimal.
  destruct (postfix_to_infix_tree s Hvalid) as (e & Hok & Htokens & steps & Hinfix).
  rewrite Htokens in *.
  pose proof (tree_decimal e Hok Hdecimal) as Hdec.
  exists (builtins.join " " (prefix_tokens e)).
  split; [by apply (postfix_to_prefix_tree s e steps)|].
  destruct (prefix_to_infix_join e Hok) as [steps' Hback].
  split; [|by apply (prefix_to_postfix_tree _ e steps')].
  intros Hempty.
  pose proof (tokenize_postfix_join (prefix_tokens e)
                (proj2 (tree_tokens_countable e Hok))) as Hsplit.
  rewrite Hempty in Hsplit. by destruct e.
Qed.

Lemma postfix_prefix_round_trip_witness :
  ∃ prefix,
    expression_converter.postfix_to_prefix "12 34 + 5 *" = Some prefix
    ∧ prefix ≠ ""
    ∧ expression_converter.prefix_to_postfix prefix
      = Some (builtins.join " " (tokenize_postfix "12 34 + 5 *")).
Proof.
  apply (postfix_prefix_round_trip "12 34 + 5 *").
  - vm_compute. reflexivity.
  - change (tokenize_postfix "12 34 + 5 *") with ["12"; "34"; "+"; "5"; "*"].
    repeat (apply Forall_cons; split); try apply Forall_nil_2;
      intros H; first [ by vm_compute in H | vm_compute; reflexivity ].
Defined.

(** For a valid prefix expression with decimal operands,
    [prefix_to_postfix] succeeds and [postfix_to_prefix] takes its result
    back to the tokens of the expression joined by single spaces. *)
Theorem prefix_postfix_round_trip (s : string) :
  is_valid (validate_prefix s) = true →
  Forall (λ t, classify_token t = "OPERAND" → decimal t = true)
         (tokenize_prefix s) →
  ∃ postfix,
    expression_converter.prefix_to_postfix s = Some postfix
    ∧ postfix ≠ ""
    ∧ expression_converter.postfix_to_prefix postfix
      = Some (builtins.join " " (tokenize_prefix s)).
Proof.
  intros Hvalid Hdecimal.
  destruct (prefix_to_infix_tree s Hvalid) as (e & Hok & Htokens & steps & Hinfix).
  rewrite Htokens in *.
  pose proof (prefix_tree_decimal e Hok Hdecimal) as Hdec.
  exists (builtins.join " " (postfix_tokens e)).
  split; [by apply (prefix_to_postfix_tree s e steps)|].
  destruct (postfix_to_infix_join e Hok) as [steps' Hback].
  split; [|by apply (postfix_to_prefix_tree _ e steps')].
  intros Hempty.
  pose proof (tokenize_postfix_join (postfix_tokens e)
                (proj1 (tree_tokens_countable e Hok))) as Hsplit.
  rewrite Hempty in Hsplit. symmetry in Hsplit.
  by apply postfix_tokens_not_nil in Hsplit.
Qed.

Lemma prefix_postfix_round_trip_witness :
  ∃ postfix,
    expression_converter.prefix_to_postfix "* + 12 34 5" = Some postfix
    ∧ postfix ≠ ""
    ∧ expression_converter.postfix_to_prefix postfix
      = Some (builtins.join " " (tokenize_prefix "* + 12 34 5")).
Proof.
  apply (prefix_postfix_round_trip "* + 12 34 5").
  - vm_compute. reflexivity.
  - change (tokenize_prefix "* + 12 34 5") with ["*"; "+"; "12"; "34"; "5"].
    repeat (apply Forall_cons; split); try apply Forall_nil_2;
      intros H; first [ by vm_compute in H | vm_compute; reflexivity ].
Defined.

(** An infix expression that goes to postfix and back, or to prefix and
    back, comes out as the fully parenthesized text of its tree: the two
    ways agree, and the parentheses of the input are not kept. *)
Theorem infix_round_trips_parenthesize (s : string) (e : sum_of_terms) :
  sum_ok e → tokenize_infix s = sum_tokens e →
  ∃ postfix prefix,
    expression_converter.infix_to_postfix s = Some postfix
    ∧ expression_converter.infix_to_prefix s = Some prefix
    ∧ expression_converter.postfix_to_infix postfix
      = Some (infix_string (sum_expr e))
    ∧ expression_converter.prefix_to_infix prefix = infix_string (sum_expr e).
Proof.
  intros Hok Htokens.
  destruct grammar_expr as (_ & _ & Hexpr).
  destruct (Hexpr e Hok) as (Htree & Hpost & Hpre).
  exists (builtins.join " " (sum_postfix e)), (builtins.join " " (sum_prefix e)).
  unfold expression_converter.infix_to_postfix, expression_converter.infix_to_prefix,
    expression_converter.postfix_to_infix, expression_converter.prefix_to_infix.
  destruct (infix_to_postfix_sum s e Hok Htokens) as [steps1 ->].
  destruct (infix_to_prefix_sum s e Hok Htokens) as [steps2 ->].
  rewrite <- Hpost, <- Hpre.
  destruct (postfix_to_infix_join _ Htree) as [steps3 ->].
  destruct (prefix_to_infix_join _ Htree) as [steps4 ->].
  done.
Qed.

Lemma infix_round_trips_parenthesize_witness :
  ∃ postfix prefix,
    expression_converter.infix_to_postfix "3 + 4 * (2 - 1)" = Some postfix
    ∧ expression_converter.infix_to_prefix "3 + 4 * (2 - 1)" = Some prefix
    ∧ expression_converter.postfix_to_infix postfix = Some "(3+(4*(2-1)))"
    ∧ expression_converter.prefix_to_infix prefix = "(3+(4*(2-1)))".
Proof.
  apply (infix_round_trips_parenthesize "3 + 4 * (2 - 1)"
    (Sum (Term (Atom (Operand "3"))) "+"
         (Product (Atom (Operand "4")) "*"
            (Group (Sum (Term (Atom (Operand "2"))) "-"
                        (Atom (Operand "1"))))))).
  - vm_compute. repeat split; first [reflexivity | by left | by right].
  - vm_compute. reflexivity.
Defined.

(** * Further properties of the pushdown automaton *)

(** A transition that matches without an input symbol matches with any
    input symbol. *)
Lemma matches_without_input t cur input_sym top :
  matches t cur None top = true → matches t cur input_sym top = true.
Proof.
  unfold matches.
  destruct (negb _); [done|].
  destruct (input_symbol t) as [x|].
  - rewrite (bool_decide_eq_true_2 (Some x ≠ None)) by done.
    rewrite (bool_decide_eq_true_2 (Some x ≠ None)) by done. done.
  - rewrite (bool_decide_eq_false_2 (None ≠ None)) by (by intros []).
    done.
Qed.

Lemma first_match_None self input_sym top :
  first_match self input_sym top = None →
  ∀ t, t ∈ transitions self →
       matches t (current_state self) input_sym top = false.
Proof.
  unfold first_match. intros Hnone t Ht.
  destruct (list_find _ _) as [[i t']|] eqn:Hfind; [done|].
  apply list_find_None in Hfind. rewrite Forall_forall in Hfind.
  specialize (Hfind t Ht). by destruct (matches t _ _ _).
Qed.

Lemma first_match_Some self input_sym top t :
  first_match self input_sym top = Some t →
  ∃ i, transitions self !! i = Some t
       ∧ matches t (current_state self) input_sym top = true
       ∧ ∀ j t', j < i → transitions self !! j = Some t' →
                 matches t' (current_state self) input_sym top = false.
Proof.
  unfold first_match. intros Hsome.
  destruct (list_find _ _) as [[i t']|] eqn:Hfind; [|done].
  injection Hsome as ->. apply list_find_Some in Hfind as (Hi & Hm & Hbefore).
  exists i. split; [done|]. split; [done|].
  intros j t' Hj Hlookup. specialize (Hbefore j t' Hlookup Hj).
  by destruct (matches t' _ _ _).
Qed.

(** The second loop of [_find_transition], which looks for a transition
    without an input symbol, finds nothing that the first loop has not
    found. *)
Lemma _find_transition_first_match self input_sym :
  _find_transition self input_sym
  = first_match self input_sym (peek (stack self)).
Proof.
  unfold _find_transition.
  destruct (first_match self input_sym (peek (stack self))) as [t|] eqn:Hfirst;
    [done|].
  case_bool_decide; [|done].
  destruct (first_match self None (peek (stack self))) as [t|] eqn:Hsecond;
    [|done].
  apply first_match_Some in Hsecond as (i & Hi & Hm & _).
  apply (matches_without_input _ _ input_sym) in Hm.
  apply list_elem_of_lookup_2 in Hi.
  by rewrite (first_match_None _ _ _ Hfirst t Hi) in Hm.
Qed.

(** [_find_transition] returns the first transition, in the order of
    declaration, that matches the current state, the input symbol and the
    top of the stack; it returns nothing exactly when no transition
    matches, with or without the input symbol. *)
Theorem find_transition_first_declared
    (self : PushdownAutomata) (input_sym : option string) :
  match _find_transition self input_sym with
  | Some t =>
      ∃ i, transitions self !! i = Some t
           ∧ matches t (current_state self) input_sym (peek (stack self)) = true
           ∧ ∀ j t', j < i → transitions self !! j = Some t' →
               matches t' (current_state self) input_sym (peek (stack self))
               = false
  | None =>
      ∀ t, t ∈ transitions self →
        matches t (current_state self) input_sym (peek (stack self)) = false
        ∧ matches t (current_state self) None (peek (stack self)) = false
  end.
Proof.
  rewrite _find_transition_first_match.
  destruct (first_match self input_sym (peek (stack self))) as [t|] eqn:Hfirst.
  - by apply first_match_Some.
  - intros t Ht. pose proof (first_match_None _ _ _ Hfirst t Ht) as Hno.
    split; [done|].
    destruct (matches t (current_state self) None (peek (stack self))) eqn:Hm;
      [|done].
    apply (matches_without_input _ _ input_sym) in Hm. by rewrite Hno in Hm.
Qed.

(** A stack action changes the stack and the stack alphabet only, and
    keeps the bottom marker of the stack. *)
Lemma _execute_stack_action_rest self action :
  states (_execute_stack_action self action).1 = states self
  ∧ transitions (_execute_stack_action self action).1 = transitions self
  ∧ initial_state (_execute_stack_action self action).1 = initial_state self
  ∧ current_state (_execute_stack_action self action).1 = current_state self
  ∧ _execution_history (_execute_stack_action self action).1
    = _execution_history self
  ∧ _transition_history (_execute_stack_action self action).1
    = _transition_history self
  ∧ _initial_symbol (stack (_execute_stack_action self action).1)
    = _initial_symbol (stack self).
Proof.
  pose proof (pop_initial_symbol (stack self)) as Hpop.
  unfold _execute_stack_action.
  repeat (case_bool_decide || case_match); simpl; try done.
Qed.

Lemma goto_error_rest self :
  states (goto_error self) = states self
  ∧ transitions (goto_error self) = transitions self
  ∧ initial_state (goto_error self) = initial_state self
  ∧ stack (goto_error self) = stack self
  ∧ _execution_history (goto_error self) = _execution_history self
  ∧ _transition_history (goto_error self) = _transition_history self
  ∧ current_state (goto_error self)
    = match states self !! "q_error" with
      | Some e => Some e
      | None => current_state self
      end.
Proof. unfold goto_error. by destruct (states self !! "q_error"). Qed.

(** What every [step] does, and what a [step] that fails does. *)
Lemma step_effect self input_symbol self' r :
  step self input_symbol = Some (self', r) →
  same_program self self'
  ∧ _execution_history self'
    = _execution_history self
      ++ [mkPDAConfiguration (current_state self) input_symbol
            (_stack (stack self))]
  ∧ (∀ error, r = StepFail error →
       current_state self'
       = match states self !! "q_error" with
         | Some e => Some e
         | None => current_state self
         end
       ∧ stack self' = stack self
       ∧ _transition_history self' = _transition_history self).
Proof.
  unfold step, same_program.
  set (self0 := set_execution_history self _).
  destruct (_find_transition self0 (Some input_symbol)) as [t|].
  - pose proof (_execute_stack_action_rest self0 (stack_action t))
      as (H1 & H2 & H3 & H4 & H5 & H6 & H7).
    pose proof (_execute_stack_action_fail self0 (stack_action t)) as Hfail.
    destruct (_execute_stack_action self0 (stack_action t)) as [self1 ok].
    cbn [fst] in *.
    destruct ok; cbn [negb]; intros [= <- <-].
    + cbn. rewrite H1, H2, H3, H5, H7. done.
    + destruct (goto_error_rest self1) as (G1 & G2 & G3 & G4 & G5 & G6 & G7).
      rewrite G1, G2, G3, G4, G5, G6, G7, H1, H2, H3, H4, H5, H6, H7.
      cbn. split; [done|]. split; [done|]. intros error _.
      by rewrite (Hfail self1 eq_refl).
  - destruct (current_state (goto_error self0)) as [s|] eqn:Hs; [|done].
    cbn [mbind option_bind]. intros [= <- <-].
    destruct (goto_error_rest self0) as (G1 & G2 & G3 & G4 & G5 & G6 & G7).
    rewrite G1, G2, G3, G4, G5, G6, G7. done.
Qed.

(** A step that fails moves the automaton to the state [q_error] when it
    has one, and leaves it in its state when it has none; it leaves the
    stack and the transition history as they were, and the configuration
    before the step is the last of the execution history. *)
Theorem step_failure_effect
    (self self' : PushdownAutomata) (input_symbol error : string) :
  step self input_symbol = Some (self', StepFail error) →
  current_state self'
  = match states self !! "q_error" with
    | Some e => Some e
    | None => current_state self
    end
  ∧ stack self' = stack self
  ∧ _transition_history self' = _transition_history self
  ∧ _execution_history self'
    = _execution_history self
      ++ [mkPDAConfiguration (current_state self) input_symbol
            (_stack (stack self))].
Proof.
  intros Hstep. apply step_effect in Hstep as (_ & Hhist & Hfail).
  destruct (Hfail error eq_refl) as (Hcur & Hstack & Htrans). done.
Qed.

Lemma step_failure_effect_witness :
  ∃ self' error,
    step replace_pda "b" = Some (self', StepFail error)
    ∧ current_state self' = states replace_pda !! "q_error"
    ∧ stack self' = stack replace_pda
    ∧ _transition_history self' = []
    ∧ _execution_history self'
      = [mkPDAConfiguration (current_state replace_pda) "b" ["Z0"]].
Proof.
  destruct (step replace_pda "b") as [[self' [|error]]|] eqn:Hstep;
    [by vm_compute in Hstep | | by vm_compute in Hstep].
  exists self', error. split; [done|].
  destruct (step_failure_effect replace_pda self' "b" error Hstep)
    as (H1 & H2 & H3 & H4).
  rewrite H1, H2, H3, H4. by vm_compute.
Defined.

(** The loop of [process] records one configuration for each symbol that
    it reads, in order. *)
Lemma process_loop_history symbols : ∀ self self' early,
  process_loop self symbols = Some (self', early) →
  same_program self self'
  ∧ ∃ configs,
      _execution_history self' = _execution_history self ++ configs
      ∧ remaining_input <$> configs `prefix_of` symbols
      ∧ (early = None → remaining_input <$> configs = symbols)
      ∧ (∀ c, head configs = Some c →
           state c = current_state self
           ∧ stack_contents c = _stack (stack self)).
Proof.
  induction symbols as [|symbol rest IH]; intros self self' early.
  - intros [= <- <-]. split; [done|]. exists []. rewrite app_nil_r. done.
  - cbn [process_loop].
    destruct (step self symbol) as [[self1 r]|] eqn:Hstep; [|done].
    cbn [mbind option_bind].
    apply step_effect in Hstep as (Hprog & Hhist & _).
    destruct r as [|error].
    + intros Hloop. apply IH in Hloop as (Hprog' & configs & Hh & Hp & He & _).
      split.
      { destruct Hprog as (H1 & H2 & H3 & H4).
        destruct Hprog' as (H1' & H2' & H3' & H4').
        unfold same_program. by rewrite H1, H2, H3, H4. }
      eexists (_ :: configs). rewrite Hh, Hhist, <- app_assoc.
      split; [done|]. split; [by apply prefix_cons|].
      split; [intros Hnone; cbn; by rewrite (He Hnone)|].
      by intros c [= <-].
    + intros [= <- <-]. split; [done|].
      eexists [_]. split; [done|].
      split; [by apply prefix_cons, prefix_nil|]. split; [done|].
      by intros c [= <-].
Qed.

(** The execution history that [process] returns holds one configuration
    for each symbol that was read, in the order of the input: all the
    symbols when the input is accepted, and the symbols up to the one
    whose step failed otherwise.  The first configuration is the initial
    one. *)
Theorem process_history_follows_input
    (self self' : PushdownAutomata) (input_string : list string)
    (accepted : bool) (message : string) (history : list PDAConfiguration) :
  process self input_string = Some (self', (accepted, message, history)) →
  history = _execution_history self'
  ∧ remaining_input <$> history `prefix_of` input_string
  ∧ (accepted = true → remaining_input <$> history = input_string)
  ∧ (∀ c, head history = Some c →
       state c = initial_state self
       ∧ stack_contents c = [_initial_symbol (stack self)]).
Proof.
  unfold process.
  destruct (process_loop (reset self) input_string) as [[self1 early]|] eqn:Hloop;
    [|done].
  cbn [mbind option_bind].
  apply process_loop_history in Hloop as (_ & configs & Hh & Hp & He & Hhead).
  cbn [reset _execution_history app current_state stack clear _stack] in *.
  destruct early as [error|].
  - intros [= <- <- <- <-]. rewrite Hh. done.
  - destruct (current_state self1) as [s|]; [|done]. cbn [mbind option_bind].
    repeat case_bool_decide; intros [= <- <- <- <-]; rewrite Hh;
      (split; [done|]); (split; [done|]); split; try done; by intros _; apply He.
Qed.

Lemma process_history_follows_input_witness :
  ∃ self' message history,
    process pass_through_pda ["a"; "b"; "b"]
    = Some (self', (false, message, history))
    ∧ remaining_input <$> history `prefix_of` ["a"; "b"; "b"]
    ∧ (∀ c, head history = Some c →
         state c = initial_state pass_through_pda
         ∧ stack_contents c = [_initial_symbol (stack pass_through_pda)]).
Proof.
  destruct (process pass_through_pda ["a"; "b"; "b"])
    as [[self' [[accepted message] history]]|] eqn:Hprocess;
    [|by vm_compute in Hprocess].
  assert (accepted = false) as -> by (by vm_compute in Hprocess; injection Hprocess).
  exists self', message, history. split; [done|].
  destruct (process_history_follows_input pass_through_pda self'
              ["a"; "b"; "b"] false message history Hprocess)
    as (_ & H2 & _ & H4).
  done.
Defined.

(** [add_transition] raises a [KeyError] exactly when one of the two
    state names is not a state of the automaton.  The transition that it
    adds is the last one: a configuration for which a transition was
    found before finds the same transition after. *)
Theorem add_transition_keeps_earlier_matches
    (self : PushdownAutomata) (source target : string)
    (input_sym top : option string) (action description : string) :
  (is_Some (add_transition self source target input_sym top action description)
   ↔ is_Some (states self !! source) ∧ is_Some (states self !! target))
  ∧ ∀ self',
      add_transition self source target input_sym top action description
      = Some self' →
      states self' = states self
      ∧ current_state self' = current_state self
      ∧ stack self' = stack self
      ∧ (∃ t, transitions self' = transitions self ++ [t]
              ∧ Some (from_state t) = states self !! source
              ∧ Some (to_state t) = states self !! target
              ∧ input_symbol t = input_sym ∧ stack_top t = top
              ∧ stack_action t = action)
      ∧ ∀ symbol t,
          _find_transition self symbol = Some t →
          _find_transition self' symbol = Some t.
Proof.
  unfold add_transition. split.
  - destruct (states self !! source), (states self !! target); cbn;
      split; try done; intros [[] []]; done.
  - intros self'.
    destruct (states self !! source) as [from_s|]; [|done].
    destruct (states self !! target) as [to_s|]; [|done].
    cbn [mbind option_bind]. intros [= <-]. cbn.
    split; [done|]. split; [done|]. split; [done|].
    split; [by eexists|].
    intros symbol t. rewrite !_find_transition_first_match.
    unfold first_match. cbn.
    destruct (list_find _ (transitions self)) as [[i t']|] eqn:Hfind; [|done].
    cbn. intros [= ->].
    erewrite list_find_app_l; [done | exact Hfind].
Qed.

(** On a stack reached from a new one by any operations, [size] counts
    the symbols above the bottom marker, [is_empty] and a [pop] that
    returns nothing mean that there are none, and a [pop] after a [push]
    returns the symbol pushed and leaves the contents as they were. *)
Theorem stack_size_and_order (z x : string) (ops : list StackOp) :
  let s := foldl apply_op (new_PDAStack z) ops in
  (0 ≤ size s)%Z
  ∧ (is_empty s = true ↔ size s = 0%Z)
  ∧ ((pop s).2 = None ↔ is_empty s = true)
  ∧ size (push s x) = (size s + 1)%Z
  ∧ peek (push s x) = Some x
  ∧ (pop (push s x)).2 = Some x
  ∧ _stack (pop (push s x)).1 = _stack s.
Proof.
  intros s.
  assert (sentinel_kept s) as [above Hs].
  { apply foldl_apply_op_sentinel_kept. by exists []. }
  unfold size, is_empty, peek, pop, push. cbn [_stack]. rewrite Hs.
  rewrite last_snoc, removelast_last, length_app. cbn [length].
  rewrite (bool_decide_eq_true_2 (1 < S (length above) + 1)) by lia.
  cbn [fst snd].
  split; [lia|]. split.
  { rewrite bool_decide_eq_true. lia. }
  split.
  { rewrite bool_decide_eq_true. case_bool_decide as Hlen.
    - destruct (last (_initial_symbol s :: above)) eqn:Hlast; cbn; split;
        try done; try lia.
      + intros _. apply last_None in Hlast. done.
    - cbn. split; [lia | done]. }
  split; [lia|]. done.
Qed.

(** In the same configuration, two automata with the same program take
    the same step. *)
Lemma step_lockstep a b input_symbol :
  lockstep a b →
  match step a input_symbol, step b input_symbol with
  | Some (a', ra), Some (b', rb) => ra = rb ∧ lockstep a' b'
  | None, None => True
  | _, _ => False
  end.
Proof.
  destruct a as [n1 S1 T1 i1 c1 st1 ia1 sa1 eh1 th1].
  destruct b as [n2 S2 T2 i2 c2 st2 ia2 sa2 eh2 th2].
  unfold lockstep, same_program. cbn.
  intros ((-> & -> & -> & _) & -> & -> & ->).
  unfold step. rewrite !_find_transition_first_match.
  unfold first_match. cbn.
  destruct (list_find _ T2) as [[i t]|]; cbn.
  - unfold _execute_stack_action. cbn.
    repeat (case_bool_decide || case_match); cbn; simplify_eq;
      unfold goto_error; cbn; try (destruct (S2 !! "q_error")); cbn; done.
  - unfold goto_error. cbn. destruct (S2 !! "q_error"); cbn.
    + done.
    + destruct c2; cbn; done.
Qed.

Lemma process_loop_lockstep symbols : ∀ a b,
  lockstep a b →
  match process_loop a symbols, process_loop b symbols with
  | Some (a', ra), Some (b', rb) => ra = rb ∧ lockstep a' b'
  | None, None => True
  | _, _ => False
  end.
Proof.
  induction symbols as [|symbol rest IH]; intros a b Hab; [done|].
  cbn [process_loop].
  pose proof (step_lockstep a b symbol Hab) as Hstep.
  destruct (step a symbol) as [[a1 ra]|], (step b symbol) as [[b1 rb]|];
    try done.
  destruct Hstep as [<- Hab1]. cbn [mbind option_bind].
  destruct ra as [|error]; [by apply IH | done].
Qed.

(** [process] starts from the initial configuration: what it returns
    depends on the program of the automaton only, not on the state, the
    stack or the histories that earlier runs have left. *)
Theorem process_ignores_earlier_runs
    (self self1 : PushdownAutomata) (input1 input2 : list string)
    (result1 : bool * string * list PDAConfiguration) :
  process self input1 = Some (self1, result1) →
  snd <$> process self1 input2 = snd <$> process self input2.
Proof.
  intros Hfirst.
  assert (same_program self self1) as Hprog.
  { unfold process in Hfirst.
    destruct (process_loop (reset self) input1) as [[self' early]|] eqn:Hloop;
      [|done].
    apply process_loop_history in Hloop as [Hprog _].
    cbn [mbind option_bind] in Hfirst.
    assert (self' = self1) as <-.
    { destruct early; [by injection Hfirst|].
      destruct (current_state self'); [|done]. cbn in Hfirst.
      repeat case_bool_decide; by injection Hfirst. }
    exact Hprog. }
  assert (lockstep (reset self1) (reset self)) as Hlock.
  { destruct Hprog as (H1 & H2 & H3 & H4).
    unfold lockstep, same_program, reset, clear. cbn.
    by rewrite H1, H2, H3, H4. }
  unfold process.
  pose proof (process_loop_lockstep input2 _ _ Hlock) as Hloop.
  destruct (process_loop (reset self1) input2) as [[a' ra]|],
           (process_loop (reset self) input2) as [[b' rb]|]; try done.
  destruct Hloop as [<- (_ & Hc & _ & Hh)]. cbn [mbind option_bind].
  destruct ra as [error|]; cbn; [by rewrite Hh|].
  rewrite Hc. destruct (current_state b') as [s|]; [|done]. cbn.
  repeat case_bool_decide; cbn; by rewrite Hh.
Qed.

Lemma process_ignores_earlier_runs_witness :
  ∃ self1,
    fst <$> process pass_through_pda ["a"; "b"; "b"] = Some self1
    ∧ snd <$> process self1 ["a"] = snd <$> process pass_through_pda ["a"].
Proof.
  destruct (process pass_through_pda ["a"; "b"; "b"]) as [[self1 result1]|]
    eqn:Hprocess; [|by vm_compute in Hprocess].
  exists self1. split; [done|].
  exact (process_ignores_earlier_runs pass_through_pda self1
           ["a"; "b"; "b"] ["a"] result1 Hprocess).
Defined.

(** * Further properties of the validators *)

(** The loop of [InfixValidator.validate] raises nothing, and rejects
    when a token is invalid. *)
Lemma infix_validate_loop_total tokens : ∀ pda trace,
  is_Some (current_state pda) →
  ∃ pda' r,
    InfixValidator.validate_loop pda tokens trace = Some (pda', r)
    ∧ (Exists (λ t, classify_token t = "INVALID") tokens → is_valid r = false).
Proof.
  induction tokens as [|token rest IH]; intros pda trace Hcur.
  - cbn [InfixValidator.validate_loop].
    destruct (infix_final_check_spec pda trace Hcur) as (r & -> & _).
    exists pda, r. split; [done|]. intros H. by apply Exists_nil in H.
  - cbn [InfixValidator.validate_loop].
    case_bool_decide as Hinv.
    { eexists _, _. split; [done|]. done. }
    destruct (step_total pda (classify_token token) Hcur)
      as (pda1 & r & Hstep & Hcur1).
    rewrite Hstep. cbn [mbind option_bind].
    destruct Hcur as [before Hbefore].
    cbn [get_current_configuration state]. rewrite Hbefore.
    cbn [mbind option_bind].
    destruct Hcur1 as [after Hafter]. rewrite Hafter. cbn [mbind option_bind].
    destruct r as [|error].
    + destruct (IH pda1 (trace ++ [InfixStep token (classify_token token)
                                     (name before) (name after)
                                     (get_contents (stack pda1))]))
        as (pda' & r & Hloop & Hr); [by rewrite Hafter|].
      exists pda', r. split; [done|]. intros Hex.
      apply Exists_cons in Hex as [Hex | Hex]; [done | by apply Hr].
    + eexists _, _. split; [done|]. done.
Qed.

Lemma infix_validate_total pda s :
  is_Some (initial_state pda) →
  ∃ pda' r,
    InfixValidator.validate pda s = Some (pda', r)
    ∧ (Exists (λ t, classify_token t = "INVALID") (tokenize_infix s) →
       is_valid r = false).
Proof.
  intros Hinit. unfold InfixValidator.validate.
  case_bool_decide as Hempty.
  - eexists _, _. split; [done|]. done.
  - by apply infix_validate_loop_total.
Qed.

Lemma validate_infix_result s :
  ∃ r, validate_infix s = Some r
       ∧ (Exists (λ t, classify_token t = "INVALID") (tokenize_infix s) →
          is_valid r = false).
Proof.
  destruct infix_init_spec as (pda0 & Hinit & Hq0 & _).
  unfold validate_infix. rewrite Hinit. clear Hinit. cbn [mbind option_bind].
  destruct (infix_validate_total pda0 s) as (pda' & r & -> & Hr).
  { rewrite Hq0. eauto. }
  by exists r.
Qed.

(** None of the validators and none of the conversions raises an
    exception, whatever the string: the [KeyError] of [add_transition] and
    the [AttributeError] of a [step] without a current state do not
    occur. *)
Theorem validators_and_conversions_never_raise (s : string) :
  is_Some (validate_infix s)
  ∧ is_Some (validate_postfix s)
  ∧ is_Some (expression_converter.infix_to_postfix s)
  ∧ is_Some (expression_converter.infix_to_prefix s)
  ∧ is_Some (expression_converter.postfix_to_infix s)
  ∧ is_Some (expression_converter.postfix_to_prefix s)
  ∧ is_Some (expression_converter.prefix_to_postfix s).
Proof.
  assert (∀ x, is_Some (validate_infix x)) as Hinfix.
  { intros x. destruct (validate_infix_result x) as (r & -> & _). eauto. }
  assert (∀ x, is_Some (validate_postfix x)) as Hpostfix.
  { intros x. destruct (validate_postfix_fresh x) as (pda0 & _ & ->). eauto. }
  assert (∀ x, is_Some (ExpressionConverter.infix_to_postfix x)) as H1.
  { intros x. unfold ExpressionConverter.infix_to_postfix.
    destruct (Hinfix x) as [v ->]. cbn [mbind option_bind].
    destruct (negb (is_valid v)); [eauto|].
    destruct (shunt_loop _ _ _ _). eauto. }
  assert (∀ x, is_Some (ExpressionConverter.infix_to_prefix x)) as H2.
  { intros x. unfold ExpressionConverter.infix_to_prefix.
    destruct (Hinfix x) as [v ->]. cbn [mbind option_bind].
    destruct (negb (is_valid v)); eauto. }
  assert (∀ x, is_Some (ExpressionConverter.postfix_to_infix x)) as H3.
  { intros x. unfold ExpressionConverter.postfix_to_infix.
    destruct (Hpostfix x) as [v ->]. cbn [mbind option_bind].
    destruct (negb (is_valid v)); [eauto|].
    destruct (build_infix_loop _ _ _) as [[[|r [|r' st]] steps]|steps]; eauto. }
  split; [done|]. split; [done|].
  unfold expression_converter.infix_to_postfix, expression_converter.infix_to_prefix,
    expression_converter.postfix_to_infix, expression_converter.postfix_to_prefix,
    expression_converter.prefix_to_postfix,
    ExpressionConverter.postfix_to_prefix, ExpressionConverter.prefix_to_postfix.
  destruct (H1 s) as [r1 ->]. destruct (H2 s) as [r2 ->].
  destruct (H3 s) as [r3 ->]. cbn [mbind option_bind].
  split; [eauto|]. split; [eauto|]. split; [eauto|].
  revert H1 H2.
  generalize ExpressionConverter.infix_to_postfix as to_postfix.
  generalize ExpressionConverter.infix_to_prefix as to_prefix.
  intros to_prefix to_postfix H1 H2.
  split.
  - destruct (negb (success r3)); [eauto|].
    destruct (H2 (result_expression r3)) as [r ->]. cbn. eauto.
  - destruct (negb (success (ExpressionConverter.prefix_to_infix s))); [eauto|].
    destruct (H1 (result_expression (ExpressionConverter.prefix_to_infix s)))
      as [r ->].
    cbn. eauto.
Qed.

(** ** Empty input *)

Lemma isspace_not_token c :
  builtins.char_isspace c = true →
  (String c "" ∉ DIGITS) ∧ (String c "" ∉ OPERATORS)
  ∧ (String c "" ∉ PARENTHESES).
Proof.
  intros Hc. rewrite digits_cases, operators_cases.
  unfold PARENTHESES. rewrite elem_of_union, !elem_of_singleton.
  repeat split; intros H;
    repeat (destruct H as [[= ->] | H]; [by vm_compute in Hc|]);
    injection H as ->; by vm_compute in Hc.
Qed.

Lemma tokenize_infix_go_spaces s : ∀ tokens,
  builtins.all_chars builtins.char_isspace s = true →
  tokenize_infix_go s tokens "" = tokens.
Proof.
  induction s as [|c s IH]; intros tokens; [done|].
  cbn [builtins.all_chars]. intros H. apply andb_true_iff in H as [Hc Hs].
  destruct (isspace_not_token c Hc) as (Hd & Ho & Hp).
  cbn [tokenize_infix_go].
  rewrite (bool_decide_eq_false_2 _ Hd), (bool_decide_eq_false_2 _ Ho),
    (bool_decide_eq_false_2 _ Hp).
  rewrite (bool_decide_eq_false_2 ("" ≠ "")) by (by intros []).
  cbn [builtins.isspace builtins.all_chars]. rewrite Hc. cbn [andb].
  by apply IH.
Qed.

Lemma split_spaces s :
  builtins.all_chars builtins.char_isspace s = true → builtins.split s = [].
Proof.
  unfold builtins.split. induction s as [|c s IH]; [done|].
  cbn [builtins.all_chars]. intros H. apply andb_true_iff in H as [Hc Hs].
  cbn [builtins.split_go]. rewrite Hc.
  rewrite (bool_decide_eq_true_2 ("" = "")) by done. by apply IH.
Qed.

(** An expression of whitespace only, the empty one among them, is
    rejected by the three validators with the message [Empty expression],
    without a step of the automaton. *)
Theorem blank_expression_is_empty (s : string) :
  builtins.all_chars builtins.char_isspace s = true →
  validate_infix s
  = Some (mkValidationResult false INFIX "Empty expression" [NoTokens] "q_error")
  ∧ validate_postfix s
    = Some (mkValidationResult false POSTFIX "Empty expression" [NoTokens]
              "q_error")
  ∧ validate_prefix s
    = mkValidationResult false PREFIX "Empty expression" [NoTokens] "q_error".
Proof.
  intros Hs. split; [|split].
  - destruct infix_init_spec as (pda0 & Hinit & _).
    unfold validate_infix, InfixValidator.validate.
    rewrite Hinit. clear Hinit. cbn [mbind option_bind].
    unfold tokenize_infix. by rewrite (tokenize_infix_go_spaces s [] Hs).
  - destruct (validate_postfix_fresh s) as (pda0 & _ & ->).
    unfold PostfixValidator.validate, PostfixValidator.validate_tokens,
      tokenize_postfix.
    by rewrite (split_spaces s Hs).
  - unfold validate_prefix, PrefixValidator.validate, tokenize_prefix,
      tokenize_postfix.
    by rewrite (split_spaces s Hs).
Qed.

Lemma blank_expression_is_empty_witness :
  validate_infix "  "
  = Some (mkValidationResult false INFIX "Empty expression" [NoTokens] "q_error")
  ∧ validate_postfix "  "
    = Some (mkValidationResult false POSTFIX "Empty expression" [NoTokens]
              "q_error")
  ∧ validate_prefix "  "
    = mkValidationResult false PREFIX "Empty expression" [NoTokens] "q_error".
Proof. apply (blank_expression_is_empty "  "). reflexivity. Defined.

(** ** Characters that the tokenizer does not know *)

Lemma tokenize_infix_go_keeps s : ∀ tokens cur t,
  t ∈ tokens → t ∈ tokenize_infix_go s tokens cur.
Proof.
  induction s as [|c s IH]; intros tokens cur t Ht; cbn [tokenize_infix_go].
  - case_bool_decide; [|done]. apply elem_of_app. by left.
  - case_bool_decide; [by apply IH|].
    assert (t ∈ (if bool_decide (cur ≠ "") then tokens ++ [cur] else tokens))
      as Ht'.
    { case_bool_decide; [|done]. apply elem_of_app. by left. }
    repeat case_match; apply IH; try done; apply elem_of_app; by left.
Qed.

Lemma tokenize_infix_go_invalid s1 : ∀ c s2 tokens cur,
  ¬ recognized c →
  ("INVALID:" +:+ String c "")
  ∈ tokenize_infix_go (s1 +:+ String c s2) tokens cur.
Proof.
  unfold recognized.
  induction s1 as [|a s1 IH]; intros c s2 tokens cur Hc.
  - rewrite append_nil_l. cbn [tokenize_infix_go].
    rewrite (bool_decide_eq_false_2 (String c "" ∈ DIGITS)) by tauto.
    rewrite (bool_decide_eq_false_2 (String c "" ∈ OPERATORS)) by tauto.
    rewrite (bool_decide_eq_false_2 (String c "" ∈ PARENTHESES)) by tauto.
    destruct (builtins.isspace (String c "")) eqn:Hspace; [tauto|].
    apply tokenize_infix_go_keeps, elem_of_app. right.
    by apply list_elem_of_singleton.
  - change (String a s1 +:+ String c s2) with (String a (s1 +:+ String c s2)).
    cbn [tokenize_infix_go].
    repeat case_match; by apply IH.
Qed.

(** An infix expression with a character that is not a decimal digit,
    an operator, a parenthesis or whitespace is rejected, wherever the
    character is. *)
Theorem validate_infix_rejects_unknown_character
    (before after : string) (c : ascii) :
  ¬ recognized c →
  ∃ r, validate_infix (before +:+ String c after) = Some r
       ∧ is_valid r = false.
Proof.
  intros Hc.
  destruct (validate_infix_result (before +:+ String c after)) as (r & Hr & Hinv).
  exists r. split; [done|]. apply Hinv.
  apply Exists_exists. exists ("INVALID:" +:+ String c "").
  split; [by apply tokenize_infix_go_invalid|].
  apply classify_invalid.
Qed.

Lemma validate_infix_rejects_unknown_character_witness :
  ∃ r, validate_infix "(3+4)*x" = Some r ∧ is_valid r = false.
Proof.
  apply (validate_infix_rejects_unknown_character "(3+4)*" "" "x").
  unfold recognized. rewrite digits_cases, operators_cases.
  unfold PARENTHESES. rewrite elem_of_union, !elem_of_singleton.
  intros H. repeat (destruct H as [H | H]; try done).
Defined.

(** ** The markers of the postfix validator *)

Lemma postfix_validate_loop_markers tokens : ∀ pda counter trace below c,
  Forall countable_token tokens →
  count_operands tokens counter = inl c →
  _stack (stack pda) = below ++ replicate counter "X" →
  1 ≤ length below →
  _stack (stack (PostfixValidator.validate_loop pda tokens counter trace).1)
  = below ++ replicate c "X".
Proof.
  induction tokens as [|token rest IH];
    intros pda counter trace below c Hall Hcount Hstack Hbelow.
  - cbn in *. injection Hcount as <-.
    unfold PostfixValidator.final_check. by repeat case_bool_decide.
  - apply Forall_cons in Hall as [Htok Hrest].
    cbn [count_operands PostfixValidator.validate_loop] in *.
    destruct Htok as [Hc | Hc]; rewrite Hc in *.
    + rewrite (bool_decide_eq_false_2 ("OPERAND" = "INVALID")) by done.
      rewrite (bool_decide_eq_false_2 ("OPERAND" = "LPAREN")) by done.
      rewrite (bool_decide_eq_false_2 ("OPERAND" = "RPAREN")) by done.
      rewrite (bool_decide_eq_true_2 ("OPERAND" = "OPERAND")) in * by done.
      cbn [orb]. apply IH; try done.
      cbn. rewrite Hstack, <- app_assoc. f_equal.
      rewrite Nat.add_1_r. by rewrite replicate_S_end.
    + rewrite (bool_decide_eq_false_2 ("OPERATOR" = "INVALID")) by done.
      rewrite (bool_decide_eq_false_2 ("OPERATOR" = "LPAREN")) by done.
      rewrite (bool_decide_eq_false_2 ("OPERATOR" = "RPAREN")) by done.
      rewrite (bool_decide_eq_false_2 ("OPERATOR" = "OPERAND")) in * by done.
      cbn [orb]. case_bool_decide as Hlow; [done|].
      apply IH; try done.
      cbn [stack set_stack]. rewrite pop_stack, Hstack.
      rewrite bool_decide_eq_true_2
        by (rewrite length_app, length_replicate; lia).
      destruct counter as [|counter]; [lia|].
      rewrite replicate_S_end, app_assoc, removelast_last.
      f_equal. f_equal. lia.
Qed.

(** The postfix validator keeps as many markers [X] on the stack of its
    automaton as it counts operands: when the tokens are operands and
    operators and no operator lacks operands, the stack is left with the
    bottom marker and one [X] for each unit of the final count. *)
Theorem postfix_markers_follow_count
    (pda : PushdownAutomata) (s : string) (c : nat) :
  Forall countable_token (tokenize_postfix s) →
  tokenize_postfix s ≠ [] →
  count_operands (tokenize_postfix s) 0 = inl c →
  get_contents (stack (PostfixValidator.validate pda s).1)
  = _initial_symbol (stack pda) :: replicate c "X".
Proof.
  intros Hall Hne Hcount.
  unfold PostfixValidator.validate, PostfixValidator.validate_tokens.
  rewrite bool_decide_eq_false_2 by done.
  by apply (postfix_validate_loop_markers _ _ 0 [] [_initial_symbol (stack pda)]).
Qed.

Lemma postfix_markers_follow_count_witness :
  get_contents (stack (PostfixValidator.validate PrefixValidator.__init__
                         "3 4 + 5").1)
  = ["Z0"; "X"; "X"].
Proof.
  apply (postfix_markers_follow_count PrefixValidator.__init__ "3 4 + 5" 2).
  - change (tokenize_postfix "3 4 + 5") with ["3"; "4"; "+"; "5"].
    repeat (apply Forall_cons; split); try apply Forall_nil_2;
      first [ left; vm_compute; reflexivity | right; vm_compute; reflexivity ].
  - vm_compute. discriminate.
  - vm_compute. reflexivity.
Defined.

(** ** The shape of a valid infix expression *)

Lemma classify_token_cases t :
  classify_token t = "INVALID" ∨ classify_token t = "OPERATOR"
  ∨ classify_token t = "LPAREN" ∨ classify_token t = "RPAREN"
  ∨ classify_token t = "OPERAND".
Proof.
  unfold classify_token. repeat case_match; tauto.
Qed.

(** The configurations of the infix automaton in which no transition
    matches. *)
Lemma find_infix_none_operand q kind top :
  q = q_start ∨ q = q_expect_operand →
  kind = "OPERATOR" ∨ kind = "RPAREN" ∨ kind = "INVALID" →
  list_find (λ t, matches t (Some q) (Some kind) top = true) infix_transitions
  = None.
Proof.
  intros [-> | ->] [-> | [-> | ->]]; vm_compute; reflexivity.
Qed.

Lemma find_infix_none_operator kind top :
  kind = "OPERAND" ∨ kind = "LPAREN" ∨ kind = "INVALID" →
  list_find (λ t, matches t (Some q_expect_operator) (Some kind) top = true)
            infix_transitions
  = None.
Proof. intros [-> | [-> | ->]]; vm_compute; reflexivity. Qed.

Lemma find_infix_none_rparen :
  list_find (λ t, matches t (Some q_expect_operator) (Some "RPAREN")
                          (Some "Z0") = true)
            infix_transitions
  = None.
Proof. vm_compute. reflexivity. Qed.

(** Without a matching transition the step of the infix automaton fails,
    and so does the run. *)
Lemma run_infix_fail pda q st kind rest :
  infix_at pda q st →
  list_find (λ t, matches t (Some q) (Some kind) (last st) = true)
            infix_transitions = None →
  run pda (kind :: rest) = None.
Proof.
  intros (Htrans & Herr & Hcur & Hst) Hfind.
  cbn [run]. unfold step. rewrite _find_transition_first_match.
  unfold first_match, peek.
  cbn [transitions current_state stack set_execution_history].
  rewrite Htrans, Hcur, Hst, Hfind. cbn [mbind option_bind].
  unfold goto_error. cbn [states set_execution_history].
  rewrite Herr. done.
Qed.

Lemma last_markers d : last ("Z0" :: replicate (S d) "(") = Some "(".
Proof.
  rewrite replicate_S_end.
  change ("Z0" :: replicate d "(" ++ ["("])
    with (("Z0" :: replicate d "(") ++ ["("]).
  apply last_snoc.
Qed.

(** The run of the infix automaton follows [infix_shape]. *)
Lemma run_infix_shape kinds : ∀ pda q d (expect_operand : bool),
  infix_at pda q ("Z0" :: replicate d "(") →
  (if expect_operand then q = q_start ∨ q = q_expect_operand
   else q = q_expect_operator) →
  Forall (λ kind, kind = "INVALID" ∨ kind = "OPERATOR" ∨ kind = "LPAREN"
                  ∨ kind = "RPAREN" ∨ kind = "OPERAND") kinds →
  match run pda kinds with
  | Some pda' =>
      ∃ q' d',
        infix_at pda' q' ("Z0" :: replicate d' "(")
        ∧ (infix_shape expect_operand d kinds = true
           ↔ name q' = "q_expect_operator" ∧ d' = 0)
  | None => infix_shape expect_operand d kinds = false
  end.
Proof.
  induction kinds as [|kind rest IH]; intros pda q d flag Hat Hq Hkinds.
  - cbn [run infix_shape]. exists q, d. split; [done|].
    rewrite andb_true_iff, negb_true_iff, bool_decide_eq_true.
    destruct flag; [destruct Hq as [-> | ->]|subst q]; cbn; split;
      try done; intros [? ?]; done.
  - apply Forall_cons in Hkinds as [Hkind Hrest].
    destruct flag.
    + destruct Hkind as [-> | [-> | [-> | [-> | ->]]]].
      * rewrite (run_infix_fail pda q _ "INVALID" rest Hat); [done|].
        apply find_infix_none_operand; [done | tauto].
      * rewrite (run_infix_fail pda q _ "OPERATOR" rest Hat); [done|].
        apply find_infix_none_operand; [done | tauto].
      * destruct (step_infix_lparen pda q _ Hat Hq) as (pda1 & Hstep & Hat1).
        rewrite (run_cons_ok _ _ _ _ Hstep).
        change (("Z0" :: replicate d "(") ++ ["("])
          with ("Z0" :: (replicate d "(" ++ ["("])) in Hat1.
        rewrite <- replicate_S_end in Hat1.
        apply (IH pda1 q_expect_operand (S d) true Hat1); [by right | done].
      * rewrite (run_infix_fail pda q _ "RPAREN" rest Hat); [done|].
        apply find_infix_none_operand; [done | tauto].
      * destruct (step_infix_operand pda q _ Hat Hq) as (pda1 & Hstep & Hat1).
        rewrite (run_cons_ok _ _ _ _ Hstep).
        apply (IH pda1 q_expect_operator d false Hat1); done.
    + subst q. destruct Hkind as [-> | [-> | [-> | [-> | ->]]]].
      * rewrite (run_infix_fail pda _ _ "INVALID" rest Hat); [done|].
        apply find_infix_none_operator; tauto.
      * destruct (step_infix_operator pda _ Hat) as (pda1 & Hstep & Hat1).
        rewrite (run_cons_ok _ _ _ _ Hstep).
        apply (IH pda1 q_expect_operand d true Hat1); [by right | done].
      * rewrite (run_infix_fail pda _ _ "LPAREN" rest Hat); [done|].
        apply find_infix_none_operator; tauto.
      * destruct d as [|d].
        -- rewrite (run_infix_fail pda _ _ "RPAREN" rest Hat); [done|].
           apply find_infix_none_rparen.
        -- rewrite replicate_S_end in Hat.
           change ("Z0" :: replicate d "(" ++ ["("])
             with (("Z0" :: replicate d "(") ++ ["("]) in Hat.
           destruct (step_infix_rparen pda _ Hat) as (pda1 & Hstep & Hat1);
             [done|].
           rewrite (run_cons_ok _ _ _ _ Hstep).
           apply (IH pda1 q_expect_operator d false Hat1); done.
      * rewrite (run_infix_fail pda _ _ "OPERAND" rest Hat); [done|].
        apply find_infix_none_operator; tauto.
Qed.

Lemma infix_shape_invalid kinds : ∀ expect_operand depth,
  "INVALID" ∈ kinds → infix_shape expect_operand depth kinds = false.
Proof.
  induction kinds as [|kind rest IH]; intros flag depth Hin.
  - by apply elem_of_nil in Hin.
  - apply elem_of_cons in Hin as [<- | Hin].
    + cbn [infix_shape]. destruct flag; repeat case_bool_decide; done.
    + cbn [infix_shape]. destruct flag; repeat case_bool_decide;
        try done; try (by apply IH).
      destruct depth; [done | by apply IH].
Qed.

Lemma validate_infix_shape (s : string) :
  is_valid <$> validate_infix s
  = Some (bool_decide (tokenize_infix s ≠ [])
          && infix_shape true 0 (classify_token <$> tokenize_infix s)).
Proof.
  destruct (decide (Forall (λ t, classify_token t ≠ "INVALID")
                           (tokenize_infix s))) as [Hall | Hex].
  - destruct infix_init_spec as (pda0 & Hinit & Hq0 & Htrans & Herr & Hz).
    unfold validate_infix, InfixValidator.validate.
    rewrite Hinit. clear Hinit. cbn [mbind option_bind].
    destruct (decide (tokenize_infix s = [])) as [Hempty | Hempty].
    { rewrite (bool_decide_eq_true_2 _ Hempty).
      rewrite (bool_decide_eq_false_2 (tokenize_infix s ≠ [])) by tauto.
      done. }
    rewrite (bool_decide_eq_false_2 _ Hempty).
    rewrite (bool_decide_eq_true_2 (tokenize_infix s ≠ [])) by done.
    cbn [andb].
    assert (infix_at (reset pda0) q_start ("Z0" :: replicate 0 "(")) as Hat.
    { repeat split; try done. simpl. by rewrite Hz. }
    assert (is_Some (current_state (reset pda0))) as Hcur.
    { simpl. rewrite Hq0. eauto. }
    pose proof (infix_validate_loop_run (tokenize_infix s) (reset pda0) []
                  Hcur Hall) as Hloop.
    pose proof (run_infix_shape (classify_token <$> tokenize_infix s)
                  (reset pda0) q_start 0 true Hat) as Hshape.
    destruct (run (reset pda0) (classify_token <$> tokenize_infix s))
      as [pda'|].
    + destruct Hloop as (Hsome & trace' & ->).
      destruct (infix_final_check_spec pda' trace' Hsome) as (r & -> & Hiff & _).
      cbn. f_equal.
      destruct Hshape as (q' & d' & (_ & _ & Hcur' & Hst') & Hshape);
        [by left | |].
      { apply Forall_fmap, Forall_forall. intros t _.
        apply classify_token_cases. }
      rewrite Hcur' in Hiff. unfold is_empty in Hiff. rewrite Hst' in Hiff.
      cbn in Hiff. rewrite length_replicate in Hiff.
      destruct (is_valid r), (infix_shape true 0 _); try done.
      * destruct Hiff as [Hiff _]. destruct (Hiff eq_refl) as [[= Hq] Hd].
        apply bool_decide_eq_true in Hd.
        destruct Hshape as [_ Hshape]. symmetry. apply Hshape.
        split; [done | lia].
      * destruct Hshape as [Hshape _]. destruct (Hshape eq_refl) as [Hq ->].
        destruct Hiff as [_ Hiff]. apply Hiff. by rewrite Hq.
    + destruct Hloop as (pda' & r & -> & Hr). cbn. f_equal.
      rewrite Hr. symmetry. apply Hshape; [by left|].
      apply Forall_fmap, Forall_forall. intros t _. apply classify_token_cases.
  - destruct (validate_infix_result s) as (r & -> & Hr). cbn. f_equal.
    assert (Exists (λ t, classify_token t = "INVALID") (tokenize_infix s))
      as Hinv.
    { apply not_Forall_Exists in Hex; [|apply _].
      eapply Exists_impl; [exact Hex|]. intros t Ht.
      by destruct (decide (classify_token t = "INVALID")). }
    rewrite (Hr Hinv), infix_shape_invalid; [by rewrite andb_false_r|].
    apply Exists_exists in Hinv as (t & Ht & Hc).
    rewrite <- Hc. by apply list_elem_of_fmap_2.
Qed.

(** [validate_infix] accepts an expression exactly when it has tokens and
    the kinds of its tokens have the shape of an infix expression:
    operands and operators alternate from an operand to an operand, an
    opening parenthesis stands where an operand may, and a closing one
    after an operand, where it closes an open one; none is left open. *)
Theorem validate_infix_accepts_shape (s : string) :
  is_valid <$> validate_infix s
  = Some (bool_decide (tokenize_infix s ≠ [])
          && infix_shape true 0 (classify_token <$> tokenize_infix s)).
Proof. apply validate_infix_shape. Qed.

Lemma occurrences_cons_eq token tokens :
  occurrences token (token :: tokens) = S (occurrences token tokens).
Proof. unfold occurrences. rewrite filter_cons. by case_decide. Qed.

Lemma occurrences_cons_ne token t tokens :
  t ≠ token → occurrences token (t :: tokens) = occurrences token tokens.
Proof. intros H. unfold occurrences. rewrite filter_cons. by case_decide. Qed.

Ltac count_head :=
  rewrite ?occurrences_cons_eq; repeat rewrite occurrences_cons_ne by done.

(** The counts of the kinds in a sequence that has the shape. *)
Lemma infix_shape_counts kinds : ∀ expect_operand depth,
  infix_shape expect_operand depth kinds = true →
  occurrences "RPAREN" kinds = depth + occurrences "LPAREN" kinds
  ∧ occurrences "OPERAND" kinds + (if expect_operand then 0 else 1)
    = occurrences "OPERATOR" kinds + 1
  ∧ ∀ k, occurrences "RPAREN" (take k kinds)
         ≤ depth + occurrences "LPAREN" (take k kinds).
Proof.
  induction kinds as [|kind rest IH]; intros flag depth.
  - cbn [infix_shape].
    rewrite andb_true_iff, negb_true_iff, bool_decide_eq_true.
    intros [-> ->]. split; [done|]. split; [done|].
    intros k. rewrite take_nil. cbn. lia.
  - cbn [infix_shape].
    destruct flag.
    + case_bool_decide as H1; [subst kind|case_bool_decide as H2; [subst kind|done]].
      * intros Hshape. destruct (IH _ _ Hshape) as (Hr & Ho & Hk).
        count_head. split; [done|]. split; [lia|].
        intros [|k]; [cbn; lia|]. cbn [take]. count_head. apply Hk.
      * intros Hshape. destruct (IH _ _ Hshape) as (Hr & Ho & Hk).
        count_head. split; [lia|]. split; [lia|].
        intros [|k]; [cbn; lia|]. cbn [take]. count_head.
        specialize (Hk k). lia.
    + case_bool_decide as H1; [subst kind|case_bool_decide as H2; [subst kind|done]].
      * intros Hshape. destruct (IH _ _ Hshape) as (Hr & Ho & Hk).
        count_head. split; [done|]. split; [lia|].
        intros [|k]; [cbn; lia|]. cbn [take]. count_head. apply Hk.
      * destruct depth as [|depth]; [done|].
        intros Hshape. destruct (IH _ _ Hshape) as (Hr & Ho & Hk).
        count_head. split; [lia|]. split; [lia|].
        intros [|k]; [cbn; lia|]. cbn [take]. count_head.
        specialize (Hk k). lia.
Qed.

Lemma classify_token_paren t :
  (classify_token t = "LPAREN" ↔ t = "(")
  ∧ (classify_token t = "RPAREN" ↔ t = ")").
Proof.
  unfold classify_token.
  destruct (builtins.startswith t "INVALID:") eqn:Hstart.
  { split; split; try done; intros ->; by vm_compute in Hstart. }
  case_bool_decide as Hop.
  { apply operators_cases in Hop.
    split; split; try done; intros ->; naive_solver. }
  repeat case_bool_decide; subst; try done;
    destruct (builtins.isdigit t); split; split; done.
Qed.

Lemma occurrences_kind kind token tokens :
  (∀ t, classify_token t = kind ↔ t = token) →
  occurrences kind (classify_token <$> tokens) = occurrences token tokens.
Proof.
  intros Hiff. unfold occurrences.
  induction tokens as [|t tokens IH]; [done|].
  rewrite fmap_cons, !filter_cons.
  destruct (decide (classify_token t = kind)) as [Hk | Hk];
    destruct (decide (t = token)) as [Ht | Ht]; cbn [length];
    try (by rewrite IH).
  - by apply Hiff in Hk.
  - by apply Hiff in Ht.
Qed.

(** In a valid infix expression the parentheses are balanced: there are
    as many closing as opening ones, and at no point more closing than
    opening ones.  There is one operand more than there are operators. *)
Theorem valid_infix_is_balanced (s : string) :
  is_valid <$> validate_infix s = Some true →
  occurrences ")" (tokenize_infix s) = occurrences "(" (tokenize_infix s)
  ∧ (∀ k, occurrences ")" (take k (tokenize_infix s))
          ≤ occurrences "(" (take k (tokenize_infix s)))
  ∧ occurrences "OPERAND" (classify_token <$> tokenize_infix s)
    = occurrences "OPERATOR" (classify_token <$> tokenize_infix s) + 1.
Proof.
  rewrite validate_infix_shape. intros [= Hvalid].
  apply andb_true_iff in Hvalid as [_ Hshape].
  apply infix_shape_counts in Hshape as (Hr & Ho & Hk).
  split; [|split].
  - rewrite <- (occurrences_kind "RPAREN" ")"), <- (occurrences_kind "LPAREN" "(")
      by (intros t; apply classify_token_paren).
    exact Hr.
  - intros k.
    rewrite <- (occurrences_kind "RPAREN" ")"), <- (occurrences_kind "LPAREN" "(")
      by (intros t; apply classify_token_paren).
    rewrite fmap_take. apply (Hk k).
  - by rewrite Nat.add_0_r in Ho.
Qed.

Lemma valid_infix_is_balanced_witness :
  occurrences ")" (tokenize_infix "(3+4)*(2-1)")
  = occurrences "(" (tokenize_infix "(3+4)*(2-1)")
  ∧ (∀ k, occurrences ")" (take k (tokenize_infix "(3+4)*(2-1)"))
          ≤ occurrences "(" (take k (tokenize_infix "(3+4)*(2-1)")))
  ∧ occurrences "OPERAND" (classify_token <$> tokenize_infix "(3+4)*(2-1)")
    = occurrences "OPERATOR" (classify_token <$> tokenize_infix "(3+4)*(2-1)")
      + 1.
Proof.
  apply (valid_infix_is_balanced "(3+4)*(2-1)"). vm_compute. reflexivity.
Defined.

(** ** Validators that are used again *)

Lemma same_program_trans a b c :
  same_program a b → same_program b c → same_program a c.
Proof.
  intros (H1 & H2 & H3 & H4) (H1' & H2' & H3' & H4').
  unfold same_program. by rewrite H1, H2, H3, H4.
Qed.

Lemma same_program_sym a b : same_program a b → same_program b a.
Proof. intros (H1 & H2 & H3 & H4). by unfold same_program. Qed.

(** In the same configuration, the loops of two infix validators with the
    same program return the same result. *)
Lemma infix_validate_loop_lockstep tokens : ∀ a b trace,
  lockstep a b →
  match InfixValidator.validate_loop a tokens trace,
        InfixValidator.validate_loop b tokens trace with
  | Some (a', ra), Some (b', rb) => ra = rb ∧ same_program a a'
  | None, None => True
  | _, _ => False
  end.
Proof.
  induction tokens as [|token rest IH]; intros a b trace Hab.
  - cbn [InfixValidator.validate_loop]. unfold InfixValidator.final_check.
    destruct Hab as (_ & <- & <- & _).
    destruct (current_state a) as [s|]; [|done]. cbn [mbind option_bind].
    repeat case_match; simplify_eq; done.
  - cbn [InfixValidator.validate_loop].
    case_bool_decide; [done|].
    pose proof (step_lockstep a b (classify_token token) Hab) as Hstep.
    pose proof (step_effect a (classify_token token)) as Heffect.
    destruct Hab as (_ & Hcur & _ & _).
    cbn [get_current_configuration state]. rewrite <- Hcur.
    destruct (step a (classify_token token)) as [[a1 ra]|],
             (step b (classify_token token)) as [[b1 rb]|]; try done.
    destruct Hstep as [<- Hab1]. cbn [mbind option_bind].
    destruct (Heffect a1 ra eq_refl) as (Hprog & _).
    destruct (current_state a) as [before|]; [|done]. cbn [mbind option_bind].
    pose proof Hab1 as (_ & Hcur1 & Hstack1 & _). rewrite <- Hcur1, <- Hstack1.
    destruct (current_state a1) as [after|]; [|done]. cbn [mbind option_bind].
    destruct ra as [|error]; [|done].
    specialize (IH a1 b1 (trace ++ [InfixStep token (classify_token token)
                                      (name before) (name after)
                                      (get_contents (stack a1))]) Hab1).
    destruct (InfixValidator.validate_loop a1 _ _) as [[a' r]|],
             (InfixValidator.validate_loop b1 _ _) as [[b' r']|]; try done.
    destruct IH as [-> Hprog1]. split; [done|].
    by apply (same_program_trans a a1 a').
Qed.

Lemma infix_validate_same_program a b s :
  same_program a b →
  match InfixValidator.validate a s, InfixValidator.validate b s with
  | Some (a', ra), Some (b', rb) => ra = rb ∧ same_program a a'
  | None, None => True
  | _, _ => False
  end.
Proof.
  intros Hab. unfold InfixValidator.validate.
  case_bool_decide; [done|].
  assert (lockstep (reset a) (reset b)) as Hlock.
  { destruct Hab as (H1 & H2 & H3 & H4).
    unfold lockstep, same_program, reset, clear. cbn.
    by rewrite H1, H2, H3, H4. }
  pose proof (infix_validate_loop_lockstep (tokenize_infix s) _ _ [] Hlock)
    as Hloop.
  destruct (InfixValidator.validate_loop (reset a) _ _) as [[a' r]|],
           (InfixValidator.validate_loop (reset b) _ _) as [[b' r']|]; done.
Qed.

(** The loops of the postfix and of the prefix validator read the stack
    of the automaton only, and keep its bottom marker. *)
Lemma postfix_validate_loop_stack tokens : ∀ a b counter trace,
  stack a = stack b →
  (PostfixValidator.validate_loop a tokens counter trace).2
  = (PostfixValidator.validate_loop b tokens counter trace).2
  ∧ _initial_symbol (stack (PostfixValidator.validate_loop a tokens counter trace).1)
    = _initial_symbol (stack a).
Proof.
  induction tokens as [|token rest IH]; intros a b counter trace Hab.
  - cbn [PostfixValidator.validate_loop]. unfold PostfixValidator.final_check.
    repeat case_bool_decide; done.
  - cbn [PostfixValidator.validate_loop].
    repeat (case_bool_decide || case_match); try done.
    + cbn [stack set_stack]. rewrite <- Hab.
      destruct (IH (set_stack a (push (stack a) "X"))
                   (set_stack b (push (stack a) "X")) (counter + 1)
                   (trace ++ [CountStep token "OPERAND" false (counter + 1)
                                (get_contents (push (stack a) "X"))]) eq_refl)
        as [-> ->].
      done.
    + cbn [stack set_stack]. rewrite <- Hab.
      destruct (IH (set_stack a (pop (stack a)).1)
                   (set_stack b (pop (stack a)).1) (counter - 1)
                   (trace ++ [CountStep token "OPERATOR" false (counter - 1)
                                (get_contents (pop (stack a)).1)]) eq_refl)
        as [-> ->].
      split; [done|]. apply pop_initial_symbol.
Qed.

Lemma prefix_validate_loop_stack tokens : ∀ a b counter trace,
  stack a = stack b →
  (PrefixValidator.validate_loop a tokens counter trace).2
  = (PrefixValidator.validate_loop b tokens counter trace).2
  ∧ _initial_symbol (stack (PrefixValidator.validate_loop a tokens counter trace).1)
    = _initial_symbol (stack a).
Proof.
  induction tokens as [|token rest IH]; intros a b counter trace Hab.
  - cbn [PrefixValidator.validate_loop]. unfold PrefixValidator.final_check.
    repeat case_bool_decide; done.
  - cbn [PrefixValidator.validate_loop].
    repeat (case_bool_decide || case_match); try done.
    + cbn [stack set_stack]. rewrite <- Hab.
      destruct (IH (set_stack a (push (stack a) "X"))
                   (set_stack b (push (stack a) "X")) (counter + 1)
                   (trace ++ [CountStep token "OPERAND" true (counter + 1)
                                (get_contents (push (stack a) "X"))]) eq_refl)
        as [-> ->].
      done.
    + cbn [stack set_stack]. rewrite <- Hab.
      destruct (IH (set_stack a (pop (stack a)).1)
                   (set_stack b (pop (stack a)).1) (counter - 1)
                   (trace ++ [CountStep token "OPERATOR" true (counter - 1)
                                (get_contents (pop (stack a)).1)]) eq_refl)
        as [-> ->].
      split; [done|]. apply pop_initial_symbol.
Qed.

Lemma postfix_validate_marker a b s :
  _initial_symbol (stack a) = _initial_symbol (stack b) →
  (PostfixValidator.validate a s).2 = (PostfixValidator.validate b s).2
  ∧ _initial_symbol (stack (PostfixValidator.validate a s).1)
    = _initial_symbol (stack a).
Proof.
  intros Hab. unfold PostfixValidator.validate, PostfixValidator.validate_tokens.
  case_bool_decide; [done|].
  destruct (postfix_validate_loop_stack (tokenize_postfix s) (reset a) (reset b)
              0 []) as [-> ->]; [|done].
  unfold reset, clear. cbn. by rewrite Hab.
Qed.

Lemma prefix_validate_marker a b s :
  _initial_symbol (stack a) = _initial_symbol (stack b) →
  (PrefixValidator.validate a s).2 = (PrefixValidator.validate b s).2
  ∧ _initial_symbol (stack (PrefixValidator.validate a s).1)
    = _initial_symbol (stack a).
Proof.
  intros Hab. unfold PrefixValidator.validate.
  case_bool_decide; [done|].
  destruct (prefix_validate_loop_stack (reverse (tokenize_prefix s))
              (reset a) (reset b) 0 []) as [-> ->]; [|done].
  unfold reset, clear. cbn. by rewrite Hab.
Qed.

Lemma validate_as_built i p x v s notation :
  is_Some (initial_state i) → as_built i p x v →
  ∃ v' r,
    ExpressionValidator.validate v s notation = Some (v', r)
    ∧ as_built i p x v'
    ∧ match notation with
      | INFIX => snd <$> InfixValidator.validate i s = Some r
      | POSTFIX => (PostfixValidator.validate p s).2 = r
      | PREFIX => (PrefixValidator.validate x s).2 = r
      end.
Proof.
  intros Hinit (Hi & Hp & Hx). unfold ExpressionValidator.validate.
  destruct notation.
  - pose proof (infix_validate_same_program _ _ s Hi) as Hsame.
    destruct (infix_validate_total i s Hinit) as (i' & r & Hr & _).
    rewrite Hr in Hsame.
    destruct (InfixValidator.validate (ExpressionValidator.infix_validator v) s)
      as [[a' ra]|]; [|done].
    destruct Hsame as [-> Hprog]. cbn [mbind option_bind].
    eexists _, r. split; [done|]. split; [|by rewrite Hr].
    split; [|done]. cbn.
    apply (same_program_trans _ (ExpressionValidator.infix_validator v));
      [by apply same_program_sym | done].
  - destruct (postfix_validate_marker _ p s Hp) as [Hr Hmark].
    destruct (PostfixValidator.validate (ExpressionValidator.postfix_validator v) s)
      as [a' ra]. cbn [fst snd] in *.
    eexists _, ra. split; [done|]. split; [|done].
    split; [done|]. split; [|done]. cbn. by rewrite Hmark.
  - destruct (prefix_validate_marker _ x s Hx) as [Hr Hmark].
    destruct (PrefixValidator.validate (ExpressionValidator.prefix_validator v) s)
      as [a' ra]. cbn [fst snd] in *.
    eexists _, ra. split; [done|]. split; [|done].
    split; [done|]. split; [done|]. cbn. by rewrite Hmark.
Qed.

Lemma after_calls_as_built i p x calls : ∀ v,
  is_Some (initial_state i) → as_built i p x v →
  ∃ v', after_calls v calls = Some v' ∧ as_built i p x v'.
Proof.
  induction calls as [|[s notation] calls IH]; intros v Hinit Hv.
  - by exists v.
  - cbn [after_calls].
    destruct (validate_as_built i p x v s notation Hinit Hv)
      as (v1 & r & -> & Hv1 & _).
    cbn [mbind option_bind]. by apply IH.
Qed.

(** A unified validator that has validated any expressions in any
    notations validates the next one as a new validator of its notation
    does: the state, the stack and the histories that a validation leaves
    behind do not reach the next one. *)
Theorem unified_validator_keeps_no_state
    (calls : list (string * NotationType)) (s : string) :
  (ExpressionValidator.__init__ ≫= λ v0, after_calls v0 calls
     ≫= λ v, snd <$> ExpressionValidator.validate v s INFIX)
  = validate_infix s
  ∧ (ExpressionValidator.__init__ ≫= λ v0, after_calls v0 calls
       ≫= λ v, snd <$> ExpressionValidator.validate v s POSTFIX)
    = validate_postfix s
  ∧ (ExpressionValidator.__init__ ≫= λ v0, after_calls v0 calls
       ≫= λ v, snd <$> ExpressionValidator.validate v s PREFIX)
    = Some (validate_prefix s).
Proof.
  destruct infix_init_spec as (i & Hi & Hq0 & _).
  destruct (validate_postfix_fresh s) as (p & Hp & Hfresh).
  unfold ExpressionValidator.__init__, validate_infix, validate_postfix,
    validate_prefix.
  rewrite Hi, Hp. clear Hi Hp Hfresh. cbn [mbind option_bind].
  assert (is_Some (initial_state i)) as Hinit by (rewrite Hq0; eauto).
  assert (as_built i p PrefixValidator.__init__
            (ExpressionValidator.mkExpressionValidator i p
               PrefixValidator.__init__)) as Hv0 by done.
  destruct (after_calls_as_built i p PrefixValidator.__init__ calls _ Hinit Hv0)
    as (v & -> & Hv).
  cbn [mbind option_bind].
  split; [|split].
  - destruct (validate_as_built _ _ _ v s INFIX Hinit Hv) as (v' & r & -> & _ & Hr).
    cbn [fmap option_fmap option_map snd].
    destruct (InfixValidator.validate i s) as [[i' r']|]; [|done].
    cbn in Hr. injection Hr as ->. done.
  - destruct (validate_as_built _ _ _ v s POSTFIX Hinit Hv) as (v' & r & -> & _ & Hr).
    cbn. by rewrite Hr.
  - destruct (validate_as_built _ _ _ v s PREFIX Hinit Hv) as (v' & r & -> & _ & Hr).
    cbn. by rewrite Hr.
Qed.

(** ** The expressions that the infix validator accepts *)

Lemma close_sum_spec left t :
  frame_ok (left, None) → term_ok t →
  sum_ok (close_sum left t)
  ∧ sum_tokens (close_sum left t) = frame_tokens (left, None) ++ term_tokens t.
Proof.
  intros [Hleft _] Ht. unfold frame_tokens. cbn [fst snd] in *.
  destruct left as [[e op]|]; cbn [close_sum sum_ok sum_tokens].
  - destruct Hleft as [He Hop]. split; [done|].
    by rewrite app_nil_r, <- app_assoc.
  - done.
Qed.

Lemma close_term_spec left a :
  frame_ok (None, left) → atom_ok a →
  term_ok (close_term left a)
  ∧ term_tokens (close_term left a) = frame_tokens (None, left) ++ atom_tokens a.
Proof.
  intros [_ Hleft] Ha. unfold frame_tokens. cbn [fst snd] in *.
  destruct left as [[t op]|]; cbn [close_term term_ok term_tokens].
  - destruct Hleft as [Ht Hop]. split; [done|].
    cbn [app]. by rewrite <- app_assoc.
  - done.
Qed.

Lemma frame_tokens_split f :
  frame_tokens f = frame_tokens (f.1, None) ++ frame_tokens (None, f.2).
Proof. unfold frame_tokens. cbn [fst snd]. by rewrite app_nil_r. Qed.

Lemma classify_lparen_inv t : classify_token t = "LPAREN" → t = "(".
Proof. apply (proj1 (classify_token_paren t)). Qed.

Lemma classify_rparen_inv t : classify_token t = "RPAREN" → t = ")".
Proof. apply (proj2 (classify_token_paren t)). Qed.

(** Tokens whose kinds have the shape of an infix expression finish the
    sum that is being read: after what has been read, with an operand
    expected or with a term just read, they make up the tokens of a
    sum. *)
Lemma shape_parses rest :
  (∀ f outer,
     frame_ok f → Forall frame_ok outer →
     infix_shape true (length outer) (classify_token <$> rest) = true →
     ∃ e, sum_ok e
          ∧ context_tokens outer ++ frame_tokens f ++ rest = sum_tokens e)
  ∧ (∀ left t outer,
       frame_ok (left, None) → term_ok t → Forall frame_ok outer →
       infix_shape false (length outer) (classify_token <$> rest) = true →
       ∃ e, sum_ok e
            ∧ context_tokens outer ++ frame_tokens (left, None)
              ++ term_tokens t ++ rest
              = sum_tokens e).
Proof.
  induction rest as [|token rest [IHoperand IHoperator]]; split.
  - intros f outer _ _ Hshape. by cbn in Hshape.
  - intros left t outer Hleft Ht Houter Hshape. cbn in Hshape.
    apply bool_decide_eq_true in Hshape.
    destruct outer; [|done].
    destruct (close_sum_spec left t Hleft Ht) as [Hok Htokens].
    exists (close_sum left t). split; [done|].
    by rewrite Htokens, !app_nil_r.
  - intros f outer Hf Houter. rewrite fmap_cons. cbn [infix_shape].
    case_bool_decide as Hoperand; [|case_bool_decide as Hlparen; [|done]].
    + intros Hshape. apply classify_operand_inv in Hoperand.
      assert (frame_ok (f.1, None)) as Hleft by (by destruct Hf).
      assert (frame_ok (None, f.2)) as Hright by (by destruct Hf).
      destruct (close_term_spec f.2 (Operand token) Hright Hoperand)
        as [Hterm Htokens].
      destruct (IHoperator f.1 _ outer Hleft Hterm Houter Hshape)
        as (e & He & Heq).
      exists e. split; [done|]. rewrite <- Heq, Htokens.
      rewrite (frame_tokens_split f). cbn [atom_tokens].
      by rewrite <- !app_assoc.
    + intros Hshape. apply classify_lparen_inv in Hlparen. subst token.
      destruct (IHoperand (None, None) (f :: outer)) as (e & He & Heq);
        [done | by apply Forall_cons | done |].
      exists e. split; [done|]. rewrite <- Heq. cbn [context_tokens].
      by rewrite <- !app_assoc.
  - intros left t outer Hleft Ht Houter. rewrite fmap_cons. cbn [infix_shape].
    case_bool_decide as Hoperator; [|case_bool_decide as Hrparen; [|done]].
    + intros Hshape. apply classify_operator_inv, operators_split in Hoperator.
      destruct Hoperator as [Hadd | Hmul].
      * destruct (close_sum_spec left t Hleft Ht) as [Hsum Htokens].
        destruct (IHoperand (Some (close_sum left t, token), None) outer)
          as (e & He & Heq); [done | done | done |].
        exists e. split; [done|]. rewrite <- Heq.
        unfold frame_tokens at 2. cbn [fst snd]. rewrite Htokens.
        by rewrite app_nil_r, <- !app_assoc.
      * destruct (IHoperand (left, Some (t, token)) outer)
          as (e & He & Heq); [by destruct Hleft | done | done |].
        exists e. split; [done|]. rewrite <- Heq.
        rewrite (frame_tokens_split (left, Some (t, token))).
        unfold frame_tokens at 3. cbn [fst snd].
        by rewrite <- !app_assoc.
    + destruct outer as [|f outer]; [done|]. cbn [length].
      intros Hshape. apply classify_rparen_inv in Hrparen. subst token.
      apply Forall_cons in Houter as [Hf Houter].
      destruct (close_sum_spec left t Hleft Ht) as [Hsum Htokens].
      assert (frame_ok (f.1, None)) as Hfleft by (by destruct Hf).
      assert (frame_ok (None, f.2)) as Hfright by (by destruct Hf).
      destruct (close_term_spec f.2 (Group (close_sum left t)) Hfright Hsum)
        as [Hterm Htokens'].
      destruct (IHoperator f.1 _ outer Hfleft Hterm Houter Hshape)
        as (e & He & Heq).
      exists e. split; [done|]. rewrite <- Heq, Htokens'.
      cbn [context_tokens atom_tokens]. rewrite Htokens.
      rewrite (frame_tokens_split f).
      by rewrite <- !app_assoc.
Qed.

Lemma valid_infix_parses s :
  is_valid <$> validate_infix s = Some true →
  ∃ e, sum_ok e ∧ tokenize_infix s = sum_tokens e.
Proof.
  rewrite validate_infix_shape. intros [= Hvalid].
  apply andb_true_iff in Hvalid as [_ Hshape].
  destruct (shape_parses (tokenize_infix s)) as [Hparse _].
  destruct (Hparse (None, None) []) as (e & He & Heq); try done.
  by exists e.
Qed.

(** [validate_infix] accepts exactly the expressions of the grammar of
    sums of terms: an expression is valid when, and only when, its tokens
    are those of a sum of terms, where a term is a chain of atoms joined
    by [*] and [/] and an atom is a number or a sum in parentheses. *)
Theorem valid_infix_iff_grammar (s : string) :
  is_valid <$> validate_infix s = Some true
  ↔ ∃ e, sum_ok e ∧ tokenize_infix s = sum_tokens e.
Proof.
  split.
  - apply valid_infix_parses.
  - intros (e & He & Htokens).
    destruct (validate_infix_sum s e He Htokens) as (r & -> & Hr).
    cbn. by rewrite Hr.
Qed.

(** What the two conversions of a valid infix expression return is valid
    in the notation that they convert to. *)
Theorem infix_conversions_give_valid_output (s : string) :
  is_valid <$> validate_infix s = Some true →
  ∃ postfix prefix,
    expression_converter.infix_to_postfix s = Some postfix
    ∧ expression_converter.infix_to_prefix s = Some prefix
    ∧ is_valid <$> validate_postfix postfix = Some true
    ∧ is_valid (validate_prefix prefix) = true.
Proof.
  intros Hvalid. apply valid_infix_parses in Hvalid as (e & He & Htokens).
  destruct grammar_expr as (_ & _ & Hexpr).
  destruct (Hexpr e He) as (Htree & Hpost & Hpre).
  exists (builtins.join " " (sum_postfix e)), (builtins.join " " (sum_prefix e)).
  unfold expression_converter.infix_to_postfix, expression_converter.infix_to_prefix.
  destruct (infix_to_postfix_sum s e He Htokens) as [steps1 ->].
  destruct (infix_to_prefix_sum s e He Htokens) as [steps2 ->].
  split; [done|]. split; [done|].
  rewrite <- Hpost, <- Hpre.
  destruct (tree_tokens_countable _ Htree) as [Hc1 Hc2].
  split.
  - apply (validate_postfix_tree _ (sum_expr e) Htree).
    by apply tokenize_postfix_join.
  - apply (validate_prefix_tree _ (sum_expr e) Htree).
    by apply tokenize_postfix_join.
Qed.

Lemma infix_conversions_give_valid_output_witness :
  ∃ postfix prefix,
    expression_converter.infix_to_postfix "12*(3+4)-5" = Some postfix
    ∧ expression_converter.infix_to_prefix "12*(3+4)-5" = Some prefix
    ∧ is_valid <$> validate_postfix postfix = Some true
    ∧ is_valid (validate_prefix prefix) = true.
Proof.
  apply (infix_conversions_give_valid_output "12*(3+4)-5").
  vm_compute. reflexivity.
Defined.

(** [validate_all] of a unified validator that has validated any
    expressions in any notations gives the three results in the order
    infix, postfix, prefix, each the result of the validation function of
    its notation: the three validations in a row do not reach one
    another. *)
Theorem validate_all_reports_each_notation
    (calls : list (string * NotationType)) (s : string) :
  (ExpressionValidator.__init__ ≫= λ v0, after_calls v0 calls
     ≫= λ v, snd <$> ExpressionValidator.validate_all v s)
  = (validate_infix s ≫= λ infix_result,
     validate_postfix s ≫= λ postfix_result,
     Some [(INFIX, infix_result); (POSTFIX, postfix_result);
           (PREFIX, validate_prefix s)]).
Proof.
  destruct infix_init_spec as (i & Hi & Hq0 & _).
  destruct (validate_postfix_fresh s) as (p & Hp & Hfresh).
  unfold ExpressionValidator.__init__, validate_infix, validate_postfix,
    validate_prefix.
  rewrite Hi, Hp. clear Hi Hp Hfresh. cbn [mbind option_bind].
  assert (is_Some (initial_state i)) as Hinit by (rewrite Hq0; eauto).
  assert (as_built i p PrefixValidator.__init__
            (ExpressionValidator.mkExpressionValidator i p
               PrefixValidator.__init__)) as Hv0 by done.
  destruct (after_calls_as_built i p PrefixValidator.__init__ calls _ Hinit Hv0)
    as (v & -> & Hv).
  cbn [mbind option_bind]. unfold ExpressionValidator.validate_all.
  destruct (validate_as_built _ _ _ v s INFIX Hinit Hv)
    as (v1 & r1 & -> & Hv1 & Hr1).
  cbn [mbind option_bind].
  destruct (validate_as_built _ _ _ v1 s POSTFIX Hinit Hv1)
    as (v2 & r2 & -> & Hv2 & Hr2).
  cbn [mbind option_bind].
  destruct (validate_as_built _ _ _ v2 s PREFIX Hinit Hv2)
    as (v3 & r3 & -> & _ & Hr3).
  cbn [mbind option_bind fmap option_fmap option_map snd].
  destruct (InfixValidator.validate i s) as [[i' r']|]; [|done].
  cbn in Hr1. injection Hr1 as ->.
  cbn [mbind option_bind]. by rewrite Hr2, Hr3.
Qed.

(** * Further properties of the trie matcher *)

Import state_machine combo_definitions.

(** A node that accepts with a label is the end of a registered sequence
    with that label. *)
Lemma marks_accept_inv p combos : ∀ f0 l,
  foldl (mark_step p) f0 combos = Some (true, l) →
  f0 = Some (true, l) ∨ ∃ name, l = Some name ∧ (p, name) ∈ combos.
Proof.
  induction combos as [|[s nm] combos IH]; intros f0 l; cbn [foldl].
  { by left. }
  intros Hfold. apply IH in Hfold as [Hstep | (name & -> & Hin)].
  - unfold mark_step in Hstep. cbn [fst snd] in Hstep.
    destruct (decide (p = s)) as [-> | Hne].
    + injection Hstep as <-. right. exists nm. split; [done|].
      apply elem_of_cons. by left.
    + case_decide; [|by left].
      destruct f0 as [[b l']|]; cbn in Hstep; [by left | done].
  - right. exists name. split; [done|]. apply elem_of_cons. by right.
Qed.

(** What [process_input] does, by the flags of the nodes that the cursor
    may move to. *)
Lemma process_input_flags self x :
  current_state self = input_history self →
  process_input self x
  = match flags_at (root self) (input_history self ++ [x]) with
    | Some (b, l) =>
        if b then (reset self, l)
        else (set_cursor self (input_history self ++ [x])
                         (input_history self ++ [x]), None)
    | None =>
        match flags_at (root self) [x] with
        | Some (b, l) =>
            if b then (reset self, l) else (set_cursor self [x] [x], None)
        | None => (reset self, None)
        end
    end.
Proof.
  intros Hcur. unfold process_input, flags_at. rewrite !next_ref_spec, Hcur.
  change ([] ++ [x]) with [x].
  destruct (node_at (root self) (input_history self ++ [x])) as [n|] eqn:Hn;
    cbn [mbind option_bind fmap option_fmap option_map].
  - unfold check_accept. cbn [set_cursor root current_state]. rewrite Hn.
    by destruct (is_accept n).
  - destruct (node_at (root self) [x]) as [m|] eqn:Hm;
      cbn [mbind option_bind fmap option_fmap option_map]; [|done].
    unfold check_accept. cbn [set_cursor root current_state]. rewrite Hm.
    by destruct (is_accept m).
Qed.

(** The history of the matcher is the end of what it was fed. *)
Lemma feed_history_suffix symbols : ∀ self fed,
  on_path self → input_history self `suffix_of` fed →
  input_history (feed self symbols).1 `suffix_of` fed ++ symbols.
Proof.
  induction symbols as [|x symbols IH]; intros self fed Hpath Hsuffix.
  - by rewrite app_nil_r.
  - cbn [feed].
    pose proof (process_input_on_path self x Hpath) as Hpath1.
    assert (input_history (process_input self x).1 `suffix_of` fed ++ [x])
      as Hsuffix1.
    { destruct Hpath as [Hcur _]. rewrite (process_input_flags self x Hcur).
      repeat case_match; cbn [fst reset set_cursor input_history];
        first [ apply suffix_nil
              | by apply suffix_app
              | apply suffix_app_r; done ]. }
    destruct (process_input self x) as [self1 out]. cbn [fst] in *.
    specialize (IH self1 (fed ++ [x]) Hpath1 Hsuffix1).
    destruct (feed self1 symbols) as [self2 outs]. cbn [fst] in *.
    by rewrite <- app_assoc in IH.
Qed.

Lemma fresh_on_path combos : on_path (fresh combos).
Proof.
  destruct (fresh_fields combos) as (Hcur & Hhist & _).
  split; [by rewrite Hcur, Hhist|]. rewrite Hhist. cbn. eauto.
Qed.

Lemma after_inputs_spec combos symbols :
  on_path (after_inputs combos symbols)
  ∧ root (after_inputs combos symbols) = root (fresh combos)
  ∧ input_history (after_inputs combos symbols) `suffix_of` symbols.
Proof.
  unfold after_inputs.
  destruct (feed_on_path symbols (fresh combos) (fresh_on_path combos))
    as (Hpath & Hroot & _).
  split; [done|]. split; [done|].
  apply (feed_history_suffix symbols (fresh combos) []).
  - apply fresh_on_path.
  - destruct (fresh_fields combos) as (_ & -> & _). done.
Qed.

Lemma process_input_detects
    (combos : list (list string * string)) (symbols : list string)
    (x name : string) :
  (process_input (after_inputs combos symbols) x).2 = Some name →
  (∃ sequence,
      (sequence, name) ∈ combos
      ∧ sequence ≠ []
      ∧ sequence `suffix_of` symbols ++ [x])
  ∧ current_state (process_input (after_inputs combos symbols) x).1 = []
  ∧ input_history (process_input (after_inputs combos symbols) x).1 = [].
Proof.
  destruct (after_inputs_spec combos symbols) as ([Hcur _] & Hroot & Hsuffix).
  rewrite (process_input_flags _ x Hcur), Hroot.
  set (h := input_history (after_inputs combos symbols)) in *.
  assert (∀ p, p ≠ [] → p `suffix_of` symbols ++ [x] →
            flags_at (root (fresh combos)) p = Some (true, Some name) →
            ∃ sequence, (sequence, name) ∈ combos ∧ sequence ≠ []
                        ∧ sequence `suffix_of` symbols ++ [x]) as Hfound.
  { intros p Hp Hsuf Hflags. rewrite fresh_root_flags in Hflags by done.
    apply marks_accept_inv in Hflags as [? | (nm & [= <-] & Hin)]; [done|].
    by exists p. }
  destruct (flags_at (root (fresh combos)) (h ++ [x])) as [[[|] l]|] eqn:Hfl.
  - cbn. intros ->. split; [|done].
    apply (Hfound (h ++ [x])); [by destruct h | by apply suffix_app | done].
  - done.
  - destruct (flags_at (root (fresh combos)) [x]) as [[[|] l]|] eqn:Hfl1.
    + cbn. intros ->. split; [|done].
      apply (Hfound [x]); [done | by apply suffix_app_r | done].
    + done.
    + done.
Qed.

(** A detection is sound: whatever was typed before, [process_input]
    returns a name only when the last inputs, up to the one just typed,
    spell a registered sequence with that name; the matcher is then back
    at the root with an empty history. *)
Theorem detection_is_sound
    (combos : list (list string * string)) (symbols : list string)
    (x name : string) :
  (process_input (after_inputs combos symbols) x).2 = Some name →
  (∃ sequence,
      (sequence, name) ∈ combos
      ∧ sequence ≠ []
      ∧ sequence `suffix_of` symbols ++ [x])
  ∧ current_state (process_input (after_inputs combos symbols) x).1 = []
  ∧ input_history (process_input (after_inputs combos symbols) x).1 = [].
Proof. apply process_input_detects. Qed.

Lemma detection_is_sound_witness :
  (∃ sequence,
      (sequence, "A") ∈ combos_ab
      ∧ sequence ≠ []
      ∧ sequence `suffix_of` ["b"; "x"] ++ ["a"])
  ∧ current_state (process_input (after_inputs combos_ab ["b"; "x"]) "a").1 = []
  ∧ input_history (process_input (after_inputs combos_ab ["b"; "x"]) "a").1 = [].
Proof.
  apply (detection_is_sound combos_ab ["b"; "x"] "a" "A").
  vm_compute. reflexivity.
Defined.

(** ** The catalogue of combos *)

Lemma catalogue_no_duplicates : NoDup get_all_combos.*1.
Proof. apply (bool_decide_unpack _). vm_compute. exact I. Qed.

Lemma catalogue_prefix_free :
  Forall (λ s, Forall (λ q, q `prefix_of` s → q = s) get_all_combos.*1)
         get_all_combos.*1.
Proof. apply (bool_decide_unpack _). vm_compute. exact I. Qed.

Lemma catalogue_ends_with_space :
  Forall (λ s, last s = Some SPACE) get_all_combos.*1.
Proof. apply (bool_decide_unpack _). vm_compute. exact I. Qed.

Lemma suffix_last {A} (l k : list A) x :
  l ≠ [] → l `suffix_of` k ++ [x] → last l = Some x.
Proof.
  intros Hne [k' Hk].
  destruct (exists_last Hne) as (l' & y & ->).
  rewrite app_assoc in Hk. apply app_inj_tail in Hk as [_ <-].
  apply last_snoc.
Qed.

(** On the matcher of the game, built from the catalogue: a combo is
    detected on [SPACE] only, whatever was typed before; and from the
    root, where every detection leaves the matcher, typing the sequence
    of any combo of the catalogue detects that combo on its last key and
    nothing before. *)
Theorem catalogue_combos_are_detected (symbols : list string) :
  (∀ x name,
     (process_input (after_inputs get_all_combos symbols) x).2 = Some name →
     x = SPACE)
  ∧ (input_history (after_inputs get_all_combos symbols) = [] →
     ∀ sequence name,
       (sequence, name) ∈ get_all_combos →
       (feed (after_inputs get_all_combos symbols) sequence).2
       = replicate (length sequence - 1) None ++ [Some name]).
Proof.
  split.
  - intros x name Hout.
    apply process_input_detects in Hout as ((sequence & Hin & Hne & Hsuf) & _).
    pose proof (suffix_last _ _ _ Hne Hsuf) as Hlast.
    pose proof catalogue_ends_with_space as Hspace.
    rewrite Forall_forall in Hspace.
    rewrite (Hspace sequence) in Hlast; [by injection Hlast|].
    apply list_elem_of_fmap. by exists (sequence, name).
  - intros Hhist sequence name Hin.
    destruct (after_inputs_spec get_all_combos symbols) as ([Hcur _] & Hroot & _).
    assert (sequence ∈ get_all_combos.*1) as Hseq.
    { apply list_elem_of_fmap. by exists (sequence, name). }
    apply (feed_registered get_all_combos sequence name
             catalogue_no_duplicates Hin) with (seen := []).
    + intros q Hq _ Hpre.
      pose proof catalogue_prefix_free as Hfree.
      rewrite Forall_forall in Hfree. specialize (Hfree sequence Hseq).
      rewrite Forall_forall in Hfree. by apply Hfree.
    + done.
    + pose proof catalogue_ends_with_space as Hspace.
      rewrite Forall_forall in Hspace. specialize (Hspace sequence Hseq).
      by destruct sequence.
    + done.
    + by rewrite Hcur.
    + done.
Qed.

(** ** The identifiers of the states *)

Lemma id_at_nil n : id_at n [] = Some (state_id n).
Proof. reflexivity. Qed.

Lemma id_at_cons n a p :
  id_at n (a :: p)
  = match state_machine.transitions n !! a with
    | Some child => id_at child p
    | None => None
    end.
Proof.
  unfold id_at. cbn [node_at]. unfold get_next_state.
  by destruct (state_machine.transitions n !! a).
Qed.

Lemma id_at_marked n name p :
  id_at (mkStateNode (state_id n) (state_machine.transitions n) (Some name) true) p
  = id_at n p.
Proof. destruct p; [done|]. by rewrite !id_at_cons. Qed.

Lemma id_at_new c p : p ≠ [] → id_at (new_StateNode c) p = None.
Proof. destruct p as [|a p]; [done|]. intros _. by rewrite id_at_cons. Qed.

(** The identifiers below a node with the child at [x] replaced. *)
Lemma id_at_add_transition n x child p :
  id_at (state_machine.add_transition n x child) p
  = match p with
    | [] => Some (state_id n)
    | a :: p' => if decide (a = x) then id_at child p' else id_at n p
    end.
Proof.
  destruct p as [|a p']; [done|]. rewrite !id_at_cons.
  unfold state_machine.add_transition. cbn [state_machine.transitions].
  destruct (decide (a = x)) as [-> | Hne].
  - by rewrite lookup_insert_eq.
  - by rewrite lookup_insert_ne.
Qed.

Lemma lookup_add_transition n x child :
  state_machine.transitions (state_machine.add_transition n x child) !! x
  = Some child.
Proof. cbn. apply lookup_insert_eq. Qed.

(** What the insertion of one sequence does to the identifiers: the
    nodes that were there keep theirs, and the new nodes take the numbers
    from the counter on, one each. *)
Lemma walk_insert_ids s name : ∀ c n,
  c ≤ (walk_insert c n s name).1
  ∧ state_id (walk_insert c n s name).2 = state_id n
  ∧ (∀ p i, id_at n p = Some i → id_at (walk_insert c n s name).2 p = Some i)
  ∧ (∀ p i, id_at (walk_insert c n s name).2 p = Some i →
       id_at n p = Some i
       ∨ (id_at n p = None ∧ c ≤ i < (walk_insert c n s name).1))
  ∧ (∀ p q i,
       id_at (walk_insert c n s name).2 p = Some i →
       id_at (walk_insert c n s name).2 q = Some i →
       id_at n p = None → id_at n q = None → p = q)
  ∧ (∀ i, c ≤ i < (walk_insert c n s name).1 →
       ∃ p, id_at (walk_insert c n s name).2 p = Some i).
Proof.
  induction s as [|x rest IH]; intros c n.
  - cbn [walk_insert fst snd].
    split; [done|]. split; [done|].
    split; [intros p i; by rewrite id_at_marked|].
    split; [intros p i; rewrite id_at_marked; by left|].
    split; [intros p q i; rewrite !id_at_marked; congruence|].
    intros i Hi. lia.
  - cbn [walk_insert]. unfold has_transition, get_next_state.
    destruct (state_machine.transitions n !! x) as [child|] eqn:Hx.
    + rewrite bool_decide_eq_true_2 by eauto. cbn [negb]. rewrite Hx.
      specialize (IH c child).
      destruct (walk_insert c child rest name) as [c2 child'].
      cbn [fst snd] in *.
      destruct IH as (H1 & H2 & H3 & H4 & H5 & H6).
      split; [done|]. split; [done|].
      split; [|split; [|split]].
      * intros p i. rewrite id_at_add_transition.
        destruct p as [|a p']; [done|].
        case_decide as Ha; [subst a|done].
        rewrite id_at_cons, Hx. apply H3.
      * intros p i. rewrite id_at_add_transition.
        destruct p as [|a p']; [by left|].
        case_decide as Ha; [subst a|by left].
        rewrite id_at_cons, Hx. apply H4.
      * intros p q i. rewrite !id_at_add_transition.
        destruct p as [|a p']; [by intros _ _ [=]|].
        destruct q as [|b q']; [by intros _ _ _ [=]|].
        case_decide as Ha; [subst a|congruence].
        case_decide as Hb; [subst b|congruence].
        rewrite !id_at_cons, Hx. intros Hp Hq Hnp Hnq.
        f_equal. by apply (H5 p' q' i).
      * intros i Hi. destruct (H6 i Hi) as [p' Hp'].
        exists (x :: p'). rewrite id_at_add_transition.
        by rewrite decide_True.
    + rewrite bool_decide_eq_false_2 by (by intros [? ?]). cbn [negb].
      unfold _create_state. rewrite lookup_add_transition.
      specialize (IH (S c) (new_StateNode c)).
      destruct (walk_insert (S c) (new_StateNode c) rest name) as [c2 child'].
      cbn [fst snd] in *.
      destruct IH as (H1 & H2 & H3 & H4 & H5 & H6).
      split; [lia|]. split; [done|].
      split; [|split; [|split]].
      * intros p i. rewrite id_at_add_transition.
        destruct p as [|a p']; [done|].
        case_decide as Ha; [subst a|].
        -- by rewrite id_at_cons, Hx.
        -- by rewrite id_at_add_transition, decide_False.
      * intros p i. rewrite id_at_add_transition.
        destruct p as [|a p']; [by left|].
        case_decide as Ha; [subst a|].
        -- rewrite id_at_cons, Hx. intros Hp. right. split; [done|].
           apply H4 in Hp as [Hold | [_ Hnew]]; [|lia].
           destruct p' as [|b p']; [|by rewrite id_at_new in Hold].
           injection Hold as <-. lia.
        -- rewrite id_at_add_transition, decide_False by done. by left.
      * intros p q i. rewrite !id_at_add_transition.
        destruct p as [|a p']; [by intros _ _ [=]|].
        destruct q as [|b q']; [by intros _ _ _ [=]|].
        case_decide as Ha; [subst a|].
        2:{ intros; congruence. }
        case_decide as Hb; [subst b|].
        2:{ intros; congruence. }
        intros Hp Hq _ _. f_equal.
        pose proof (H4 _ _ Hp) as [Hp_old | [Hp_new Hp_range]];
          pose proof (H4 _ _ Hq) as [Hq_old | [Hq_new Hq_range]].
        -- destruct p' as [|b p']; [|by rewrite id_at_new in Hp_old].
           destruct q' as [|b q']; [|by rewrite id_at_new in Hq_old].
           done.
        -- destruct p' as [|b p']; [|by rewrite id_at_new in Hp_old].
           injection Hp_old as <-. lia.
        -- destruct q' as [|b q']; [|by rewrite id_at_new in Hq_old].
           injection Hq_old as <-. lia.
        -- by apply (H5 p' q' i).
      * intros i Hi.
        destruct (decide (i = c)) as [-> | Hne].
        -- exists [x]. rewrite id_at_add_transition, decide_True by done.
           by rewrite id_at_nil, H2.
        -- destruct (H6 i) as [p' Hp']; [lia|].
           exists (x :: p'). rewrite id_at_add_transition.
           by rewrite decide_True.
Qed.

Lemma walk_insert_ids_unique s name c n :
  ids_unique c n →
  ids_unique (walk_insert c n s name).1 (walk_insert c n s name).2.
Proof.
  intros (Hbound & Hinj & Hsurj).
  destruct (walk_insert_ids s name c n) as (H1 & H2 & H3 & H4 & H5 & H6).
  split; [|split].
  - intros p i Hp. apply H4 in Hp as [Hold | [_ Hnew]]; [|lia].
    apply Hbound in Hold. lia.
  - intros p q i Hp Hq.
    pose proof (H4 _ _ Hp) as [Hp_old | [Hp_new Hp_range]];
      pose proof (H4 _ _ Hq) as [Hq_old | [Hq_new Hq_range]].
    + by apply (Hinj p q i).
    + apply Hbound in Hp_old. lia.
    + apply Hbound in Hq_old. lia.
    + by apply (H5 p q i).
  - intros i Hi. destruct (decide (i < c)) as [Hlt | Hge].
    + destruct (Hsurj i Hlt) as [p Hp]. exists p. by apply H3.
    + apply H6. lia.
Qed.

Lemma build_ids_unique combos : ∀ c n,
  ids_unique c n →
  ids_unique (foldl insert_combo (c, n) combos).1
             (foldl insert_combo (c, n) combos).2.
Proof.
  induction combos as [|[s name] combos IH]; intros c n Hinv; [done|].
  cbn [foldl insert_combo].
  pose proof (walk_insert_ids_unique s name c n Hinv) as Hstep.
  destruct (walk_insert c n s name) as [c' n']. by apply IH.
Qed.

Lemma fresh_ids_unique combos :
  ids_unique (_state_counter (fresh combos)) (root (fresh combos)).
Proof.
  unfold fresh, build_from_combos.
  pose proof (build_ids_unique combos (_state_counter __init__) (root __init__))
    as Hbuild.
  destruct (foldl insert_combo _ combos) as [c r]. cbn [fst snd] in *.
  apply Hbuild.
  change (root __init__) with (new_StateNode 0).
  change (_state_counter __init__) with 1.
  split; [|split].
  - intros [|a p] i; [|by rewrite id_at_new]. intros [= <-]. cbn. lia.
  - intros [|a p] [|b q] i; try done; by rewrite id_at_new.
  - intros i Hi. exists []. cbn in *. f_equal. lia.
Qed.

Lemma build_root_id combos : ∀ c n,
  state_id (foldl insert_combo (c, n) combos).2 = state_id n.
Proof.
  induction combos as [|[s name] combos IH]; intros c n; [done|].
  cbn [foldl insert_combo].
  destruct (walk_insert_ids s name c n) as (_ & Hid & _).
  destruct (walk_insert c n s name) as [c' n']. cbn [snd] in Hid.
  by rewrite IH, Hid.
Qed.

Lemma fresh_root_id combos : state_id (root (fresh combos)) = 0.
Proof.
  unfold fresh, build_from_combos.
  pose proof (build_root_id combos (_state_counter __init__) (root __init__))
    as Hid.
  by destruct (foldl insert_combo _ combos) as [c r].
Qed.

Lemma process_input_counter self x :
  _state_counter (process_input self x).1 = _state_counter self.
Proof.
  unfold process_input, check_accept.
  repeat case_match; done.
Qed.

Lemma feed_counter symbols : ∀ self,
  _state_counter (feed self symbols).1 = _state_counter self.
Proof.
  induction symbols as [|x symbols IH]; intros self; [done|].
  cbn [feed]. pose proof (process_input_counter self x) as Hc.
  destruct (process_input self x) as [self1 out]. cbn [fst] in *.
  specialize (IH self1). destruct (feed self1 symbols) as [self2 outs].
  cbn [fst] in *. by rewrite IH.
Qed.

(** The state identifiers name the states: whatever was typed, the
    matcher is in a state whose identifier is below the state counter;
    two runs that end with the same identifier end in the same state; the
    root has the identifier 0, and every number below the counter is the
    identifier of a state, so the counter is the number of states. *)
Theorem state_ids_name_the_states
    (combos : list (list string * string)) (symbols1 symbols2 : list string) :
  (∃ i, get_current_state_id (after_inputs combos symbols1) = Some i
        ∧ i < _state_counter (after_inputs combos symbols1))
  ∧ (get_current_state_id (after_inputs combos symbols1)
     = get_current_state_id (after_inputs combos symbols2) →
     current_state (after_inputs combos symbols1)
     = current_state (after_inputs combos symbols2))
  ∧ get_current_state_id (fresh combos) = Some 0
  ∧ (∀ i, i < _state_counter (fresh combos) →
       ∃ p, id_at (root (fresh combos)) p = Some i).
Proof.
  destruct (fresh_ids_unique combos) as (Hbound & Hinj & Hsurj).
  destruct (after_inputs_spec combos symbols1) as ([Hcur1 Hnode1] & Hroot1 & _).
  destruct (after_inputs_spec combos symbols2) as ([Hcur2 Hnode2] & Hroot2 & _).
  unfold get_current_state_id. rewrite Hroot1, Hroot2.
  fold (id_at (root (fresh combos)) (current_state (after_inputs combos symbols1))).
  fold (id_at (root (fresh combos)) (current_state (after_inputs combos symbols2))).
  rewrite <- Hcur1, Hroot1 in Hnode1. rewrite <- Hcur2, Hroot2 in Hnode2.
  destruct Hnode1 as [n1 Hn1]. destruct Hnode2 as [n2 Hn2].
  assert (id_at (root (fresh combos)) (current_state (after_inputs combos symbols1))
          = Some (state_id n1)) as Hid1 by (unfold id_at; by rewrite Hn1).
  assert (id_at (root (fresh combos)) (current_state (after_inputs combos symbols2))
          = Some (state_id n2)) as Hid2 by (unfold id_at; by rewrite Hn2).
  split; [|split; [|split]].
  - exists (state_id n1). split; [done|].
    unfold after_inputs. rewrite feed_counter. by apply (Hbound _ _ Hid1).
  - rewrite Hid1, Hid2. intros [= Heq]. rewrite <- Heq in Hid2.
    by apply (Hinj _ _ _ Hid1 Hid2).
  - destruct (fresh_fields combos) as (-> & _ & _).
    cbn. by rewrite fresh_root_id.
  - exact Hsurj.
Qed.

(** ** The progress of a matcher in use *)

(** A node that accepts keeps accepting when further combos are inserted. *)
Lemma marks_accept_stable p combos : ∀ l,
  ∃ l', foldl (mark_step p) (Some (true, l)) combos = Some (true, l').
Proof.
  induction combos as [|[s name] combos IH]; intros l; cbn [foldl].
  { by exists l. }
  unfold mark_step at 2. cbn [fst snd default].
  destruct (decide (p = s)); [apply IH|].
  case_decide; apply IH.
Qed.

(** The end of a registered sequence is a node that accepts. *)
Lemma marks_registered p combos : ∀ f0,
  p ∈ combos.*1 →
  ∃ l, foldl (mark_step p) f0 combos = Some (true, l).
Proof.
  induction combos as [|[s name] combos IH]; intros f0 Hin.
  { by apply elem_of_nil in Hin. }
  rewrite fmap_cons in Hin. cbn [foldl fst] in *.
  apply elem_of_cons in Hin as [-> | Hin]; [|by apply IH].
  unfold mark_step at 2. cbn [fst snd].
  rewrite decide_True by done. apply marks_accept_stable.
Qed.

(** Between two inputs the matcher rests on a node that does not accept,
    the root apart. *)
Lemma process_input_rests self x :
  current_state self = input_history self →
  input_history (process_input self x).1 ≠ [] →
  ∃ l, flags_at (root self) (input_history (process_input self x).1)
       = Some (false, l).
Proof.
  intros Hcur. rewrite (process_input_flags self x Hcur).
  destruct (flags_at (root self) (input_history self ++ [x]))
    as [[[] l]|] eqn:Hlong; cbn [fst reset set_cursor input_history].
  - done.
  - intros _. by exists l.
  - destruct (flags_at (root self) [x]) as [[[] l]|] eqn:Hshort;
      cbn [fst reset set_cursor input_history]; [done| |done].
    intros _. by exists l.
Qed.

Lemma feed_rests symbols : ∀ self,
  on_path self →
  (input_history self ≠ [] →
   ∃ l, flags_at (root self) (input_history self) = Some (false, l)) →
  input_history (feed self symbols).1 ≠ [] →
  ∃ l, flags_at (root self) (input_history (feed self symbols).1)
       = Some (false, l).
Proof.
  induction symbols as [|x symbols IH]; intros self Hpath Hrest; [done|].
  cbn [feed].
  pose proof (process_input_on_path self x Hpath) as Hpath1.
  pose proof (process_input_rests self x (proj1 Hpath)) as Hrest1.
  destruct (process_input_frame self x) as [Hroot _].
  destruct (process_input self x) as [self1 out]. cbn [fst] in *.
  rewrite <- Hroot in Hrest1.
  specialize (IH self1 Hpath1 Hrest1). rewrite Hroot in IH.
  by destruct (feed self1 symbols) as [self2 outs].
Qed.

(** A history that is not empty is not a registered sequence. *)
Lemma after_inputs_unfinished combos symbols :
  input_history (after_inputs combos symbols) ≠ [] →
  input_history (after_inputs combos symbols) ∉ combos.*1.
Proof.
  intros Hne Hin. unfold after_inputs in *.
  destruct (fresh_fields combos) as (Hcur & Hhist & _).
  destruct (feed_rests symbols (fresh combos)) as [l Hflags];
    [apply fresh_on_path | by rewrite Hhist | done |].
  rewrite fresh_root_flags in Hflags by done.
  destruct (marks_registered _ combos None Hin) as [l' Hmarks].
  congruence.
Qed.

Lemma ratio_below_one (a b : nat) :
  a < b → (inject_Z (Z.of_nat a) / inject_Z (Z.of_nat b) < 1)%Q.
Proof.
  intros Hab.
  apply Qlt_shift_div_r.
  - change 0%Q with (inject_Z 0). rewrite <- Zlt_Qlt. lia.
  - rewrite Qmult_1_l. rewrite <- Zlt_Qlt. lia.
Qed.

(** After any inputs to a matcher built from any combos,
    [get_progress_percentage] is below 1: a sequence that is completed
    resets the history, so that a history that is not empty is a prefix of
    a registered sequence that is longer, and is not registered itself. *)
Theorem progress_stays_below_one
    (combos : list (list string * string)) (symbols : list string) :
  (get_progress_percentage (after_inputs combos symbols) < 1)%Q
  ∧ (input_history (after_inputs combos symbols) = []
     ∨ (input_history (after_inputs combos symbols) ∉ combos.*1)
       ∧ ∃ s, s ∈ combos.*1
              ∧ input_history (after_inputs combos symbols) `prefix_of` s
              ∧ length (input_history (after_inputs combos symbols))
                < length s).
Proof.
  destruct (decide (input_history (after_inputs combos symbols) = []))
    as [Hempty | Hne].
  { split; [|by left]. unfold get_progress_percentage. by rewrite Hempty. }
  pose proof (after_inputs_unfinished combos symbols Hne) as Hnot.
  destruct (after_inputs_history combos symbols Hne) as (s & Hs & Hpre).
  assert (length (input_history (after_inputs combos symbols)) < length s)
    as Hlen.
  { destruct Hpre as [k Hk].
    destruct k as [|y k].
    - rewrite app_nil_r in Hk. by subst s.
    - rewrite Hk, length_app. cbn [length]. lia. }
  split; [|right; eauto].
  destruct (feed_on_path symbols (fresh combos) (fresh_on_path combos))
    as (_ & _ & Hcombos).
  fold (after_inputs combos symbols) in Hcombos.
  destruct (fresh_fields combos) as (_ & _ & Hlist).
  unfold get_progress_percentage. rewrite Hcombos, Hlist.
  pose proof (proj2 (max_length_loop_bounds
                       (input_history (after_inputs combos symbols)) combos 0)
                    s Hs Hpre) as Hmax.
  fold (max_length_loop (input_history (after_inputs combos symbols)) combos)
    in Hmax.
  destruct (input_history (after_inputs combos symbols)) as [|x h]; [done|].
  case_bool_decide; [done|].
  apply ratio_below_one. lia.
Qed.
